(** * SScanSS-2 simulation engine: a shallow embedding of
      [sscanss/core/instrument/simulation.py]

    The development follows the module top to bottom: Python exceptions and
    the numpy operations the module relies on, the collaborators it calls
    (positioner, meshes, path-length routine, collision manager), the
    collision helpers [update_colliders] and [populate_collision_manager],
    [SimulationResult], the Controller ([Simulation.__init__], the property
    setters, [start], [CheckResult], [abort], [isRunning]) and the Worker
    ([Simulation.execute]) as a resumable step function, so that Controller
    actions can be interleaved with it. *)

From Stdlib Require Import QArith.
From stdpp Require Import base option list gmap strings pretty.

Open Scope nat_scope.

(** ** Python exceptions and fallible computations *)

Inductive exn : Type :=
| IndexError      (* sequence or boolean-mask index out of range *)
| ValueError      (* numpy shape mismatch (reshape, matmul, broadcast) *)
| KeyError        (* missing dictionary key *)
| AttributeError  (* attribute access on [None] *)
| ConfigError     (* the error class named by the specification *)
| ExternalError.  (* anything raised inside a collaborator *)

Inductive res (A : Type) : Type :=
| Ok (a : A)
| Raise (e : exn).
Arguments Ok {A} a.
Arguments Raise {A} e.

Global Instance res_ret : MRet res := fun A a => Ok a.
Global Instance res_bind : MBind res := fun A B f m =>
  match m with
  | Ok a => f a
  | Raise e => Raise e
  end.

Definition is_ok {A} (r : res A) : bool :=
  match r with Ok _ => true | Raise _ => false end.

(** [for x in xs: acc = body(acc, x)] where the body may raise. *)
Fixpoint for_each {A S} (xs : list A) (body : S → A → res S) (acc : S) : res S :=
  match xs with
  | [] => Ok acc
  | x :: xs' => acc' ← body acc x; for_each xs' body acc'
  end.

(** [seq[i]] with a non-negative index. *)
Definition index {A} (l : list A) (i : nat) : res A :=
  match l !! i with
  | Some x => Ok x
  | None => Raise IndexError
  end.

(** [seq[-1]]. *)
Definition index_last {A} (l : list A) : res A :=
  match last l with
  | Some x => Ok x
  | None => Raise IndexError
  end.

(** [seq[start:stop]] with non-negative bounds (Python clamps them). *)
Definition slice {A} (l : list A) (start stop : nat) : list A :=
  take (stop - start) (drop start l).

(** ** Floating-point scalars

    The module computes on numpy [float64] values.  Their arithmetic is kept
    abstract: the only law used is that [x <= y] and [x > y] never hold
    together, which IEEE comparison satisfies (also for NaN). *)

Class Float (F : Type) : Type := {
  fzero : F;
  fone : F;
  fadd : F → F → F;
  fmul : F → F → F;
  fsqrt : F → F;
  fgt : F → F → bool;               (* x > y *)
  fle : F → F → bool;               (* x <= y *)
  epsilon : F;                      (* the literal 0.0001 *)
  f32 : F → F;                      (* store into a float32 buffer *)
  fle_not_fgt : ∀ x y, fle x y = true → fgt x y = false
}.

(** Rationals as an executable instance; the square root is the integer
    root of the value scaled by 10^16, i.e. rounded to eight decimals. *)
Definition Qsqrt8 (q : Q) : Q :=
  Qmake (Z.sqrt (Qnum q * 10 ^ 16 / Zpos (Qden q))) (10 ^ 8).

Definition Q_fle_not_fgt (x y : Q) (H : Qle_bool x y = true)
  : negb (Qle_bool x y) = false := f_equal negb H.

Global Instance Q_Float : Float Q := {|
  fzero := 0%Q;
  fone := 1%Q;
  fadd := Qplus;
  fmul := Qmult;
  fsqrt := Qsqrt8;
  fgt := fun x y => negb (Qle_bool x y);
  fle := Qle_bool;
  epsilon := Qmake 1 10000;
  f32 := fun x => x;
  fle_not_fgt := Q_fle_not_fgt
|}.

(** ** The numpy operations used by the module *)

Section Numpy.
Context {F : Type} `{!Float F}.

Definition Vec3 : Type := F * F * F.

(** A [Matrix44] (and its 3x3 block) is read through its entries. *)
Definition Matrix : Type := nat → nat → F.

Definition identity : Matrix :=
  fun i j => if i =? j then fone else fzero.

Definition transpose (m : Matrix) : Matrix := fun i j => m j i.

Definition dot3 (a0 a1 a2 b0 b1 b2 : F) : F :=
  fadd (fadd (fmul a0 b0) (fmul a1 b1)) (fmul a2 b2).

(** [m1 @ m2] for 4x4 matrices. *)
Definition matmul44 (m1 m2 : Matrix) : Matrix :=
  fun i j =>
    fadd (fadd (fadd (fmul (m1 i 0) (m2 0 j)) (fmul (m1 i 1) (m2 1 j)))
               (fmul (m1 i 2) (m2 2 j)))
         (fmul (m1 i 3) (m2 3 j)).

(** [v @ m[0:3, 0:3]]: a row vector times the upper-left block. *)
Definition row_mul (v : Vec3) (m : Matrix) : Vec3 :=
  let '(x, y, z) := v in
  (dot3 x y z (m 0 0) (m 1 0) (m 2 0),
   dot3 x y z (m 0 1) (m 1 1) (m 2 1),
   dot3 x y z (m 0 2) (m 1 2) (m 2 2)).

(** [m[0:3, 0:3] @ v]: the upper-left block times a column vector. *)
Definition mat_mul_vec (m : Matrix) (v : Vec3) : Vec3 :=
  let '(x, y, z) := v in
  (dot3 (m 0 0) (m 0 1) (m 0 2) x y z,
   dot3 (m 1 0) (m 1 1) (m 1 2) x y z,
   dot3 (m 2 0) (m 2 1) (m 2 2) x y z).

(** [m[r, 0:3]]. *)
Definition row3 (m : Matrix) (r : nat) : Vec3 := (m r 0, m r 1, m r 2).

Definition vadd (a b : Vec3) : Vec3 :=
  let '(a0, a1, a2) := a in
  let '(b0, b1, b2) := b in
  (fadd a0 b0, fadd a1 b1, fadd a2 b2).

(** [np.linalg.norm] of one row of three components. *)
Definition norm3 (v : Vec3) : F :=
  let '(x, y, z) := v in fsqrt (dot3 x y z x y z).

Definition component (v : Vec3) (c : nat) : F :=
  let '(x, y, z) := v in
  match c with 0 => x | 1 => y | _ => z end.

(** A three-dimensional array: its shape and its entries.  The shape is
    kept apart from the data because an array with no rows still has a
    second and a third dimension. *)
Record ndarray3 : Type := {
  shape0 : nat;
  shape1 : nat;
  shape2 : nat;
  at3 : nat → nat → nat → F
}.

(** Positions of the [True] entries of a boolean mask. *)
Fixpoint true_indices (mask : list bool) (from : nat) : list nat :=
  match mask with
  | [] => []
  | b :: mask' =>
      if b then from :: true_indices mask' (S from)
      else true_indices mask' (S from)
  end.

(** [a[mask, :, :]]: numpy raises [IndexError] unless the mask is as long
    as the first dimension. *)
Definition take_rows (a : ndarray3) (mask : list bool) : res ndarray3 :=
  if length mask =? shape0 a then
    let rows := true_indices mask 0 in
    Ok {| shape0 := length rows;
          shape1 := shape1 a;
          shape2 := shape2 a;
          at3 := fun i m k => at3 a (nth i rows 0) m k |}
  else Raise IndexError.

(** [a[i, j:j+3, k]] when the slice holds three entries. *)
Definition group_at (a : ndarray3) (i j k : nat) : Vec3 :=
  (at3 a i j k, at3 a i (j + 1) k, at3 a i (j + 2) k).

(** [a[:, j:j+3, k] = a[:, j:j+3, k] @ m[0:3, 0:3]]; a slice with fewer
    than three columns makes [@] raise [ValueError]. *)
Definition rotate_group (m : Matrix) (k : nat) (a : ndarray3) (j : nat)
  : res ndarray3 :=
  if j + 3 <=? shape1 a then
    Ok {| shape0 := shape0 a;
          shape1 := shape1 a;
          shape2 := shape2 a;
          at3 := fun i c b =>
                   if (b =? k) && (j <=? c) && (c <? j + 3)
                   then component (row_mul (group_at a i j k) m) (c - j)
                   else at3 a i c b |}
  else Raise ValueError.

(** [range(0, n, 3)]. *)
Definition range_by_3 (n : nat) : list nat :=
  (fun g => 3 * g) <$> seq 0 ((n + 2) / 3).

(** [a[i, :, j].reshape(-1, 3)]. *)
Definition reshape_groups (a : ndarray3) (i j : nat) : res (list Vec3) :=
  if shape1 a mod 3 =? 0 then
    Ok ((fun g => group_at a i (3 * g) j) <$> seq 0 (shape1 a / 3))
  else Raise ValueError.

(** [np.where(np.linalg.norm(mvs, axis=1) > 0.0001)[0]]. *)
Fixpoint where_active (mvs : list Vec3) (from : nat) : list nat :=
  match mvs with
  | [] => []
  | v :: mvs' =>
      if fgt (norm3 v) epsilon then from :: where_active mvs' (S from)
      else where_active mvs' (S from)
  end.

(** [a[selected]] for a list of row indices. *)
Fixpoint fancy_index {A} (l : list A) (selected : list nat) : res (list A) :=
  match selected with
  | [] => Ok []
  | s :: selected' =>
      x ← index l s; xs ← fancy_index l selected'; Ok (x :: xs)
  end.

End Numpy.

Arguments Vec3 F : clear implicits.
Arguments Matrix F : clear implicits.
Arguments ndarray3 F : clear implicits.

(** ** Collaborators

    The positioner, the meshes, the scene nodes and the path-length routine
    live in other modules; the simulation only calls them.  Calls that run a
    numerical routine may raise. *)

Inductive Status : Type := Converged | NotConverged | Failed.

Record IkineKwargs (F : Type) : Type := {
  local_max_eval : nat;
  global_max_eval : nat;
  tol : F * F;
  bounded : bool
}.
Arguments local_max_eval {F} _.
Arguments global_max_eval {F} _.
Arguments tol {F} _.
Arguments bounded {F} _.

Class Externals (F : Type) : Type := {
  Mesh : Type;
  Node : Type;
  Positioner : Type;
  (* [Mesh.transformed(matrix)] *)
  mesh_transformed : Mesh → Matrix F → Mesh;
  (* [Node.transform] *)
  node_transform : Node → Matrix F;
  (* [[positioner.links[order].name for order in positioner.order]] *)
  link_names : Positioner → list string;
  (* [positioner.pose], [positioner.tool_link] *)
  positioner_pose : Positioner → Matrix F;
  tool_link : Positioner → Matrix F;
  (* [positioner.ikine([point, measurement_vectors],
                       [gauge_volume, q_vectors], **ikine_kwargs)] *)
  ikine : Positioner → Vec3 F * list (Vec3 F) → Vec3 F * list (Vec3 F) →
          IkineKwargs F →
          res (Positioner * (list F * (F * Vec3 F) * Status));
  (* [positioner.fkine(q)]: also moves the positioner *)
  fkine : Positioner → list F → res (Positioner * Matrix F);
  (* [positioner.toUserFormat(q)] *)
  toUserFormat : Positioner → list F → list F;
  (* [positioner.model().flatten().children] *)
  model_children : Positioner → list Node;
  (* [path_length_calculation(mesh, gauge_volume, beam_axis, diff_axis)] *)
  path_length_calculation :
    Mesh → Vec3 F → Vec3 F → list (Vec3 F) → res (list F);
  (* [Attributes.Positioner.value] *)
  positioner_attribute : string;
  (* narrow-phase test of the collision engine on two placed geometries *)
  overlap : Mesh + Node → option (Matrix F) →
            Mesh + Node → option (Matrix F) → bool
}.

(** ** Collision manager *)

Section Collision.
Context {F : Type} `{!Float F} `{!Externals F}.

Inductive Exclude : Type := ExcludeAll | ExcludeConsecutive | ExcludeNothing.

(** A collider: identifier, geometry with its current placement, and the
    identifiers it is never tested against ([excludes[k] = True]). *)
Record Collider : Type := {
  cid : nat;
  geometry : Mesh + Node;
  placement : option (Matrix F);
  excludes : gset nat;
  movable : bool
}.

Record CollisionManager : Type := {
  max_size : nat;
  colliders : list Collider;
  aabb_built : bool
}.

(** Modelled from the spec: the constructor [CollisionManager(max_size)];
    [collision.py] is not part of the sources at hand. *)
Definition new_manager (size : nat) : CollisionManager :=
  {| max_size := size; colliders := []; aabb_built := false |}.

(** Modelled from the spec: [clear()] of the missing [collision.py]. *)
Definition clear (m : CollisionManager) : CollisionManager :=
  {| max_size := max_size m; colliders := []; aabb_built := false |}.

(** Identifiers excluded for the collider at offset [k] of a group of [n]
    colliders whose first identifier is [start]. *)
Definition policy_excludes (policy : Exclude) (start n k : nat) : gset nat :=
  match policy with
  | ExcludeAll => list_to_set (seq start n)
  | ExcludeConsecutive =>
      list_to_set (filter (fun i => start ≤ i < start + n)
                          [start + k - 1; start + k; start + k + 1])
  | ExcludeNothing => ∅
  end.

(** Modelled from the spec: [addColliders(nodes, transforms,
    exclusion_policy, movable)] of the missing [collision.py].  New
    colliders are appended and numbered by their position, which is what
    [populate_collision_manager] relies on when it indexes
    [manager.colliders] by identifier; exclusions concern only the items
    of the same call. *)
Definition addColliders (m : CollisionManager) (geoms : list (Mesh + Node))
    (transforms : option (list (Matrix F))) (policy : Exclude)
    (is_movable : bool) : CollisionManager :=
  let start := length (colliders m) in
  let n := length geoms in
  let fresh :=
    imap (fun k g =>
            {| cid := start + k;
               geometry := g;
               placement := t ← transforms; t !! k;
               excludes := policy_excludes policy start n k;
               movable := is_movable |}) geoms in
  {| max_size := max_size m;
     colliders := colliders m ++ fresh;
     aabb_built := false |}.

(** Modelled from the spec: [createAABBSets()] of the missing
    [collision.py] rebuilds the broad-phase bounds. *)
Definition createAABBSets (m : CollisionManager) : CollisionManager :=
  {| max_size := max_size m; colliders := colliders m; aabb_built := true |}.

(** Modelled from the spec: [collider.geometry.transform(pose)]. *)
Definition place (pose : Matrix F) (c : Collider) : Collider :=
  {| cid := cid c;
     geometry := geometry c;
     placement := Some pose;
     excludes := excludes c;
     movable := movable c |}.

Definition pair_checked (c d : Collider) : bool :=
  negb (cid c =? cid d)
  && negb (bool_decide (cid d ∈ excludes c))
  && negb (bool_decide (cid c ∈ excludes d)).

(** Modelled from the spec: [collide()] of the missing [collision.py]
    gives, per collider, whether it takes part in a detected collision. *)
Definition collide (m : CollisionManager) : list bool :=
  (fun c =>
     existsb (fun d =>
                pair_checked c d
                && overlap (geometry c) (placement c)
                           (geometry d) (placement d))
             (colliders m)) <$> colliders m.

(** [manager.colliders[i].geometry.transform(pose)] *)
Definition transform_collider (pose : Matrix F) (m : CollisionManager)
    (i : nat) : res CollisionManager :=
  _ ← index (colliders m) i;
  Ok {| max_size := max_size m;
        colliders := alter (place pose) i (colliders m);
        aabb_built := false |}.

(** [update_colliders(manager, sample_pose, sample_ids, positioner_nodes,
    positioner_ids)] *)
Definition update_colliders (m : CollisionManager) (sample_pose : Matrix F)
    (sample_ids : list nat) (positioner_nodes : list Node)
    (positioner_ids : list nat) : res CollisionManager :=
  m1 ← for_each sample_ids (transform_collider sample_pose) m;
  m2 ← for_each (zip positioner_ids positioner_nodes)
         (fun m' '(i, node) => transform_collider (node_transform node) m' i)
         m1;
  Ok (createAABBSets m2).

(** [collider.excludes[k] = True] on the collider at position [p]. *)
Definition set_exclude (k : nat) (c : Collider) : Collider :=
  {| cid := cid c;
     geometry := geometry c;
     placement := placement c;
     excludes := {[ k ]} ∪ excludes c;
     movable := movable c |}.

(** The inner loop of [populate_collision_manager]:
    [for index, obj in enumerate(manager.colliders[0:len(sample)])]. *)
Definition exclude_tool (n_sample : nat) (m : CollisionManager)
  : res CollisionManager :=
  last_link_collider ← index_last (colliders m);
  let last_pos := length (colliders m) - 1 in
  let body cs idx :=
    alter (set_exclude idx) last_pos
          (alter (set_exclude (cid last_link_collider)) idx cs) in
  Ok {| max_size := max_size m;
        colliders :=
          foldl body (colliders m)
                (seq 0 (length (slice (colliders m) 0 n_sample)));
        aabb_built := aabb_built m |}.

(** One iteration of [for name, end_index in indices.items()]; the state
    is the manager, [positioner_ids] and [start_index]. *)
Definition populate_attribute (n_sample : nat) (children : list Node)
    (st : CollisionManager * list nat * nat) (entry : string * nat)
  : res (CollisionManager * list nat * nat) :=
  let '(m, positioner_ids, start_index) := st in
  let '(name, end_index) := entry in
  let attribute_node := slice children start_index end_index in
  if bool_decide (name = positioner_attribute) then
    last_before ← index_last (colliders m);
    let start_id := cid last_before + 1 in
    let transform := node_transform <$> attribute_node in
    let m1 := addColliders m (inr <$> attribute_node) (Some transform)
                           ExcludeConsecutive true in
    last_link_collider ← index_last (colliders m1);
    m2 ← exclude_tool n_sample m1;
    Ok (m2,
        positioner_ids
          ++ seq start_id (cid last_link_collider + 1 - start_id),
        end_index)
  else
    Ok (addColliders m (inr <$> attribute_node) None
                     ExcludeConsecutive false,
        positioner_ids, end_index).

(** [populate_collision_manager(manager, sample, sample_pose,
    instrument_node)] *)
Definition populate_collision_manager (m : CollisionManager)
    (sample : list Mesh) (sample_pose : Matrix F)
    (instrument_node : list Node * list (string * nat))
  : res (CollisionManager * list nat * list nat) :=
  let m0 := clear m in
  let transform := (fun _ => sample_pose) <$> seq 0 (length sample) in
  let m1 := addColliders m0 (inl <$> sample) (Some transform)
                         ExcludeAll true in
  let sample_ids := seq 0 (length sample) in
  let '(children, indices) := instrument_node in
  '(m2, positioner_ids, _) ←
    for_each indices (populate_attribute (length sample) children)
             (m1, [], 0);
  Ok (createAABBSets m2, sample_ids, positioner_ids).

End Collision.

(** ** The simulation *)

Section Simulation.
Context {F : Type} `{!Float F} `{!Externals F}.

(** *** [class SimulationResult] *)
Record SimulationResult : Type := {
  id : string;
  q : list F;
  error : F * Vec3 F;
  code : Status;
  alignment : nat;
  joint_labels : list string;
  formatted : list F;
  path_length : option (list F);
  collision_mask : option (list bool)
}.

(** What travels on the result queue: results, the string the Worker puts
    from its exception handler, and the [None] the Controller puts to
    bound its drain. *)
Inductive QItem : Type :=
| QResult (r : SimulationResult)
| QString (s : string)
| QNone.

Definition is_result (x : QItem) : bool :=
  match x with QResult _ => true | _ => false end.

Definition is_none (x : QItem) : bool :=
  match x with QNone => true | _ => false end.

(** *** Inputs of the constructor *)

Record Settings : Type := {
  Local_Max_Eval : nat;
  Global_Max_Eval : nat;
  Position_Stop_Val : F;
  Angular_Stop_Val : F;
  Align_First : bool
}.

(** The attributes of [instrument] that the constructor reads;
    [instrument_node] is the value of
    [createInstrumentNode(instrument, True)]: the scene children and, per
    attribute name, the index where its children end. *)
Record Instrument : Type := {
  positioning_stack : Positioner;
  beam_direction : Vec3 F;
  gauge_volume : Vec3 F;
  q_vectors : list (Vec3 F);
  detectors : list (string * Vec3 F);
  beam_in_gauge_volume : bool;
  instrument_node : list Node * list (string * nat)
}.

(** *** [self.args] and the objects shared with the Worker process *)

Record Args : Type := {
  a_ikine_kwargs : IkineKwargs F;
  a_align_first_order : bool;
  a_positioner : Positioner;
  a_points : list (Vec3 F);
  a_vectors : ndarray3 F;
  a_sample : list Mesh;
  a_beam_axis : Vec3 F;
  a_gauge_volume : Vec3 F;
  a_q_vectors : list (Vec3 F);
  a_diff_axis : list (Vec3 F);
  a_beam_in_gauge : bool;
  a_instrument_scene : list Node * list (string * nat);
  a_scene_size : nat;
  a_compute_path_length : bool;
  a_render_graphics : bool;
  a_check_collision : bool
}.

(** The path-length buffer maps a cell [(i, j)] to the row stored at
    [[i, :, j]]; a cell that was never assigned still holds its zeros
    and is absent from the map. *)
Record Shared : Type := {
  queue : list QItem;              (* args['results'] *)
  maxsize : nat;                   (* Queue(maxsize) *)
  exit_event : bool;               (* args['exit_event'] *)
  path_lengths : option (gmap (nat * nat) (list F)) (* args['path_lengths'] *)
}.

Definition with_queue (sh : Shared) (q' : list QItem) : Shared :=
  {| queue := q'; maxsize := maxsize sh; exit_event := exit_event sh;
     path_lengths := path_lengths sh |}.

Definition with_exit_event (sh : Shared) (b : bool) : Shared :=
  {| queue := queue sh; maxsize := maxsize sh; exit_event := b;
     path_lengths := path_lengths sh |}.

Definition with_path_lengths (sh : Shared)
    (p : option (gmap (nat * nat) (list F))) : Shared :=
  {| queue := queue sh; maxsize := maxsize sh; exit_event := exit_event sh;
     path_lengths := p |}.

(** [queue.put(x)] returns [None] where the call would block. *)
Definition put (sh : Shared) (x : QItem) : option Shared :=
  if length (queue sh) <? maxsize sh then Some (with_queue sh (queue sh ++ [x]))
  else None.

(** [for result in iter(queue.get, None)]: everything up to the first
    [None], and what is left behind it; [None] where [get] would block
    on an empty queue. *)
Fixpoint drain (items : list QItem) : option (list QItem * list QItem) :=
  match items with
  | [] => None
  | QNone :: rest => Some ([], rest)
  | x :: rest => '(got, behind) ← drain rest; Some (x :: got, behind)
  end.

(** [for k in range(shape[2]): for j in range(0, shape[1], 3): ...] of the
    constructor. *)
Definition rotate_vectors (m : Matrix F) (a : ndarray3 F) : res (ndarray3 F) :=
  for_each (seq 0 (shape2 a))
           (fun a' k => for_each (range_by_3 (shape1 a')) (rotate_group m k) a')
           a.

(** [order] of [execute]. *)
Definition task_order (align_first_order : bool) (shape : nat * nat * nat)
  : list (nat * nat) :=
  if align_first_order then
    i ← seq 0 shape.1.1; j ← seq 0 shape.2; [(i, j)]
  else
    j ← seq 0 shape.2; i ← seq 0 shape.1.1; [(i, j)].

(** The target selection at the head of a task (lines 287-294): the
    q-vectors and measurement vectors handed to the solver. *)
Definition select_targets (pose : Matrix F) (q_vec : list (Vec3 F))
    (all_mvs : list (Vec3 F)) : res (list (Vec3 F) * list (Vec3 F)) :=
  let selected := where_active all_mvs 0 in
  if bool_decide (length selected = 0) then
    q0 ← index q_vec 0;
    Ok ([q0], [mat_mul_vec (transpose pose) q0])
  else
    qs ← fancy_index q_vec selected;
    mvs ← fancy_index all_mvs selected;
    Ok (qs, mvs).

(** The label of a result (line 322). *)
Definition result_label (idx i j : nat) (shape : nat * nat * nat) : string :=
  if 1 <? shape.2 then
    "# " +:+ pretty (idx + 1) +:+ " - Point " +:+ pretty (i + 1)
         +:+ ", Alignment " +:+ pretty (j + 1)
  else "Point " +:+ pretty (i + 1).

(** *** The Worker: [Simulation.execute]

    The Worker runs in its own process, so it is written as a state
    machine whose steps are the stages of the source between two points
    where it meets the Controller: a read of [exit_event] or a [put] on
    the queue. *)

(** What [ikine] returned: [r], [error], [code]. *)
Definition Solution : Type := list F * (F * Vec3 F) * Status.

Inductive Pc : Type :=
| PcInit                                    (* lines 244-282 *)
| PcTask (index : nat)                      (* lines 284-297 *)
| PcCheckA (index : nat) (ij : nat * nat) (sol : Solution)
                                            (* line 299 *)
| PcPose (index : nat) (ij : nat * nat) (sol : Solution)
                                            (* lines 302-309 *)
| PcCheckB (index : nat) (ij : nat * nat) (sol : Solution)
           (pose : Matrix F) (length : option (list F))
                                            (* line 311 *)
| PcCollision (index : nat) (ij : nat * nat) (sol : Solution)
              (pose : Matrix F) (length : option (list F))
                                            (* lines 314-317 *)
| PcCheckC (index : nat) (ij : nat * nat) (sol : Solution)
           (length : option (list F)) (mask : option (list bool))
                                            (* line 319 *)
| PcPublish (index : nat) (ij : nat * nat) (sol : Solution)
            (length : option (list F)) (mask : option (list bool))
                                            (* lines 322-329 *)
| PcRaised                                  (* lines 332-334 *)
| PcReturned                                (* the function returned *)
| PcCrashed.                                (* uncaught, before the [try] *)

Inductive LogRecord : Type :=
| LogInitializing
| LogInitialized (points alignments : nat)
| LogStarted (i j : nat)
| LogFinished (i j : nat)
| LogSimulationFinished
| LogException.

(** The Worker's own memory.  [w_args] is the copy of [args] the process
    received when it was spawned; [w_put] is the history of everything it
    put on the queue, with the task each result belongs to. *)
Record Worker : Type := {
  pc : Pc;
  w_args : Args;
  w_positioner : Positioner;
  w_manager : option (CollisionManager * list nat * list nat);
  w_order : list (nat * nat);
  w_log : list LogRecord;
  w_put : list (option (nat * nat) * QItem)
}.

Definition w_shape (w : Worker) : nat * nat * nat :=
  (shape0 (a_vectors (w_args w)), shape1 (a_vectors (w_args w)) / 3,
   shape2 (a_vectors (w_args w))).

Definition set_pc (w : Worker) (p : Pc) : Worker :=
  {| pc := p; w_args := w_args w; w_positioner := w_positioner w;
     w_manager := w_manager w; w_order := w_order w; w_log := w_log w;
     w_put := w_put w |}.

Definition add_log (w : Worker) (l : list LogRecord) : Worker :=
  {| pc := pc w; w_args := w_args w; w_positioner := w_positioner w;
     w_manager := w_manager w; w_order := w_order w;
     w_log := w_log w ++ l; w_put := w_put w |}.

Definition set_positioner (w : Worker) (p : Positioner) : Worker :=
  {| pc := pc w; w_args := w_args w; w_positioner := p;
     w_manager := w_manager w; w_order := w_order w; w_log := w_log w;
     w_put := w_put w |}.

Definition set_manager (w : Worker)
    (m : option (CollisionManager * list nat * list nat)) : Worker :=
  {| pc := pc w; w_args := w_args w; w_positioner := w_positioner w;
     w_manager := m; w_order := w_order w; w_log := w_log w;
     w_put := w_put w |}.

Definition set_order (w : Worker) (o : list (nat * nat)) : Worker :=
  {| pc := pc w; w_args := w_args w; w_positioner := w_positioner w;
     w_manager := w_manager w; w_order := o; w_log := w_log w;
     w_put := w_put w |}.

Definition record_put (w : Worker) (task : option (nat * nat)) (x : QItem)
  : Worker :=
  {| pc := pc w; w_args := w_args w; w_positioner := w_positioner w;
     w_manager := w_manager w; w_order := w_order w; w_log := w_log w;
     w_put := w_put w ++ [(task, x)] |}.

(** The process as spawned by [start]. *)
Definition spawn (args : Args) : Worker :=
  {| pc := PcInit; w_args := args; w_positioner := a_positioner args;
     w_manager := None; w_order := []; w_log := []; w_put := [] |}.

Definition terminated (w : Worker) : bool :=
  match pc w with
  | PcReturned | PcCrashed => true
  | _ => false
  end.

(** [compute_path_length and beam_in_gauge] *)
Definition wants_path_length (args : Args) : bool :=
  a_compute_path_length args && a_beam_in_gauge args.

(** [path_lengths[i, :, j] = length]: numpy stores the row when it has
    one entry per detector, repeats a single entry, and raises
    [ValueError] otherwise. *)
Definition store_row (detectors_count : nat) (length_row : list F)
  : res (list F) :=
  if length length_row =? detectors_count then Ok (f32 <$> length_row)
  else match length_row with
       | [x] => Ok (replicate detectors_count (f32 x))
       | _ => Raise ValueError
       end.

(** Lines 244-282: everything before the [try]. *)
Definition execute_init (sh : Shared) (w : Worker) : res Worker :=
  let args := w_args w in
  let w1 := add_log w [LogInitializing] in
  _ ← (if wants_path_length args then
         match path_lengths sh with
         | Some _ => Ok ()
         | None => Raise KeyError
         end
       else Ok ());
  mgr ← (if a_check_collision args then
           let manager := new_manager (a_scene_size args) in
           populated ← populate_collision_manager manager (a_sample args)
                         identity (a_instrument_scene args);
           Ok (Some populated)
         else Ok None);
  let order := task_order (a_align_first_order args) (w_shape w) in
  Ok (set_pc
        (add_log (set_order (set_manager w1 mgr) order)
                 [LogInitialized (w_shape w).1.1 (w_shape w).2])
        (PcTask 0)).

(** Lines 285-297: what the solver is called with, as
    [([point, measurement_vectors], [gauge_volume, q_vectors])]. *)
Definition solver_arguments (w : Worker) (ij : nat * nat)
  : res ((Vec3 F * list (Vec3 F)) * (Vec3 F * list (Vec3 F))) :=
  let args := w_args w in
  all_mvs ← reshape_groups (a_vectors args) ij.1 ij.2;
  '(q_vectors, measurement_vectors) ←
    select_targets (positioner_pose (w_positioner w)) (a_q_vectors args)
                   all_mvs;
  point ← index (a_points args) ij.1;
  Ok ((point, measurement_vectors), (a_gauge_volume args, q_vectors)).

(** Lines 285-297: selection of the targets and the solver call. *)
Definition execute_solve (w : Worker) (ij : nat * nat)
  : res (Positioner * Solution) :=
  '(target, constraint) ← solver_arguments w ij;
  ikine (w_positioner w) target constraint (a_ikine_kwargs (w_args w)).

(** Lines 304-309: the path length of the first sample mesh at [pose],
    stored in the shared buffer. *)
Definition execute_path_length (sh : Shared) (args : Args) (ij : nat * nat)
    (pose : Matrix F) : res (Shared * option (list F)) :=
  if wants_path_length args then
    first_mesh ← index (a_sample args) 0;
    let transformed_sample := mesh_transformed first_mesh pose in
    length_row ← path_length_calculation transformed_sample
                   (a_gauge_volume args) (a_beam_axis args)
                   (a_diff_axis args);
    buffer ← (match path_lengths sh with
              | Some b => Ok b
              | None => Raise KeyError
              end);
    row ← store_row (shape1 (a_vectors args) / 3) length_row;
    Ok (with_path_lengths sh (Some (<[ij := row]> buffer)), Some length_row)
  else Ok (sh, None).

(** Lines 302-309. *)
Definition execute_pose (sh : Shared) (w : Worker) (ij : nat * nat)
    (sol : Solution)
  : res (Shared * Positioner * Matrix F * option (list F)) :=
  '(positioner, fk) ← fkine (w_positioner w) sol.1.1;
  let pose := matmul44 fk (tool_link positioner) in
  '(sh', length_row) ← execute_path_length sh (w_args w) ij pose;
  Ok (sh', positioner, pose, length_row).

(** Lines 314-317. *)
Definition execute_collision (w : Worker) (pose : Matrix F)
  : res (option (CollisionManager * list nat * list nat)
         * option (list bool)) :=
  if a_check_collision (w_args w) then
    match w_manager w with
    | Some (manager, sample_ids, positioner_ids) =>
        manager' ← update_colliders manager pose sample_ids
                      (model_children (w_positioner w)) positioner_ids;
        Ok (Some (manager', sample_ids, positioner_ids),
            Some (collide manager'))
    | None => Raise KeyError
    end
  else Ok (w_manager w, None).

(** Lines 322-324: the result of a task. *)
Definition make_result (w : Worker) (index : nat) (ij : nat * nat)
    (sol : Solution) (length_row : option (list F))
    (mask : option (list bool)) : SimulationResult :=
  {| id := result_label index ij.1 ij.2 (w_shape w);
     q := sol.1.1;
     error := sol.1.2;
     code := sol.2;
     alignment := ij.2;
     joint_labels := link_names (w_positioner w);
     formatted := toUserFormat (w_positioner w) sol.1.1;
     path_length := length_row;
     collision_mask := mask |}.

(** Entering the [except Exception] branch. *)
Definition raised (w : Worker) : Worker :=
  set_pc (add_log w [LogException]) PcRaised.

(** Leaving the loop, by exhaustion or by [break]. *)
Definition returned (w : Worker) : Worker :=
  set_pc (add_log w [LogSimulationFinished]) PcReturned.

(** [if exit_event.is_set(): break] *)
Definition checkpoint (sh : Shared) (w : Worker) (next : Pc) : Worker :=
  if exit_event sh then returned w else set_pc w next.

(** One step of [execute]. *)
Definition execute_step (sh : Shared) (w : Worker) : Shared * Worker :=
  match pc w with
  | PcInit =>
      match execute_init sh w with
      | Ok w' => (sh, w')
      | Raise _ => (sh, set_pc (add_log w [LogInitializing]) PcCrashed)
      end
  | PcTask index =>
      match w_order w !! index with
      | None => (sh, returned w)
      | Some ij =>
          let w1 := add_log w [LogStarted ij.1 ij.2] in
          match execute_solve w ij with
          | Ok (positioner, sol) =>
              (sh, set_pc (set_positioner w1 positioner)
                          (PcCheckA index ij sol))
          | Raise _ => (sh, raised w1)
          end
      end
  | PcCheckA index ij sol => (sh, checkpoint sh w (PcPose index ij sol))
  | PcPose index ij sol =>
      match execute_pose sh w ij sol with
      | Ok (sh', positioner, pose, length_row) =>
          (sh', set_pc (set_positioner w positioner)
                       (PcCheckB index ij sol pose length_row))
      | Raise _ => (sh, raised w)
      end
  | PcCheckB index ij sol pose length_row =>
      (sh, checkpoint sh w (PcCollision index ij sol pose length_row))
  | PcCollision index ij sol pose length_row =>
      match execute_collision w pose with
      | Ok (manager, mask) =>
          (sh, set_pc (set_manager w manager)
                      (PcCheckC index ij sol length_row mask))
      | Raise _ => (sh, raised w)
      end
  | PcCheckC index ij sol length_row mask =>
      (sh, checkpoint sh w (PcPublish index ij sol length_row mask))
  | PcPublish index ij sol length_row mask =>
      let item := QResult (make_result w index ij sol length_row mask) in
      match put sh item with
      | Some sh' =>
          (sh', set_pc (add_log (record_put w (Some ij) item)
                                [LogFinished ij.1 ij.2])
                       (PcTask (index + 1)))
      | None => (sh, w)
      end
  | PcRaised =>
      match put sh (QString "Error") with
      | Some sh' =>
          (sh', set_pc (record_put w None (QString "Error")) PcReturned)
      | None => (sh, w)
      end
  | PcReturned | PcCrashed => (sh, w)
  end.

(** *** The Controller: [class Simulation] *)

(** [result_updated] counts the emissions of the signal; [blocked] is set
    when the Controller's thread is stuck in a blocking queue call. *)
Record Simulation : Type := {
  args : Args;
  shared : Shared;
  results : list QItem;
  process : option Worker;
  timer_active : bool;
  shape : nat * nat * nat;
  count : nat;
  detector_names : list string;
  result_updated : nat;
  blocked : bool
}.

(** [Simulation.__init__] *)
Definition Simulation_init (settings : Settings) (instrument : Instrument)
    (sample : list (string * Mesh)) (points : list (Vec3 F * bool))
    (vectors : ndarray3 F) (alignment : Matrix F) : res Simulation :=
  let ikine_kwargs :=
    {| local_max_eval := Local_Max_Eval settings;
       global_max_eval := Global_Max_Eval settings;
       tol := (Position_Stop_Val settings, Angular_Stop_Val settings);
       bounded := true |} in
  let enabled := snd <$> points in
  let points_enabled := fst <$> filter (fun p => p.2 = true) points in
  vectors_enabled ← take_rows vectors enabled;
  let shape' := (shape0 vectors_enabled, shape1 vectors_enabled / 3,
                 shape2 vectors_enabled) in
  let count' := shape0 vectors_enabled * shape2 vectors_enabled in
  let matrix := transpose alignment in
  let points' :=
    (fun p => vadd (row_mul p matrix) (row3 matrix 3)) <$> points_enabled in
  vectors' ← rotate_vectors matrix vectors_enabled;
  let sample' := (fun km => mesh_transformed km.2 alignment) <$> sample in
  let scene := instrument_node instrument in
  Ok {| args :=
          {| a_ikine_kwargs := ikine_kwargs;
             a_align_first_order := Align_First settings;
             a_positioner := positioning_stack instrument;
             a_points := points';
             a_vectors := vectors';
             a_sample := sample';
             a_beam_axis := beam_direction instrument;
             a_gauge_volume := gauge_volume instrument;
             a_q_vectors := q_vectors instrument;
             a_diff_axis := snd <$> detectors instrument;
             a_beam_in_gauge := beam_in_gauge_volume instrument;
             a_instrument_scene := scene;
             a_scene_size := length scene.1 + length sample';
             a_compute_path_length := false;
             a_render_graphics := false;
             a_check_collision := false |};
        shared :=
          {| queue := [];
             maxsize := count' + 1;
             exit_event := false;
             path_lengths := None |};
        results := [];
        process := None;
        timer_active := false;
        shape := shape';
        count := count';
        detector_names := fst <$> detectors instrument;
        result_updated := 0;
        blocked := false |}.

Definition with_args (s : Simulation) (a : Args) : Simulation :=
  {| args := a; shared := shared s; results := results s;
     process := process s; timer_active := timer_active s;
     shape := shape s; count := count s;
     detector_names := detector_names s;
     result_updated := result_updated s; blocked := blocked s |}.

Definition with_shared (s : Simulation) (sh : Shared) : Simulation :=
  {| args := args s; shared := sh; results := results s;
     process := process s; timer_active := timer_active s;
     shape := shape s; count := count s;
     detector_names := detector_names s;
     result_updated := result_updated s; blocked := blocked s |}.

Definition with_process (s : Simulation) (p : option Worker) : Simulation :=
  {| args := args s; shared := shared s; results := results s;
     process := p; timer_active := timer_active s;
     shape := shape s; count := count s;
     detector_names := detector_names s;
     result_updated := result_updated s; blocked := blocked s |}.

Definition with_timer (s : Simulation) (b : bool) : Simulation :=
  {| args := args s; shared := shared s; results := results s;
     process := process s; timer_active := b;
     shape := shape s; count := count s;
     detector_names := detector_names s;
     result_updated := result_updated s; blocked := blocked s |}.

Definition with_blocked (s : Simulation) : Simulation :=
  {| args := args s; shared := shared s; results := results s;
     process := process s; timer_active := timer_active s;
     shape := shape s; count := count s;
     detector_names := detector_names s;
     result_updated := result_updated s; blocked := true |}.

(** The effect of a completed drain: the results are appended and the
    signal is emitted once. *)
Definition deliver (s : Simulation) (got : list QItem) : Simulation :=
  {| args := args s; shared := shared s; results := results s ++ got;
     process := process s; timer_active := timer_active s;
     shape := shape s; count := count s;
     detector_names := detector_names s;
     result_updated := result_updated s + 1; blocked := blocked s |}.

(** The property setters. *)
Definition set_compute_path_length (s : Simulation) (value : bool)
  : Simulation :=
  let a := args s in
  let s' :=
    with_args s
      {| a_ikine_kwargs := a_ikine_kwargs a;
         a_align_first_order := a_align_first_order a;
         a_positioner := a_positioner a; a_points := a_points a;
         a_vectors := a_vectors a; a_sample := a_sample a;
         a_beam_axis := a_beam_axis a; a_gauge_volume := a_gauge_volume a;
         a_q_vectors := a_q_vectors a; a_diff_axis := a_diff_axis a;
         a_beam_in_gauge := a_beam_in_gauge a;
         a_instrument_scene := a_instrument_scene a;
         a_scene_size := a_scene_size a;
         a_compute_path_length := value;
         a_render_graphics := a_render_graphics a;
         a_check_collision := a_check_collision a |} in
  if value then with_shared s' (with_path_lengths (shared s') (Some ∅))
  else s'.

Definition set_check_collision (s : Simulation) (value : bool) : Simulation :=
  let a := args s in
  with_args s
    {| a_ikine_kwargs := a_ikine_kwargs a;
       a_align_first_order := a_align_first_order a;
       a_positioner := a_positioner a; a_points := a_points a;
       a_vectors := a_vectors a; a_sample := a_sample a;
       a_beam_axis := a_beam_axis a; a_gauge_volume := a_gauge_volume a;
       a_q_vectors := a_q_vectors a; a_diff_axis := a_diff_axis a;
       a_beam_in_gauge := a_beam_in_gauge a;
       a_instrument_scene := a_instrument_scene a;
       a_scene_size := a_scene_size a;
       a_compute_path_length := a_compute_path_length a;
       a_render_graphics := a_render_graphics a;
       a_check_collision := value |}.

Definition set_render_graphics (s : Simulation) (value : bool) : Simulation :=
  let a := args s in
  with_args s
    {| a_ikine_kwargs := a_ikine_kwargs a;
       a_align_first_order := a_align_first_order a;
       a_positioner := a_positioner a; a_points := a_points a;
       a_vectors := a_vectors a; a_sample := a_sample a;
       a_beam_axis := a_beam_axis a; a_gauge_volume := a_gauge_volume a;
       a_q_vectors := a_q_vectors a; a_diff_axis := a_diff_axis a;
       a_beam_in_gauge := a_beam_in_gauge a;
       a_instrument_scene := a_instrument_scene a;
       a_scene_size := a_scene_size a;
       a_compute_path_length := a_compute_path_length a;
       a_render_graphics := value;
       a_check_collision := a_check_collision a |}.

Definition set_check_limits (s : Simulation) (value : bool) : Simulation :=
  let a := args s in
  let k := a_ikine_kwargs a in
  with_args s
    {| a_ikine_kwargs :=
         {| local_max_eval := local_max_eval k;
            global_max_eval := global_max_eval k;
            tol := tol k; bounded := value |};
       a_align_first_order := a_align_first_order a;
       a_positioner := a_positioner a; a_points := a_points a;
       a_vectors := a_vectors a; a_sample := a_sample a;
       a_beam_axis := a_beam_axis a; a_gauge_volume := a_gauge_volume a;
       a_q_vectors := a_q_vectors a; a_diff_axis := a_diff_axis a;
       a_beam_in_gauge := a_beam_in_gauge a;
       a_instrument_scene := a_instrument_scene a;
       a_scene_size := a_scene_size a;
       a_compute_path_length := a_compute_path_length a;
       a_render_graphics := a_render_graphics a;
       a_check_collision := a_check_collision a |}.

(** [start()] *)
Definition start (s : Simulation) : Simulation :=
  with_timer (with_process s (Some (spawn (args s)))) true.

(** [self.process.is_alive()] *)
Definition is_alive (s : Simulation) : res bool :=
  match process s with
  | Some w => Ok (negb (terminated w))
  | None => Raise AttributeError
  end.

(** [CheckResult()] *)
Definition CheckResult (s : Simulation) : res Simulation :=
  match queue (shared s) with
  | [] => Ok s
  | _ :: _ =>
      alive ← is_alive s;
      let s1 := if alive : bool then s else with_timer s false in
      match put (shared s1) QNone with
      | None => Ok (with_blocked s1)
      | Some sh =>
          match drain (queue sh) with
          | None => Ok (with_blocked (with_shared s1 (with_queue sh [])))
          | Some (got, behind) =>
              Ok (deliver (with_shared s1 (with_queue sh behind)) got)
          end
      end
  end.

(** [isRunning()] *)
Definition isRunning (s : Simulation) : bool :=
  match process s with
  | None => false
  | Some w => negb (terminated w) && negb (exit_event (shared s))
  end.

(** [abort()] *)
Definition abort (s : Simulation) : Simulation :=
  with_timer (with_shared s (with_exit_event (shared s) true)) false.

(** The [path_lengths] property: the shared buffer seen as an array of
    the simulation's shape, [None] unless [compute_path_length] is set.  A
    cell that no task has written still holds the zero the buffer was
    created with. *)
Definition path_lengths_property (s : Simulation)
  : res (option (nat → nat → nat → F)) :=
  if a_compute_path_length (args s) then
    match path_lengths (shared s) with
    | Some b =>
        Ok (Some (fun i d j =>
                    default (f32 fzero) (row ← b !! (i, j); row !! d)))
    | None => Raise KeyError
    end
  else Ok None.

(** *** The two processes together

    A schedule lists, in order, whose turn it is: the Worker runs one
    stage, the timer fires [CheckResult], or the user calls [abort]. *)

Inductive Action : Type := WorkerStep | Poll | Abort.

Definition step (s : Simulation) (a : Action) : Simulation :=
  match a with
  | WorkerStep =>
      match process s with
      | Some w =>
          let '(sh, w') := execute_step (shared s) w in
          with_process (with_shared s sh) (Some w')
      | None => s
      end
  | Poll =>
      if timer_active s && negb (blocked s) then
        match CheckResult s with
        | Ok s' => s'
        | Raise _ => s
        end
      else s
  | Abort => if blocked s then s else abort s
  end.

Definition run (schedule : list Action) (s : Simulation) : Simulation :=
  foldl step s schedule.

End Simulation.

Arguments SimulationResult F : clear implicits.
Arguments QItem F : clear implicits.
Arguments Settings F : clear implicits.
Arguments Shared F : clear implicits.
Arguments Solution F : clear implicits.
Arguments Pc F : clear implicits.

(** ** A small executable instance

    Meshes and nodes are numbers, the positioner is a counter of the solver
    calls made so far, and the solver raises on a point whose first
    coordinate is 100 or more, which lets a run be faulted at a chosen
    task. *)

Module Toy.

Definition toy_ikine (p : nat) (target : Vec3 Q * list (Vec3 Q))
    (constraint : Vec3 Q * list (Vec3 Q)) (kw : IkineKwargs Q)
  : res (nat * (list Q * (Q * Vec3 Q) * Status)) :=
  if Qle_bool 100 target.1.1.1 then Raise ExternalError
  else Ok (S p, ([inject_Z (Z.of_nat (length target.2))],
                 (0%Q, (0%Q, 0%Q, 0%Q)), Converged)).

#[local] Instance toy_externals : Externals Q := {|
  Mesh := nat;
  Node := nat;
  Positioner := nat;
  mesh_transformed := fun m _ => m;
  node_transform := fun _ => identity;
  link_names := fun _ => ["X"%string];
  positioner_pose := fun _ => identity;
  tool_link := fun _ => identity;
  ikine := toy_ikine;
  fkine := fun p _ => Ok (p, identity);
  toUserFormat := fun _ r => r;
  model_children := fun _ => [7; 8];
  path_length_calculation :=
    fun m _ _ diff => Ok ((fun _ => inject_Z (Z.of_nat m)) <$> diff);
  positioner_attribute := "positioner";
  overlap := fun _ _ _ _ => true
|}.

Definition toy_settings (align_first : bool) : Settings Q := {|
  Local_Max_Eval := 10;
  Global_Max_Eval := 10;
  Position_Stop_Val := Qmake 1 100;
  Angular_Stop_Val := 1%Q;
  Align_First := align_first
|}.

Definition toy_instrument : Instrument := {|
  positioning_stack := 0;
  beam_direction := (1%Q, 0%Q, 0%Q);
  gauge_volume := (0%Q, 0%Q, 0%Q);
  q_vectors := [(1%Q, 0%Q, 0%Q); (0%Q, 1%Q, 0%Q)];
  detectors := [("North"%string, (0%Q, 1%Q, 0%Q));
                ("South"%string, (0%Q, (-1)%Q, 0%Q))];
  beam_in_gauge_volume := true;
  instrument_node := ([7; 8; 9], [("positioner"%string, 2);
                                  ("detector"%string, 3)])
|}.

(** [n] points by six components by [k] alignments; at every point the
    first direction group is the unit x vector and the second is zero. *)
Definition toy_vectors (n k : nat) : ndarray3 Q := {|
  shape0 := n;
  shape1 := 6;
  shape2 := k;
  at3 := fun _ c _ => if c =? 0 then 1%Q else 0%Q
|}.

Definition toy_point (x : Z) : Vec3 Q * bool := ((inject_Z x, 0%Q, 0%Q), true).

Definition toy_sample : list (string * nat) :=
  [("first"%string, 5); ("second"%string, 6)].

Definition three_points : list (Vec3 Q * bool) :=
  [toy_point 1; toy_point 2; toy_point 3].

(** The middle point makes the solver raise. *)
Definition faulty_points : list (Vec3 Q * bool) :=
  [toy_point 1; toy_point 200; toy_point 3].

(** The Worker as [start] spawns it for the three points. *)
Definition toy_worker : option Worker :=
  match Simulation_init (toy_settings true) toy_instrument toy_sample
          three_points (toy_vectors 3 1) identity with
  | Ok sim => process (start sim)
  | Raise _ => None
  end.

(** The second of three points is disabled. *)
Definition mixed_points : list (Vec3 Q * bool) :=
  [toy_point 1; ((inject_Z 2, 0%Q, 0%Q), false); toy_point 3].

(** Vectors whose second dimension is not a multiple of three. *)
Definition ragged_vectors : ndarray3 Q := {|
  shape0 := 3;
  shape1 := 4;
  shape2 := 1;
  at3 := fun _ c _ => if c =? 0 then 1%Q else 0%Q
|}.

(** A manager that holds two sample colliders and nothing else. *)
Definition two_colliders : CollisionManager :=
  addColliders (new_manager 2) [inl 5; inl 6] None ExcludeNothing true.

End Toy.

(** ** Vocabulary of the properties *)

Section Vocabulary.
Context {F : Type} `{!Float F} `{!Externals F}.

(** The calls a user makes between construction and [start]. *)
Inductive Setter : Type :=
| SetComputePathLength (value : bool)
| SetCheckCollision (value : bool)
| SetRenderGraphics (value : bool)
| SetCheckLimits (value : bool).

Definition apply_setter (s : Simulation) (x : Setter) : Simulation :=
  match x with
  | SetComputePathLength v => set_compute_path_length s v
  | SetCheckCollision v => set_check_collision s v
  | SetRenderGraphics v => set_render_graphics s v
  | SetCheckLimits v => set_check_limits s v
  end.

Definition configure (setters : list Setter) (s : Simulation) : Simulation :=
  foldl apply_setter s setters.

(** A simulation that was constructed and configured but not started. *)
Definition ready (s : Simulation) : Prop :=
  process s = None ∧ blocked s = false ∧ results s = [] ∧
  queue (shared s) = [] ∧ exit_event (shared s) = false ∧
  shape s = (shape0 (a_vectors (args s)), shape1 (a_vectors (args s)) / 3,
             shape2 (a_vectors (args s))) ∧
  count s = shape0 (a_vectors (args s)) * shape2 (a_vectors (args s)) ∧
  maxsize (shared s) = count s + 1 ∧
  (path_lengths (shared s) = None ∨ path_lengths (shared s) = Some ∅) ∧
  (a_compute_path_length (args s) = true → path_lengths (shared s) = Some ∅).

Definition is_worker_step (a : Action) : bool :=
  match a with WorkerStep => true | _ => false end.

Definition is_abort (a : Action) : bool :=
  match a with Abort => true | _ => false end.

Definition worker_steps (schedule : list Action) : nat :=
  length (filter (fun a => is_worker_step a = true) schedule).

Definition aborts (schedule : list Action) : bool := existsb is_abort schedule.

(** Everything the Worker ever put on the queue, oldest first. *)
Definition puts (s : Simulation) : list (option (nat * nat) * QItem F) :=
  match process s with
  | Some w => w_put w
  | None => []
  end.

Definition worker_log (s : Simulation) : list LogRecord :=
  match process s with
  | Some w => w_log w
  | None => []
  end.

Definition started_task (l : LogRecord) : option (nat * nat) :=
  match l with
  | LogStarted i j => Some (i, j)
  | _ => None
  end.

(** The tasks that have begun, in order. *)
Definition started_tasks (s : Simulation) : list (nat * nat) :=
  omap started_task (worker_log s).

Definition is_exception (l : LogRecord) : bool :=
  match l with LogException => true | _ => false end.



Definition worker_terminated (s : Simulation) : bool :=
  match process s with
  | Some w => terminated w
  | None => false
  end.

Definition worker_returned (s : Simulation) : bool :=
  match process s with
  | Some w => match pc w with PcReturned => true | _ => false end
  | None => false
  end.


(** The cells of the path-length buffer that were assigned. *)
Definition buffer (s : Simulation) : gmap (nat * nat) (list F) :=
  default ∅ (path_lengths (shared s)).


(** The path-length field of every item the Controller holds. *)
Definition result_path_length (x : QItem F) : option (option (list F)) :=
  match x with
  | QResult r => Some (path_length r)
  | _ => None
  end.

(** Two colliders of a manager, found by identifier, each list the other
    among its exclusions. *)
Definition mutually_excluded (m : CollisionManager) (a b : nat) : Prop :=
  ∃ ca cb, colliders m !! a = Some ca ∧ colliders m !! b = Some cb ∧
           cid ca = a ∧ cid cb = b ∧
           b ∈ excludes ca ∧ a ∈ excludes cb.

End Vocabulary.

(** ** Invariants of a run *)

Section Invariants.
Context {F : Type} `{!Float F} `{!Externals F}.

(** The number of tasks of the Worker's configuration. *)
Definition tasks_total (w : Worker) : nat := (w_shape w).1.1 * (w_shape w).2.

(** The Worker has put one result for each of the first [k] tasks, in
    order, and nothing else. *)
Definition puts_for (w : Worker) (k : nat) : Prop :=
  fst <$> w_put w = Some <$> take k (w_order w)
  ∧ Forall (fun x => is_result x.2 = true) (w_put w).

(** The same, followed by the marker of the exception handler. *)
Definition puts_faulted (w : Worker) (k : nat) : Prop :=
  ∃ before, w_put w = before ++ [(None, QString "Error")]
            ∧ fst <$> before = Some <$> take k (w_order w)
            ∧ Forall (fun x => is_result x.2 = true) before.

Definition pc_inv (sh : Shared F) (w : Worker) : Prop :=
  match pc w with
  | PcInit => w_put w = [] ∧ w_log w = []
  | PcTask i => puts_for w i ∧ i ≤ length (w_order w)
  | PcCheckA i ij _ | PcPose i ij _ | PcCheckB i ij _ _ _
  | PcCollision i ij _ _ _ | PcCheckC i ij _ _ _ | PcPublish i ij _ _ _ =>
      puts_for w i ∧ w_order w !! i = Some ij
  | PcRaised =>
      existsb is_exception (w_log w) = true
      ∧ ∃ i, puts_for w i ∧ i < length (w_order w)
  | PcReturned =>
      (∃ i, puts_for w i ∧ i ≤ length (w_order w)
            ∧ (i = length (w_order w) ∨ exit_event sh = true))
      ∨ (existsb is_exception (w_log w) = true
         ∧ ∃ i, puts_faulted w i ∧ i < length (w_order w))
  | PcCrashed => w_put w = []
  end.

Definition order_known (w : Worker) : Prop :=
  match pc w with
  | PcInit | PcCrashed => True
  | _ => w_order w = task_order (a_align_first_order (w_args w)) (w_shape w)
  end.

(** What holds in every state of a started simulation: the Controller is
    never stuck, the Worker runs the configuration it was spawned with,
    and the results the Controller holds followed by the queue are exactly
    what the Worker has put. *)
Definition Inv (s : Simulation) : Prop :=
  ∃ w, process s = Some w ∧ blocked s = false ∧ w_args w = args s
       ∧ count s = tasks_total w
       ∧ maxsize (shared s) = tasks_total w + 1
       ∧ results s ++ queue (shared s) = snd <$> w_put w
       ∧ Forall (fun x => is_none x.2 = false) (w_put w)
       ∧ length (w_put w) ≤ tasks_total w
       ∧ order_known w
       ∧ pc_inv (shared s) w.

(** The number of Worker steps still to run when nothing interrupts it. *)
Definition remaining (w : Worker) : nat :=
  match pc w with
  | PcInit => 7 * tasks_total w + 2
  | PcTask i => 7 * (tasks_total w - i) + 1
  | PcCheckA i _ _ => 7 * (tasks_total w - i)
  | PcPose i _ _ => 7 * (tasks_total w - i) - 1
  | PcCheckB i _ _ _ _ => 7 * (tasks_total w - i) - 2
  | PcCollision i _ _ _ _ => 7 * (tasks_total w - i) - 3
  | PcCheckC i _ _ _ _ => 7 * (tasks_total w - i) - 4
  | PcPublish i _ _ _ _ => 7 * (tasks_total w - i) - 5
  | PcRaised => 1
  | PcReturned | PcCrashed => 0
  end.

Definition steps_remaining (s : Simulation) : nat :=
  match process s with
  | Some w => remaining w
  | None => 0
  end.

(** Once the exit event is set: how many more tasks can begin, how many
    more results can be put, and how many more steps the Worker can take. *)
Definition starts_left (p : Pc F) : nat :=
  match p with
  | PcInit | PcTask _ | PcPublish _ _ _ _ _ => 1
  | _ => 0
  end.

Definition results_left (p : Pc F) : nat :=
  match p with
  | PcPublish _ _ _ _ _ => 1
  | _ => 0
  end.

Definition steps_left (p : Pc F) : nat :=
  match p with
  | PcInit | PcPublish _ _ _ _ _ => 3
  | PcTask _ | PcPose _ _ _ | PcCollision _ _ _ _ _ => 2
  | PcCheckA _ _ _ | PcCheckB _ _ _ _ _ | PcCheckC _ _ _ _ _ | PcRaised => 1
  | PcReturned | PcCrashed => 0
  end.

Definition result_puts (l : list (option (nat * nat) * QItem F)) : nat :=
  length (filter (fun x => is_result x.2 = true) l).

Definition worker_pc (s : Simulation) : Pc F :=
  match process s with
  | Some w => pc w
  | None => PcCrashed
  end.

(** Two states of the shared objects that differ at most in the path-length
    buffer. *)
Definition same_channel (sh sh' : Shared F) : Prop :=
  queue sh' = queue sh ∧ maxsize sh' = maxsize sh
  ∧ exit_event sh' = exit_event sh.

(** What one Worker step does to the queue: nothing, or one item appended,
    which needs a free slot and happens before the last task is done. *)
Definition put_effect (sh sh' : Shared F) (w w' : Worker) : Prop :=
  (queue sh' = queue sh ∧ w_put w' = w_put w)
  ∨ (∃ t x, is_none x = false ∧ length (queue sh) < maxsize sh
            ∧ queue sh' = queue sh ++ [x]
            ∧ w_put w' = w_put w ++ [(t, x)]
            ∧ length (w_put w) < length (w_order w)
            ∧ w_order w
              = task_order (a_align_first_order (w_args w)) (w_shape w)).

Definition same_shape (a a' : ndarray3 F) : Prop :=
  shape0 a' = shape0 a ∧ shape1 a' = shape1 a ∧ shape2 a' = shape2 a.

(** The path length a task carries after stage 5 agrees with the flags:
    with both flags set it is present and its cell was assigned, otherwise
    it is absent. *)
Definition length_ok (args : Args) (buf : gmap (nat * nat) (list F))
    (ij : nat * nat) (len : option (list F)) : Prop :=
  if wants_path_length args then is_Some len ∧ is_Some (buf !! ij)
  else len = None.

Definition pc_length (p : Pc F) : option ((nat * nat) * option (list F)) :=
  match p with
  | PcCheckB _ ij _ _ len | PcCollision _ ij _ _ len
  | PcCheckC _ ij _ len _ | PcPublish _ ij _ len _ => Some (ij, len)
  | _ => None
  end.

Definition InvPath (s : Simulation) : Prop :=
  ∃ w, process s = Some w
       ∧ (wants_path_length (w_args w) = false → buffer s = ∅)
       ∧ (∀ ij r, (Some ij, QResult r) ∈ w_put w →
                  length_ok (w_args w) (buffer s) ij (path_length r))
       ∧ (∀ ij len, pc_length (pc w) = Some (ij, len) →
                    length_ok (w_args w) (buffer s) ij len).

(** Identifiers are positions in [manager.colliders]. *)
Definition ids_positional (cs : list Collider) : Prop :=
  ∀ p c, cs !! p = Some c → cid c = p.

(** [cs'] has the colliders of [cs] at the same positions, with the same
    identifiers, and no exclusion removed. *)
Definition grows (cs cs' : list Collider) : Prop :=
  ∀ p c, cs !! p = Some c →
         ∃ c', cs' !! p = Some c' ∧ cid c' = cid c
               ∧ excludes c ⊆ excludes c'.

(** Every sample collider and the last positioner-link collider exclude
    each other. *)
Definition tool_excluded (m : CollisionManager)
    (sample_ids positioner_ids : list nat) : Prop :=
  ∀ t, last positioner_ids = Some t →
       ∀ a, a ∈ sample_ids → mutually_excluded m a t.

(** The loop invariant of [populate_collision_manager]. *)
Definition populate_inv (n_sample : nat)
    (st : CollisionManager * list nat * nat) : Prop :=
  ids_positional (colliders st.1.1)
  ∧ n_sample ≤ length (colliders st.1.1)
  ∧ (∀ t, t ∈ st.1.2 → t < length (colliders st.1.1))
  ∧ (∀ t, last st.1.2 = Some t →
          ∀ a, a < n_sample → mutually_excluded st.1.1 a t).

Definition pc_mask (p : Pc F) : option (option (list bool)) :=
  match p with
  | PcCheckC _ _ _ _ mask | PcPublish _ _ _ _ mask => Some mask
  | _ => None
  end.

(** A collision mask agrees with the flag: without collision checking
    there is none; with it the mask is what [collide] returned on a state
    of the Worker's manager with as many colliders as the manager has now
    and with every sample collider and the tool excluding each other. *)
Definition mask_ok (w : Worker) (mask : option (list bool)) : Prop :=
  if a_check_collision (w_args w) then
    ∃ m sids pids m',
      w_manager w = Some (m, sids, pids)
      ∧ mask = Some (collide m')
      ∧ length (colliders m') = length (colliders m)
      ∧ tool_excluded m' sids pids
  else mask = None.

Definition InvColl (s : Simulation) : Prop :=
  ∃ w, process s = Some w
       ∧ match w_manager w with
         | Some (m, sids, pids) =>
             tool_excluded m sids pids
             ∧ sids = seq 0 (length (a_sample (w_args w)))
         | None => True
         end
       ∧ (∀ ij r, (Some ij, QResult r) ∈ w_put w →
                  mask_ok w (collision_mask r))
       ∧ (∀ mask, pc_mask (pc w) = Some mask → mask_ok w mask)
       ∧ match pc w with
         | PcInit | PcCrashed => True
         | _ => a_check_collision (w_args w) = true → is_Some (w_manager w)
         end.

(** The collision manager the Worker holds, with the identifiers it got
    from [populate_collision_manager]. *)
Definition collision_manager (s : Simulation)
  : option (CollisionManager * list nat * list nat) :=
  w ← process s; w_manager w.

(** The joint offsets and the path length a task carries after stage 5. *)
Definition pc_measure (p : Pc F) : option (list F * option (list F)) :=
  match p with
  | PcCheckB _ _ sol _ len | PcCollision _ _ sol _ len
  | PcCheckC _ _ sol len _ | PcPublish _ _ sol len _ => Some (sol.1.1, len)
  | _ => None
  end.

(** The path length a task carries after stage 5 agrees with the flags
    and with the first sample mesh: with both flags set it is what
    [path_length_calculation] returned for the first mesh of the sample
    list transformed by the pose of the joint offsets [joints] (the
    forward kinematics of some state of the positioner times its tool
    link); otherwise it is absent. *)
Definition measured (args : Args) (joints : list F) (len : option (list F))
  : Prop :=
  if wants_path_length args then
    ∃ first p p' fk l,
      a_sample args !! 0 = Some first
      ∧ fkine p joints = Ok (p', fk)
      ∧ path_length_calculation
          (mesh_transformed first (matmul44 fk (tool_link p')))
          (a_gauge_volume args) (a_beam_axis args) (a_diff_axis args)
        = Ok l
      ∧ len = Some l
  else len = None.

Definition measure_inv (w : Worker) : Prop :=
  (∀ k r, (k, QResult r) ∈ w_put w →
          measured (w_args w) (q r) (path_length r))
  ∧ (∀ joints len, pc_measure (pc w) = Some (joints, len) →
                   measured (w_args w) joints len).

(** [l] is what [path_length_calculation] returns for [mesh] transformed
    by the alignment matrix, as at construction (lines 161-163), and then
    by the pose of the joint offsets [joints] (lines 302 and 306-307),
    with the gauge volume, the beam direction and the diffracted beams of
    the instrument. *)
Definition first_mesh_length (instrument : Instrument) (mesh : Mesh)
    (alignment : Matrix F) (joints : list F) (l : list F) : Prop :=
  ∃ p p' fk,
    fkine p joints = Ok (p', fk)
    ∧ path_length_calculation
        (mesh_transformed (mesh_transformed mesh alignment)
           (matmul44 fk (tool_link p')))
        (gauge_volume instrument) (beam_direction instrument)
        (snd <$> detectors instrument)
      = Ok l.

(** The path length of a result agrees with the flags [wants] and with
    the first mesh. *)
Definition measures_first_mesh (instrument : Instrument) (mesh : Mesh)
    (alignment : Matrix F) (wants : bool) (r : SimulationResult F) : Prop :=
  if wants then
    ∃ l, path_length r = Some l
         ∧ first_mesh_length instrument mesh alignment (q r) l
  else path_length r = None.

(** One iteration of the inner loop of [populate_collision_manager]. *)
Definition exclude_body (last_id last_pos : nat) (cs : list Collider)
    (idx : nat) : list Collider :=
  alter (set_exclude idx) last_pos (alter (set_exclude last_id) idx cs).

(** *** Forgetting everything but the first sample mesh

    [erase] keeps of a state what a run without collision checking on the
    first sample mesh alone would hold: the other meshes, the scene size,
    the collision manager and the collision masks are dropped. *)

Definition erase_result (r : SimulationResult F) : SimulationResult F :=
  {| id := id r; q := q r; error := error r; code := code r;
     alignment := alignment r; joint_labels := joint_labels r;
     formatted := formatted r; path_length := path_length r;
     collision_mask := None |}.

Definition erase_item (x : QItem F) : QItem F :=
  match x with
  | QResult r => QResult (erase_result r)
  | _ => x
  end.

Definition erase_pc (p : Pc F) : Pc F :=
  match p with
  | PcCheckC i ij sol len _ => PcCheckC i ij sol len None
  | PcPublish i ij sol len _ => PcPublish i ij sol len None
  | _ => p
  end.

Definition erase_args (a : Args) : Args :=
  {| a_ikine_kwargs := a_ikine_kwargs a;
     a_align_first_order := a_align_first_order a;
     a_positioner := a_positioner a; a_points := a_points a;
     a_vectors := a_vectors a; a_sample := take 1 (a_sample a);
     a_beam_axis := a_beam_axis a; a_gauge_volume := a_gauge_volume a;
     a_q_vectors := a_q_vectors a; a_diff_axis := a_diff_axis a;
     a_beam_in_gauge := a_beam_in_gauge a;
     a_instrument_scene := a_instrument_scene a;
     a_scene_size := 0;
     a_compute_path_length := a_compute_path_length a;
     a_render_graphics := a_render_graphics a;
     a_check_collision := false |}.

Definition erase_put (x : option (nat * nat) * QItem F)
  : option (nat * nat) * QItem F := (x.1, erase_item x.2).

Definition erase_worker (w : Worker) : Worker :=
  {| pc := erase_pc (pc w); w_args := erase_args (w_args w);
     w_positioner := w_positioner w; w_manager := None;
     w_order := w_order w; w_log := w_log w;
     w_put := erase_put <$> w_put w |}.

Definition erase_shared (sh : Shared F) : Shared F :=
  with_queue sh (erase_item <$> queue sh).

Definition erase (s : Simulation) : Simulation :=
  {| args := erase_args (args s); shared := erase_shared (shared s);
     results := erase_item <$> results s;
     process := erase_worker <$> process s;
     timer_active := timer_active s; shape := shape s; count := count s;
     detector_names := detector_names s;
     result_updated := result_updated s; blocked := blocked s |}.

(** What makes the collision stages of a Worker total: there is a sample
    mesh, and the identifiers handed to [update_colliders] are in range. *)
Definition collision_ready (w : Worker) : Prop :=
  a_sample (w_args w) ≠ []
  ∧ match w_manager w with
    | Some (m, sids, pids) =>
        ∀ t, t ∈ sids ∨ t ∈ pids → t < length (colliders m)
    | None =>
        a_check_collision (w_args w) = false
        ∨ pc w = PcInit ∨ pc w = PcCrashed
    end.

Definition InvErase (s : Simulation) : Prop :=
  ∃ w, process s = Some w ∧ collision_ready w.

(** The task and the path-length field of an item the Worker put. *)
Definition put_path_length (x : option (nat * nat) * QItem F)
  : option (nat * nat) * option (option (list F)) :=
  (x.1, result_path_length x.2).

(** Only the exception handler logs an exception, and a Worker that
    returned after one has put the marker last. *)
Definition fault_inv (w : Worker) : Prop :=
  match pc w with
  | PcRaised => True
  | PcReturned =>
      existsb is_exception (w_log w) = true →
      last (w_put w) = Some (None, QString "Error")
  | _ => existsb is_exception (w_log w) = false
  end.

(** What the shared buffer holds: every assigned cell belongs to a task
    of the run and has one entry per direction group, and a path length
    that a task carries or has published is what its cell holds. *)
Definition cells_ok (args : Args) (b : gmap (nat * nat) (list F)) : Prop :=
  ∀ ij row, b !! ij = Some row →
    length row = shape1 (a_vectors args) / 3
    ∧ ij ∈ task_order (a_align_first_order args)
                      (shape0 (a_vectors args), shape1 (a_vectors args) / 3,
                       shape2 (a_vectors args)).

Definition stored (args : Args) (b : gmap (nat * nat) (list F))
    (ij : nat * nat) (len : option (list F)) : Prop :=
  ∀ l, len = Some l →
       ∃ row, b !! ij = Some row
              ∧ store_row (shape1 (a_vectors args) / 3) l = Ok row.

Definition buffer_inv (pl : option (gmap (nat * nat) (list F)))
    (w : Worker) : Prop :=
  (a_compute_path_length (w_args w) = true → is_Some pl)
  ∧ cells_ok (w_args w) (default ∅ pl)
  ∧ (∀ ij r, (Some ij, QResult r) ∈ w_put w →
             stored (w_args w) (default ∅ pl) ij (path_length r))
  ∧ (∀ ij len, pc_length (pc w) = Some (ij, len) →
               stored (w_args w) (default ∅ pl) ij len)
  ∧ (pc w = PcCrashed →
     a_check_collision (w_args w) = true
     ∧ w_log w = [LogInitializing]).

(** The entry [(i, c, k)] of an array whose groups of three columns were
    each multiplied by the upper-left block of [m]. *)
Definition rotated_entry (m : Matrix F) (a : ndarray3 F) (i c k : nat) : F :=
  component (row_mul (group_at a i (3 * (c / 3)) k) m) (c mod 3).

(** [cs'] is [cs] with new placements for the colliders at the positions
    [ids] at most: nothing else about any collider has changed. *)
Definition replaced (ids : list nat) (cs cs' : list Collider) : Prop :=
  length cs' = length cs
  ∧ ∀ p c, cs !! p = Some c →
           ∃ c', cs' !! p = Some c' ∧ cid c' = cid c
                 ∧ excludes c' = excludes c ∧ geometry c' = geometry c
                 ∧ movable c' = movable c
                 ∧ (p ∉ ids → placement c' = placement c).

End Invariants.

Ltac checkpoint_case i Hputs Hij Hexit :=
  unfold checkpoint;
  match goal with |- context [exit_event ?sh] =>
    destruct (exit_event sh) eqn:Hexit end;
  simpl; repeat split; auto; try apply Hputs;
  left; exists i; apply lookup_lt_Some in Hij;
  repeat split; try apply Hputs; auto; lia.


Section Proofs.
Context {F : Type} `{!Float F} `{!Externals F}.

Lemma bind_Ok {A B} (m : res A) (f : A → res B) (b : B) :
  m ≫= f = Ok b ↔ ∃ a, m = Ok a ∧ f a = Ok b.
Proof.
  destruct m as [a|e]; simpl.
  - split; [eauto | intros (a' & [= <-] & ?); done].
  - split; [done | intros (a' & [=] & _)].
Qed.

Lemma bind_singleton {A B} (f : A → B) (l : list A) :
  (l ≫= fun x => [f x]) = f <$> l.
Proof. induction l as [|x l IH]; [done|]. rewrite bind_cons, IH. done. Qed.

Lemma row_enumeration (k a : nat) :
  (seq 0 k ≫= fun j => [(a, j)])
  = (fun t => (t / k, t mod k)) <$> seq (a * k) k.
Proof.
  destruct k as [|k']; [done|].
  set (k := S k').
  rewrite bind_singleton.
  replace (seq (a * k) k) with (Nat.add (a * k) <$> seq 0 k).
  2:{ rewrite fmap_add_seq. f_equal. lia. }
  rewrite <- list_fmap_compose.
  apply list_fmap_ext. intros i j Hj. unfold compose.
  apply lookup_seq in Hj as [-> Hi]. rewrite Nat.add_0_l.
  assert (Hq : (a * k + i) / k = a).
  { symmetry. apply (Nat.div_unique _ _ _ i); lia. }
  assert (Hr : (a * k + i) mod k = i).
  { symmetry. apply (Nat.mod_unique _ _ a); lia. }
  by rewrite Hq, Hr.
Qed.

Lemma point_major (k n a : nat) :
  (seq a n ≫= fun i => seq 0 k ≫= fun j => [(i, j)])
  = (fun t => (t / k, t mod k)) <$> seq (a * k) (n * k).
Proof.
  revert a. induction n as [|n IH]; intros a; [done|].
  simpl seq. rewrite bind_cons, row_enumeration, IH.
  replace (S n * k) with (k + n * k) by lia.
  rewrite seq_app, fmap_app. do 3 f_equal. lia.
Qed.

Lemma column_enumeration (n b : nat) :
  (seq 0 n ≫= fun i => [(i, b)])
  = (fun t => (t mod n, t / n)) <$> seq (b * n) n.
Proof.
  destruct n as [|n']; [done|].
  set (n := S n').
  rewrite bind_singleton.
  replace (seq (b * n) n) with (Nat.add (b * n) <$> seq 0 n).
  2:{ rewrite fmap_add_seq. f_equal. lia. }
  rewrite <- list_fmap_compose.
  apply list_fmap_ext. intros i j Hj. unfold compose.
  apply lookup_seq in Hj as [-> Hi]. rewrite Nat.add_0_l.
  assert (Hq : (b * n + i) / n = b).
  { symmetry. apply (Nat.div_unique _ _ _ i); lia. }
  assert (Hr : (b * n + i) mod n = i).
  { symmetry. apply (Nat.mod_unique _ _ b); lia. }
  by rewrite Hq, Hr.
Qed.

Lemma alignment_major (n k b : nat) :
  (seq b k ≫= fun j => seq 0 n ≫= fun i => [(i, j)])
  = (fun t => (t mod n, t / n)) <$> seq (b * n) (k * n).
Proof.
  revert b. induction k as [|k IH]; intros b; [done|].
  simpl seq. rewrite bind_cons, column_enumeration, IH.
  replace (S k * n) with (n + k * n) by lia.
  rewrite seq_app, fmap_app. do 3 f_equal. lia.
Qed.

Lemma task_order_length (b : bool) (shape : nat * nat * nat) :
  length (task_order b shape) = shape.1.1 * shape.2.
Proof.
  destruct shape as [[n m] k]. unfold task_order. simpl.
  destruct b.
  - rewrite (point_major k n 0). rewrite length_fmap, length_seq. done.
  - rewrite (alignment_major n k 0). rewrite length_fmap, length_seq. lia.
Qed.

(** C2, as the code has it: with [align_first_order] the tasks are
    enumerated point by point, task [t] being point [t / K] in alignment
    [t mod K]; without it alignment by alignment, task [t] being point
    [t mod N] in alignment [t / N]. For two points and two alignments the
    first order is [(0,0),(0,1),(1,0),(1,1)] and the second is
    [(0,0),(1,0),(0,1),(1,1)]. *)
Theorem C2_task_order (n m k : nat) :
  task_order true (n, m, k) = (fun t => (t / k, t mod k)) <$> seq 0 (n * k)
  ∧ task_order false (n, m, k) = (fun t => (t mod n, t / n)) <$> seq 0 (n * k)
  ∧ task_order true (2, m, 2) = [(0, 0); (0, 1); (1, 0); (1, 1)]
  ∧ task_order false (2, m, 2) = [(0, 0); (1, 0); (0, 1); (1, 1)].
Proof.
  repeat split; try done.
  - apply (point_major k n 0).
  - unfold task_order. simpl. rewrite (alignment_major n k 0).
    do 2 f_equal. lia.
Qed.

(** *** Target selection *)

Lemma elem_of_where_active (mvs : list (Vec3 F)) (from g : nat) :
  g ∈ where_active mvs from
  ↔ ∃ v, from ≤ g ∧ mvs !! (g - from) = Some v ∧ fgt (norm3 v) epsilon = true.
Proof.
  revert from. induction mvs as [|v mvs IH]; intros from; simpl.
  - split; [by intros ?%elem_of_nil | by intros (? & _ & ? & _)].
  - assert (Htail : g ∈ where_active mvs (S from)
                    ↔ ∃ v', from ≤ g ∧ g ≠ from
                             ∧ mvs !! (g - S from) = Some v'
                             ∧ fgt (norm3 v') epsilon = true).
    { rewrite IH. split.
      - intros (v' & ? & ? & ?). exists v'. repeat split; auto; lia.
      - intros (v' & ? & ? & ? & ?). exists v'. repeat split; auto; lia. }
    destruct (fgt (norm3 v) epsilon) eqn:Hv.
    + rewrite elem_of_cons, Htail. split.
      * intros [-> | (v' & ? & ? & Hl & ?)].
        -- exists v. rewrite Nat.sub_diag. auto.
        -- exists v'. repeat split; auto.
           replace (g - from) with (S (g - S from)) by lia. done.
      * intros (v' & ? & Hl & ?).
        destruct (decide (g = from)) as [->|Hne]; [by left|right].
        exists v'. repeat split; auto.
        replace (g - from) with (S (g - S from)) in Hl by lia. done.
    + rewrite Htail. split.
      * intros (v' & ? & ? & Hl & ?). exists v'. repeat split; auto.
        replace (g - from) with (S (g - S from)) by lia. done.
      * intros (v' & ? & Hl & Hgt).
        destruct (decide (g = from)) as [->|Hne].
        { rewrite Nat.sub_diag in Hl. simpl in Hl. congruence. }
        exists v'. repeat split; auto.
        replace (g - from) with (S (g - S from)) in Hl by lia. done.
Qed.

Lemma where_active_none (mvs : list (Vec3 F)) (from : nat) :
  Forall (fun v => fgt (norm3 v) epsilon = false) mvs →
  where_active mvs from = [].
Proof.
  intros Hall. revert from.
  induction Hall as [|v mvs Hv _ IH]; intros from; simpl; [done|].
  by rewrite Hv.
Qed.

Lemma fancy_index_Ok {A} (l : list A) (selected : list nat) (xs : list A) :
  fancy_index l selected = Ok xs →
  Forall2 (fun g x => l !! g = Some x) selected xs.
Proof.
  revert xs. induction selected as [|g selected IH]; intros xs; simpl.
  - intros [= <-]. constructor.
  - intros (x & Hx & (xs' & Hxs & [= <-])%bind_Ok)%bind_Ok.
    constructor; [|by apply IH].
    unfold index in Hx. by destruct (l !! g); simplify_eq.
Qed.

Lemma select_targets_active pose (q_vec all_mvs qs mvs : list (Vec3 F)) :
  where_active all_mvs 0 ≠ [] →
  select_targets pose q_vec all_mvs = Ok (qs, mvs) →
  Forall2 (fun g v => all_mvs !! g = Some v) (where_active all_mvs 0) mvs
  ∧ Forall2 (fun g v => q_vec !! g = Some v) (where_active all_mvs 0) qs.
Proof.
  intros Hne. unfold select_targets.
  rewrite bool_decide_eq_false_2.
  2:{ destruct (where_active all_mvs 0); [done | simpl; lia]. }
  intros (qs' & Hq & (mvs' & Hm & [= <- <-])%bind_Ok)%bind_Ok.
  split; by apply fancy_index_Ok.
Qed.

(** C5: a direction group whose norm is at most the epsilon is not among
    the indices selected for the solver, the targets of a task with an
    active group are exactly the selected groups, and a task whose groups
    are all inactive calls the solver with the single fallback target, the
    first q-vector taken into the positioner's frame. *)
Theorem C5_target_selection (w : Worker) (ij : nat * nat)
    (all_mvs : list (Vec3 F)) (point q0 : Vec3 F) :
  reshape_groups (a_vectors (w_args w)) ij.1 ij.2 = Ok all_mvs →
  a_points (w_args w) !! ij.1 = Some point →
  a_q_vectors (w_args w) !! 0 = Some q0 →
  (∀ g v, all_mvs !! g = Some v → fle (norm3 v) epsilon = true →
          g ∉ where_active all_mvs 0)
  ∧ (∀ target constraint,
       where_active all_mvs 0 ≠ [] →
       solver_arguments w ij = Ok (target, constraint) →
       Forall2 (fun g v => all_mvs !! g = Some v)
               (where_active all_mvs 0) target.2)
  ∧ (Forall (fun v => fle (norm3 v) epsilon = true) all_mvs →
     solver_arguments w ij
     = Ok ((point,
            [mat_mul_vec (transpose (positioner_pose (w_positioner w))) q0]),
           (a_gauge_volume (w_args w), [q0]))).
Proof.
  intros Hgroups Hpoint Hq0. split; [|split].
  - intros g v Hg Hle (v' & _ & Hg' & Hgt)%elem_of_where_active.
    rewrite Nat.sub_0_r in Hg'. simplify_eq.
    apply fle_not_fgt in Hle. congruence.
  - intros target constraint Hne. unfold solver_arguments.
    rewrite Hgroups. simpl.
    intros ([qs mvs] & Hsel & Hrest)%bind_Ok.
    apply bind_Ok in Hrest as (p & _ & [= <- _]). simpl.
    by apply (select_targets_active _ _ _ _ _ Hne Hsel).
  - intros Hall. unfold solver_arguments. rewrite Hgroups. simpl.
    unfold select_targets. rewrite where_active_none.
    2:{ eapply Forall_impl; [exact Hall|]. intros v. apply fle_not_fgt. }
    simpl. unfold index. rewrite Hq0. simpl. by rewrite Hpoint.
Qed.

(** *** The constructor *)




(** *** Frame properties of one Worker step *)

Lemma for_each_invariant {A S} (P : S → Prop) (xs : list A)
    (body : S → A → res S) (acc r : S) :
  (∀ s x s', P s → body s x = Ok s' → P s') →
  P acc → for_each xs body acc = Ok r → P r.
Proof.
  intros Hbody. revert acc.
  induction xs as [|x xs IH]; intros acc Hacc; simpl.
  - by intros [= <-].
  - intros (acc' & Hx & Hrest)%bind_Ok. eauto.
Qed.

Lemma put_Some (sh sh' : Shared F) (x : QItem F) :
  put sh x = Some sh' →
  length (queue sh) < maxsize sh ∧ sh' = with_queue sh (queue sh ++ [x]).
Proof.
  unfold put. destruct (Nat.ltb_spec (length (queue sh)) (maxsize sh));
    intros; by simplify_eq.
Qed.

Lemma put_free (sh : Shared F) (x : QItem F) :
  length (queue sh) < maxsize sh →
  put sh x = Some (with_queue sh (queue sh ++ [x])).
Proof.
  intros Hlt. unfold put.
  by destruct (Nat.ltb_spec (length (queue sh)) (maxsize sh)); [|lia].
Qed.

Lemma execute_path_length_channel sh args ij pose sh' len :
  execute_path_length sh args ij pose = Ok (sh', len) → same_channel sh sh'.
Proof.
  unfold execute_path_length. destruct (wants_path_length args).
  - intros (m & _ & (l & _ & (b & _ & (r & _ & [= <- _])%bind_Ok)%bind_Ok)
                     %bind_Ok)%bind_Ok. done.
  - by intros [= <- _].
Qed.

Lemma execute_pose_channel sh w ij sol sh' p pose len :
  execute_pose sh w ij sol = Ok (sh', p, pose, len) → same_channel sh sh'.
Proof.
  unfold execute_pose.
  intros ([p' fk] & _ & ([sh1 l1] & Hpl & [= <- _ _ _])%bind_Ok)%bind_Ok.
  by eapply execute_path_length_channel.
Qed.


Lemma execute_init_Ok (sh : Shared F) (w w' : Worker) :
  execute_init sh w = Ok w' →
  ∃ mgr,
    w' = set_pc
           (add_log
              (set_order (set_manager (add_log w [LogInitializing]) mgr)
                 (task_order (a_align_first_order (w_args w)) (w_shape w)))
              [LogInitialized (w_shape w).1.1 (w_shape w).2])
           (PcTask 0)
    ∧ (wants_path_length (w_args w) = true → is_Some (path_lengths sh))
    ∧ (if a_check_collision (w_args w) then
         ∃ populated,
           populate_collision_manager (new_manager (a_scene_size (w_args w)))
             (a_sample (w_args w)) identity (a_instrument_scene (w_args w))
           = Ok populated ∧ mgr = Some populated
       else mgr = None).
Proof.
  unfold execute_init.
  intros (u & Hbuf & (mgr & Hmgr & [= <-])%bind_Ok)%bind_Ok.
  exists mgr. split; [done|]. split.
  - intros Hw. rewrite Hw in Hbuf. by destruct (path_lengths sh).
  - destruct (a_check_collision (w_args w)).
    + apply bind_Ok in Hmgr as (populated & Hpop & [= <-]). eauto.
    + by injection Hmgr.
Qed.

Lemma puts_for_length (w : Worker) (k : nat) :
  puts_for w k → k ≤ length (w_order w) → length (w_put w) = k.
Proof.
  intros [Hfst _] Hk.
  rewrite <- (length_fmap fst), Hfst, length_fmap, length_take. lia.
Qed.

Lemma puts_for_snoc (w : Worker) (k : nat) (ij : nat * nat)
    (r : SimulationResult F) (put' : list (option (nat * nat) * QItem F)) :
  puts_for w k → w_order w !! k = Some ij →
  put' = w_put w ++ [(Some ij, QResult r)] →
  fst <$> put' = Some <$> take (k + 1) (w_order w)
  ∧ Forall (fun x => is_result x.2 = true) put'.
Proof.
  intros [Hfst Hall] Hk ->. split.
  - rewrite fmap_app, Hfst. replace (k + 1) with (S k) by lia.
    rewrite (take_S_r _ _ _ Hk), fmap_app. done.
  - apply Forall_app. split; [done|]. by constructor.
Qed.

Lemma exception_logged (l : list LogRecord) :
  existsb is_exception (l ++ [LogException]) = true.
Proof. rewrite existsb_app. simpl. by rewrite orb_true_r. Qed.

Lemma execute_step_inv (sh sh' : Shared F) (w w' : Worker) :
  execute_step sh w = (sh', w') →
  order_known w → pc_inv sh w →
  w_args w' = w_args w ∧ maxsize sh' = maxsize sh
  ∧ exit_event sh' = exit_event sh
  ∧ order_known w' ∧ pc_inv sh' w' ∧ put_effect sh sh' w w'.
Proof.
  unfold execute_step, order_known, pc_inv, put_effect.
  destruct (pc w) as [|i|i ij sol|i ij sol|i ij sol pose len
                      |i ij sol pose len|i ij sol len mask
                      |i ij sol len mask| | |] eqn:Epc.
  - (* PcInit *)
    destruct (execute_init sh w) as [w1|e] eqn:Hinit.
    + apply execute_init_Ok in Hinit as (mgr & -> & _).
      intros [= <- <-] _ [Hput _]. unfold puts_for. simpl.
      rewrite Hput. repeat split; auto. lia.
    + intros [= <- <-] _ [Hput _]. simpl. repeat split; auto.
  - (* PcTask *)
    intros Hstep Horder [Hputs Hi].
    destruct (w_order w !! i) as [ij|] eqn:Hij.
    + destruct (execute_solve w ij) as [[p sol]|e] eqn:Hsolve;
        injection Hstep as <- <-; simpl; repeat split; auto;
        try apply Hputs.
      * apply exception_logged.
      * exists i. split; [done|]. by apply lookup_lt_Some in Hij.
    + injection Hstep as <- <-. simpl. repeat split; auto.
      left. exists i. apply lookup_ge_None in Hij.
      repeat split; try apply Hputs; auto. left. lia.
  - (* PcCheckA *)
    intros [= <- <-] Horder [Hputs Hij].
    checkpoint_case i Hputs Hij Hexit.
  - (* PcPose *)
    intros Hstep Horder [Hputs Hij].
    destruct (execute_pose sh w ij sol) as [[[[sh1 p] pose] len]|e] eqn:Hpose;
      injection Hstep as <- <-; simpl.
    + apply execute_pose_channel in Hpose as (Hq & Hm & He).
      repeat split; auto; apply Hputs.
    + repeat split; auto.
      * apply exception_logged.
      * exists i. split; [done|]. by apply lookup_lt_Some in Hij.
  - (* PcCheckB *)
    intros [= <- <-] Horder [Hputs Hij].
    checkpoint_case i Hputs Hij Hexit.
  - (* PcCollision *)
    intros Hstep Horder [Hputs Hij].
    destruct (execute_collision w pose) as [[mgr mask]|e] eqn:Hcoll;
      injection Hstep as <- <-; simpl; repeat split; auto;
      try apply Hputs.
    + apply exception_logged.
    + exists i. split; [done|]. by apply lookup_lt_Some in Hij.
  - (* PcCheckC *)
    intros [= <- <-] Horder [Hputs Hij].
    checkpoint_case i Hputs Hij Hexit.
  - (* PcPublish *)
    intros Hstep Horder [Hputs Hij].
    pose proof (lookup_lt_Some _ _ _ Hij) as Hlt.
    destruct (put sh _) as [sh1|] eqn:Hput.
    + apply put_Some in Hput as [Hfree ->].
      injection Hstep as <- <-. simpl.
      destruct (puts_for_snoc w i ij (make_result w i ij sol len mask) _
                  Hputs Hij eq_refl) as [Hfst Hall].
      repeat split; auto; try lia.
      right. eexists _, _. repeat split; eauto.
      rewrite (puts_for_length w i); [done|done|lia].
    + injection Hstep as <- <-. rewrite Epc.
      repeat split; auto; apply Hputs.
  - (* PcRaised *)
    intros Hstep Horder (Hlog & i & Hputs & Hi).
    destruct (put sh _) as [sh1|] eqn:Hput.
    + apply put_Some in Hput as [Hfree ->].
      injection Hstep as <- <-. simpl. repeat split; auto.
      * right. split; [done|]. exists i. split; [|done].
        exists (w_put w). repeat split; apply Hputs.
      * right. eexists _, _. repeat split; eauto.
        rewrite (puts_for_length w i); [done|done|lia].
    + injection Hstep as <- <-. rewrite Epc. repeat split; eauto.
  - intros [= <- <-] Horder Hpc. rewrite Epc. repeat split; auto.
  - intros [= <- <-] Horder Hpc. rewrite Epc. repeat split; auto.
Qed.


(** *** Construction and configuration *)

Lemma true_indices_length (mask : list bool) (from : nat) :
  length (true_indices mask from) = length (filter (fun b => b = true) mask).
Proof.
  revert from. induction mask as [|b mask IH]; intros from; [done|].
  simpl. destruct b.
  - rewrite filter_cons_True by done. simpl. by rewrite IH.
  - rewrite filter_cons_False by done. apply IH.
Qed.

Lemma enabled_count (points : list (Vec3 F * bool)) :
  length (filter (fun b => b = true) (snd <$> points))
  = length (filter (fun p => p.2 = true) points).
Proof.
  induction points as [|[v b] points IH]; [done|].
  rewrite fmap_cons. destruct b.
  - rewrite !filter_cons_True by done. simpl. by rewrite IH.
  - rewrite !filter_cons_False by done. apply IH.
Qed.

Lemma take_rows_Ok (a a' : ndarray3 F) (mask : list bool) :
  take_rows a mask = Ok a' →
  length mask = shape0 a
  ∧ shape0 a' = length (filter (fun b => b = true) mask)
  ∧ shape1 a' = shape1 a ∧ shape2 a' = shape2 a.
Proof.
  unfold take_rows. destruct (Nat.eqb_spec (length mask) (shape0 a)); [|done].
  intros [= <-]. simpl. by rewrite true_indices_length.
Qed.

Lemma rotate_group_shape (m : Matrix F) (k j : nat) (a a' : ndarray3 F) :
  rotate_group m k a j = Ok a' → same_shape a a'.
Proof.
  unfold rotate_group. destruct (j + 3 <=? shape1 a); [|done].
  by intros [= <-].
Qed.

Lemma rotate_vectors_shape (m : Matrix F) (a a' : ndarray3 F) :
  rotate_vectors m a = Ok a' → same_shape a a'.
Proof.
  unfold rotate_vectors.
  apply (for_each_invariant (same_shape a)); [|done].
  intros a1 k a2 Ha1.
  apply (for_each_invariant (same_shape a)); [|done].
  intros a3 j a4 (? & ? & ?) (? & ? & ?)%rotate_group_shape.
  unfold same_shape. split_and!; congruence.
Qed.

Lemma Simulation_init_Ok settings instrument sample
    (points : list (Vec3 F * bool)) (vectors : ndarray3 F) alignment sim :
  Simulation_init settings instrument sample points vectors alignment = Ok sim →
  length points = shape0 vectors
  ∧ count sim = length (filter (fun p => p.2 = true) points) * shape2 vectors
  ∧ shape sim = (length (filter (fun p => p.2 = true) points),
                 shape1 vectors / 3, shape2 vectors)
  ∧ ready sim.
Proof.
  unfold Simulation_init.
  intros (v1 & (Hlen & H0 & H1 & H2)%take_rows_Ok
             & (v2 & (H0' & H1' & H2')%rotate_vectors_shape & [= <-])%bind_Ok)
         %bind_Ok.
  rewrite length_fmap in Hlen. rewrite enabled_count in H0.
  unfold ready. simpl. rewrite ?H0', ?H1', ?H2', ?H0, ?H1, ?H2.
  split_and!; auto; try done.
Qed.

Lemma apply_setter_ready (s : Simulation) (x : Setter) :
  ready s → ready (apply_setter s x).
Proof.
  intros (Hp & Hb & Hr & Hq & He & Hs & Hc & Hm & Hbuf & Hcpl).
  destruct x as [[]|v|v|v]; unfold ready; simpl; split_and!; auto.
  by intros [=].
Qed.

Lemma configure_ready (setters : list Setter) (s : Simulation) :
  ready s → ready (configure setters s).
Proof.
  unfold configure. revert s.
  induction setters as [|x setters IH]; intros s Hs; [done|].
  simpl. apply IH. by apply apply_setter_ready.
Qed.

(** *** The invariant holds along every schedule *)

Lemma Inv_start (s : Simulation) : ready s → Inv (start s).
Proof.
  intros (Hp & Hb & Hr & Hq & He & Hs & Hc & Hm & Hbuf & Hcpl).
  exists (spawn (args s)). unfold start, Inv, tasks_total, w_shape. simpl.
  rewrite Hr, Hq, Hm, Hc. split_and!; auto; try done. lia.
Qed.

Lemma Inv_queue (s : Simulation) :
  Inv s →
  Forall (fun x => is_none x = false) (queue (shared s))
  ∧ length (queue (shared s)) < maxsize (shared s).
Proof.
  intros (w & _ & _ & _ & _ & Hm & Hq & Hnn & Hlen & _). split.
  - assert (Hall : Forall (fun x => is_none x = false) (snd <$> w_put w)).
    { apply Forall_fmap. eapply Forall_impl; [exact Hnn|]. done. }
    rewrite <- Hq in Hall. by apply Forall_app in Hall as [_ ?].
  - assert (length (results s ++ queue (shared s)) = length (w_put w)) as Hl
      by (by rewrite Hq, length_fmap).
    rewrite length_app in Hl. lia.
Qed.

Lemma drain_all (items : list (QItem F)) :
  Forall (fun x => is_none x = false) items →
  drain (items ++ [QNone]) = Some (items, []).
Proof.
  induction 1 as [|x items Hx _ IH]; [done|].
  simpl. rewrite IH. by destruct x.
Qed.

Lemma CheckResult_Inv (s : Simulation) :
  Inv s →
  ∃ s', CheckResult s = Ok s' ∧ Inv s'
        ∧ results s' = results s ++ queue (shared s)
        ∧ queue (shared s') = []
        ∧ result_updated s'
          = match queue (shared s) with
            | [] => result_updated s
            | _ :: _ => result_updated s + 1
            end
        ∧ (queue (shared s) = [] → s' = s)
        ∧ process s' = process s
        ∧ exit_event (shared s') = exit_event (shared s)
        ∧ path_lengths (shared s') = path_lengths (shared s).
Proof.
  intros HInv. pose proof (Inv_queue s HInv) as [Hnn Hlen].
  destruct HInv as (w & Hp & Hb & Ha & Hc & Hm & Hq & Hnn' & Hlen' & Ho & Hpc).
  unfold CheckResult. destruct (queue (shared s)) as [|x items] eqn:Hqueue.
  - exists s. rewrite app_nil_r in *. split_and!; auto.
    exists w. rewrite Hqueue, app_nil_r. split_and!; auto.
  - unfold is_alive. rewrite Hp. simpl.
    set (s1 := if negb (terminated w) then s else with_timer s false).
    assert (Hs1 : shared s1 = shared s ∧ results s1 = results s
                  ∧ process s1 = process s ∧ blocked s1 = blocked s
                  ∧ args s1 = args s ∧ count s1 = count s
                  ∧ result_updated s1 = result_updated s).
    { unfold s1. by destruct (negb (terminated w)). }
    destruct Hs1 as (Hsh & Hres & Hproc & Hbl & Hargs & Hcount & Hupd).
    rewrite put_free by (rewrite Hsh, Hqueue; exact Hlen).
    simpl. rewrite Hsh, Hqueue.
    rewrite (drain_all (x :: items)) by done.
    eexists. split; [reflexivity|]. simpl.
    rewrite Hres, Hproc, Hupd. split_and!; auto; [|done].
    exists w. simpl. rewrite Hres, Hbl, Hargs, Hcount, Hproc, app_nil_r.
    split_and!; auto.
Qed.

Lemma Inv_step (s : Simulation) (a : Action) : Inv s → Inv (step s a).
Proof.
  intros HInv. destruct a; simpl.
  - destruct HInv as (w & Hp & Hb & Ha & Hc & Hm & Hq & Hnn & Hlen & Ho & Hpc).
    rewrite Hp.
    destruct (execute_step (shared s) w) as [sh' w'] eqn:Hstep.
    destruct (execute_step_inv _ _ _ _ Hstep Ho Hpc)
      as (Ha' & Hm' & He' & Ho' & Hpc' & Hput).
    exists w'. simpl. unfold tasks_total, w_shape in *.
    rewrite Ha', Hm'. split_and!; auto.
    + destruct Hput as [[-> ->]|(t & x & _ & _ & -> & -> & _)]; [done|].
      by rewrite fmap_app, app_assoc, Hq.
    + destruct Hput as [[_ ->]|(t & x & Hx & _ & _ & -> & _)]; [done|].
      apply Forall_app. split; [done|]. by constructor.
    + destruct Hput as [[_ ->]|(t & x & _ & _ & _ & -> & Hl & Hord)]; [done|].
      rewrite Hord, task_order_length in Hl. rewrite length_app. simpl.
      unfold w_shape in Hl. simpl in Hl. lia.
  - destruct (timer_active s && negb (blocked s)); [|done].
    destruct (CheckResult_Inv s HInv) as (s' & -> & ? & _). done.
  - destruct HInv as (w & Hp & Hb & Ha & Hc & Hm & Hq & Hnn & Hlen & Ho & Hpc).
    rewrite Hb. exists w. unfold abort. simpl. split_and!; auto.
    unfold pc_inv in *. simpl. destruct (pc w); auto.
    destruct Hpc as [(i & ? & ? & ?)|?]; [left|by right].
    exists i. split_and!; auto.
Qed.

Lemma run_app (l1 l2 : list Action) (s : Simulation) :
  run (l1 ++ l2) s = run l2 (run l1 s).
Proof. apply foldl_app. Qed.

Lemma Inv_run (schedule : list Action) (s : Simulation) :
  Inv s → Inv (run schedule s).
Proof.
  revert s. induction schedule as [|a schedule IH]; intros s Hs; [done|].
  simpl. apply IH. by apply Inv_step.
Qed.


(** C8: polling a started simulation never fails; it appends exactly the
    queued items, in queue order, and leaves the queue empty; the signal is
    emitted once when something was queued and not at all otherwise, in
    which case the Controller's state is unchanged; and a second poll right
    after is a no-op. *)
Theorem C8_poll_idempotent (settings : Settings F) (instrument : Instrument)
    (sample : list (string * Mesh)) (points : list (Vec3 F * bool))
    (vectors : ndarray3 F) (alignment : Matrix F) (sim : Simulation)
    (setters : list Setter) (schedule : list Action) :
  Simulation_init settings instrument sample points vectors alignment = Ok sim →
  ∃ s',
    CheckResult (run schedule (start (configure setters sim))) = Ok s'
    ∧ results s'
      = results (run schedule (start (configure setters sim)))
        ++ queue (shared (run schedule (start (configure setters sim))))
    ∧ queue (shared s') = []
    ∧ result_updated s'
      = match queue (shared (run schedule (start (configure setters sim)))) with
        | [] => result_updated (run schedule (start (configure setters sim)))
        | _ :: _ =>
            result_updated (run schedule (start (configure setters sim))) + 1
        end
    ∧ (queue (shared (run schedule (start (configure setters sim)))) = [] →
       s' = run schedule (start (configure setters sim)))
    ∧ CheckResult s' = Ok s'.
Proof.
  intros (_ & _ & _ & Hready)%Simulation_init_Ok.
  apply (configure_ready setters), Inv_start, (Inv_run schedule) in Hready.
  destruct (CheckResult_Inv _ Hready)
    as (s' & Hcheck & _ & Hres & Hq & Hupd & Hsame & _).
  exists s'. split_and!; auto.
  unfold CheckResult. by rewrite Hq.
Qed.


(** *** Faults are never forgotten *)





(** *** An uninterrupted run makes progress *)

Lemma order_length (w : Worker) :
  w_order w = task_order (a_align_first_order (w_args w)) (w_shape w) →
  length (w_order w) = tasks_total w.
Proof. intros ->. apply task_order_length. Qed.


Lemma exit_event_step (s : Simulation) (a : Action) :
  Inv s → is_abort a = false →
  exit_event (shared (step s a)) = exit_event (shared s).
Proof.
  intros HInv Ha. destruct a; simpl; [| |done].
  - destruct HInv as (w & Hp & _ & _ & _ & _ & _ & _ & _ & Ho & Hpc).
    rewrite Hp.
    destruct (execute_step (shared s) w) as [sh' w'] eqn:Hstep. simpl.
    by apply execute_step_inv in Hstep as (_ & _ & ? & _).
  - destruct (timer_active s && negb (blocked s)); [|done].
    by destruct (CheckResult_Inv s HInv) as (s' & -> & _ & _ & _ & _ & _ & _ & ? & _).
Qed.

Lemma steps_remaining_poll (s : Simulation) :
  Inv s → steps_remaining (step s Poll) = steps_remaining s.
Proof.
  intros HInv. simpl.
  destruct (timer_active s && negb (blocked s)); [|done].
  destruct (CheckResult_Inv s HInv) as (s' & -> & _ & _ & _ & _ & _ & Hp & _).
  unfold steps_remaining. by rewrite Hp.
Qed.


Lemma step_args (s : Simulation) (a : Action) :
  args (step s a) = args s ∧ count (step s a) = count s
  ∧ shape (step s a) = shape s.
Proof.
  destruct a; simpl.
  - destruct (process s) as [w|]; [|done].
    by destruct (execute_step (shared s) w).
  - destruct (timer_active s && negb (blocked s)); [|done].
    unfold CheckResult. destruct (queue (shared s)); [done|].
    unfold is_alive. destruct (process s) as [w|]; [|done]. simpl.
    destruct (negb (terminated w)); simpl;
      (destruct (put _ _) as [sh|]; [|done]);
      by destruct (drain (queue sh)) as [[got behind]|].
  - by destruct (blocked s).
Qed.

Lemma run_args (schedule : list Action) (s : Simulation) :
  args (run schedule s) = args s ∧ count (run schedule s) = count s
  ∧ shape (run schedule s) = shape s.
Proof.
  revert s. induction schedule as [|a schedule IH]; intros s; [done|].
  simpl. destruct (IH (step s a)) as (-> & -> & ->). apply step_args.
Qed.

Lemma apply_setter_frame (s : Simulation) (x : Setter) :
  count (apply_setter s x) = count s ∧ shape (apply_setter s x) = shape s
  ∧ a_align_first_order (args (apply_setter s x))
    = a_align_first_order (args s)
  ∧ a_vectors (args (apply_setter s x)) = a_vectors (args s)
  ∧ a_sample (args (apply_setter s x)) = a_sample (args s).
Proof. by destruct x as [[]|v|v|v]. Qed.

Lemma configure_frame (setters : list Setter) (s : Simulation) :
  count (configure setters s) = count s ∧ shape (configure setters s) = shape s
  ∧ a_align_first_order (args (configure setters s))
    = a_align_first_order (args s)
  ∧ a_vectors (args (configure setters s)) = a_vectors (args s)
  ∧ a_sample (args (configure setters s)) = a_sample (args s).
Proof.
  unfold configure. revert s.
  induction setters as [|x setters IH]; intros s; [done|].
  simpl. destruct (IH (apply_setter s x)) as (-> & -> & -> & -> & ->).
  apply apply_setter_frame.
Qed.



(** *** After [abort] *)

Lemma execute_step_aborted (sh sh' : Shared F) (w w' : Worker) :
  execute_step sh w = (sh', w') →
  exit_event sh = true → length (queue sh) < maxsize sh →
  (∃ l, omap started_task (w_log w') = omap started_task (w_log w) ++ l
        ∧ length l + starts_left (pc w') ≤ starts_left (pc w))
  ∧ (∃ more, w_put w' = w_put w ++ more
             ∧ result_puts more + results_left (pc w') ≤ results_left (pc w))
  ∧ steps_left (pc w') ≤ steps_left (pc w) - 1.
Proof.
  unfold execute_step. intros Hstep Hexit Hfree.
  destruct (pc w) as [|i|i ij sol|i ij sol|i ij sol pose len
                      |i ij sol pose len|i ij sol len mask
                      |i ij sol len mask| | |] eqn:Epc.
  - destruct (execute_init sh w) as [w1|e] eqn:Hinit.
    + apply execute_init_Ok in Hinit as (mgr & -> & _).
      injection Hstep as <- <-. simpl. rewrite !omap_app. simpl.
      rewrite !app_nil_r. split_and!; [exists []|exists []|lia];
        rewrite app_nil_r; split; [done|simpl; lia|done|done].
    + injection Hstep as <- <-. simpl. rewrite !omap_app. simpl.
      rewrite !app_nil_r. split_and!; [exists []|exists []|lia];
        rewrite app_nil_r; split; [done|simpl; lia|done|done].
  - destruct (w_order w !! i) as [ij|] eqn:Hij.
    + destruct (execute_solve w ij) as [[p sol]|e] eqn:Hsolve;
        injection Hstep as <- <-; simpl; rewrite !omap_app; simpl;
        rewrite ?app_nil_r;
        (split_and!; [eexists; split; [reflexivity|simpl; lia]
                     |exists []; rewrite app_nil_r; by split
                     |lia]).
    + injection Hstep as <- <-. simpl. rewrite !omap_app. simpl.
      rewrite app_nil_r.
      split_and!; [exists []|exists []|lia];
        rewrite app_nil_r; split; [done|simpl; lia|done|done].
  - injection Hstep as <- <-. unfold checkpoint. rewrite Hexit. simpl.
    rewrite omap_app. simpl. rewrite app_nil_r.
    split_and!; [exists []|exists []|lia];
      rewrite app_nil_r; split; [done|simpl; lia|done|done].
  - destruct (execute_pose sh w ij sol) as [[[[sh1 p] pose] len]|e] eqn:Hpose;
      injection Hstep as <- <-; simpl; rewrite ?omap_app; simpl;
      rewrite ?app_nil_r;
      (split_and!; [exists []|exists []|lia];
       rewrite app_nil_r; split; [done|simpl; lia|done|done]).
  - injection Hstep as <- <-. unfold checkpoint. rewrite Hexit. simpl.
    rewrite omap_app. simpl. rewrite app_nil_r.
    split_and!; [exists []|exists []|lia];
      rewrite app_nil_r; split; [done|simpl; lia|done|done].
  - destruct (execute_collision w pose) as [[mgr mask]|e] eqn:Hcoll;
      injection Hstep as <- <-; simpl; rewrite ?omap_app; simpl;
      rewrite ?app_nil_r;
      (split_and!; [exists []|exists []|lia];
       rewrite app_nil_r; split; [done|simpl; lia|done|done]).
  - injection Hstep as <- <-. unfold checkpoint. rewrite Hexit. simpl.
    rewrite omap_app. simpl. rewrite app_nil_r.
    split_and!; [exists []|exists []|lia];
      rewrite app_nil_r; split; [done|simpl; lia|done|done].
  - rewrite put_free in Hstep by done.
    injection Hstep as <- <-. simpl. rewrite omap_app. simpl.
    rewrite app_nil_r.
    split_and!; [exists []; rewrite app_nil_r; split; [done|simpl; lia]
                |eexists; split; [reflexivity|by compute]
                |lia].
  - rewrite put_free in Hstep by done.
    injection Hstep as <- <-. simpl.
    split_and!; [exists []; rewrite app_nil_r; split; [done|simpl; lia]
                |eexists; split; [reflexivity|by compute]
                |lia].
  - injection Hstep as <- <-. rewrite Epc. simpl.
    split_and!; [exists []|exists []|lia];
      rewrite app_nil_r; split; [done|simpl; lia|done|done].
  - injection Hstep as <- <-. rewrite Epc. simpl.
    split_and!; [exists []|exists []|lia];
      rewrite app_nil_r; split; [done|simpl; lia|done|done].
Qed.


Lemma aborted_step (s : Simulation) (a : Action) :
  Inv s → exit_event (shared s) = true →
  exit_event (shared (step s a)) = true
  ∧ (∃ l, started_tasks (step s a) = started_tasks s ++ l
          ∧ length l + starts_left (worker_pc (step s a))
            ≤ starts_left (worker_pc s))
  ∧ (∃ more, puts (step s a) = puts s ++ more
             ∧ result_puts more + results_left (worker_pc (step s a))
               ≤ results_left (worker_pc s))
  ∧ steps_left (worker_pc (step s a))
    ≤ steps_left (worker_pc s) - (if is_worker_step a then 1 else 0).
Proof.
  intros HInv Hexit. pose proof (Inv_queue s HInv) as [_ Hfree].
  assert (Hsame : ∀ s', process s' = process s →
            (∃ l, started_tasks s' = started_tasks s ++ l
                  ∧ length l + starts_left (worker_pc s')
                    ≤ starts_left (worker_pc s))
            ∧ (∃ more, puts s' = puts s ++ more
                       ∧ result_puts more + results_left (worker_pc s')
                         ≤ results_left (worker_pc s))
            ∧ steps_left (worker_pc s') ≤ steps_left (worker_pc s) - 0).
  { intros s' Hp. unfold started_tasks, worker_log, puts, worker_pc.
    rewrite Hp. split_and!; [exists []|exists []|lia];
      rewrite app_nil_r; split; [done|simpl; lia|done|done]. }
  destruct a.
  - split.
    { rewrite exit_event_step; done. }
    destruct HInv as (w & Hp & _).
    unfold started_tasks, worker_log, puts, worker_pc. simpl. rewrite Hp.
    destruct (execute_step (shared s) w) as [sh' w'] eqn:Hstep. simpl.
    by apply execute_step_aborted in Hstep.
  - split.
    { rewrite exit_event_step; done. }
    apply Hsame. simpl.
    destruct (timer_active s && negb (blocked s)); [|done].
    by destruct (CheckResult_Inv s HInv) as (s' & -> & _ & _ & _ & _ & _ & ? & _).
  - split.
    { simpl. by destruct (blocked s). }
    apply Hsame. simpl. by destruct (blocked s).
Qed.

Lemma aborted_run (schedule : list Action) (s : Simulation) :
  Inv s → exit_event (shared s) = true →
  exit_event (shared (run schedule s)) = true
  ∧ (∃ l, started_tasks (run schedule s) = started_tasks s ++ l
          ∧ length l + starts_left (worker_pc (run schedule s))
            ≤ starts_left (worker_pc s))
  ∧ (∃ more, puts (run schedule s) = puts s ++ more
             ∧ result_puts more + results_left (worker_pc (run schedule s))
               ≤ results_left (worker_pc s))
  ∧ steps_left (worker_pc (run schedule s))
    ≤ steps_left (worker_pc s) - worker_steps schedule.
Proof.
  revert s. induction schedule as [|a schedule IH]; intros s HInv Hexit.
  { unfold worker_steps, result_puts. simpl.
    split_and!; [done|exists []|exists []|lia];
      rewrite app_nil_r; split; [done|simpl; lia|done|simpl; lia]. }
  destruct (aborted_step s a HInv Hexit)
    as (Hexit' & (l1 & Hl1 & Hb1) & (m1 & Hm1 & Hr1) & Hs1).
  destruct (IH (step s a) (Inv_step s a HInv) Hexit')
    as (Hexit'' & (l2 & Hl2 & Hb2) & (m2 & Hm2 & Hr2) & Hs2).
  simpl. split_and!; [done| | |].
  - exists (l1 ++ l2). rewrite Hl2, Hl1, app_assoc, length_app.
    split; [done|lia].
  - exists (m1 ++ m2). rewrite Hm2, Hm1, app_assoc. split; [done|].
    unfold result_puts in *. rewrite filter_app, length_app. lia.
  - unfold worker_steps in *. destruct a.
    + rewrite filter_cons_True by done. simpl in *. lia.
    + rewrite filter_cons_False by done. simpl in *. lia.
    + rewrite filter_cons_False by done. simpl in *. lia.
Qed.






(** *** The path-length buffer *)

Lemma execute_path_length_spec (sh sh' : Shared F) (args : Args)
    (ij : nat * nat) (pose : Matrix F) (len : option (list F)) :
  execute_path_length sh args ij pose = Ok (sh', len) →
  (wants_path_length args = false ∧ sh' = sh ∧ len = None)
  ∨ (wants_path_length args = true
     ∧ ∃ b row l, path_lengths sh = Some b
                  ∧ path_lengths sh' = Some (<[ij := row]> b)
                  ∧ len = Some l).
Proof.
  unfold execute_path_length. destruct (wants_path_length args).
  - intros (m & _ & (l & _ & (b & Hb & (r & _ & [= <- <-])%bind_Ok)%bind_Ok)
                     %bind_Ok)%bind_Ok.
    right. split; [done|]. exists b, r, l. split_and!; auto.
    by destruct (path_lengths sh); simplify_eq.
  - intros [= <- <-]. by left.
Qed.

Lemma length_ok_mono (args : Args) (buf buf' : gmap (nat * nat) (list F))
    (ij : nat * nat) (len : option (list F)) :
  (∀ k, is_Some (buf !! k) → is_Some (buf' !! k)) →
  length_ok args buf ij len → length_ok args buf' ij len.
Proof.
  unfold length_ok. intros Hmono. destruct (wants_path_length args); [|done].
  intros [? ?]. auto.
Qed.

Lemma execute_step_path (sh sh' : Shared F) (w w' : Worker) :
  execute_step sh w = (sh', w') →
  w_args w' = w_args w
  ∧ (wants_path_length (w_args w) = false →
     default ∅ (path_lengths sh') = default ∅ (path_lengths sh))
  ∧ (∀ k, is_Some (default ∅ (path_lengths sh) !! k) →
          is_Some (default ∅ (path_lengths sh') !! k))
  ∧ (∀ ij r, (Some ij, QResult r) ∈ w_put w' →
             (Some ij, QResult r) ∈ w_put w
             ∨ pc_length (pc w) = Some (ij, path_length r))
  ∧ (∀ ij len, pc_length (pc w') = Some (ij, len) →
               pc_length (pc w) = Some (ij, len)
               ∨ length_ok (w_args w) (default ∅ (path_lengths sh')) ij len).
Proof.
  unfold execute_step. intros Hstep.
  destruct (pc w) as [|i|i ij sol|i ij sol|i ij sol pose len
                      |i ij sol pose len|i ij sol len mask
                      |i ij sol len mask| | |] eqn:Epc.
  - destruct (execute_init sh w) as [w1|e] eqn:Hinit.
    + apply execute_init_Ok in Hinit as (mgr & -> & _).
      injection Hstep as <- <-. simpl. split_and!; auto; try done.
    + injection Hstep as <- <-. simpl. split_and!; auto; try done.
  - destruct (w_order w !! i) as [ij|] eqn:Hij.
    + destruct (execute_solve w ij) as [[p sol]|e] eqn:Hsolve;
        injection Hstep as <- <-; simpl; split_and!; auto; try done.
    + injection Hstep as <- <-. simpl. split_and!; auto; try done.
  - injection Hstep as <- <-. unfold checkpoint.
    destruct (exit_event sh); simpl; split_and!; auto; try done.
  - destruct (execute_pose sh w ij sol) as [[[[sh1 p] pose] len]|e] eqn:Hpose;
      injection Hstep as <- <-; simpl; [|split_and!; auto; try done].
    unfold execute_pose in Hpose.
    apply bind_Ok in Hpose as ([p' fk] & _ & Hpose). simpl in Hpose.
    apply bind_Ok in Hpose as ([sh2 l2] & Hpl & [= <- <- <- <-]).
    apply execute_path_length_spec in Hpl
      as [(Hw & -> & ->)|(Hw & b & row & l & Hb & Hb' & ->)].
    + split_and!; auto. intros ij' len' [= <- <-]. right.
      unfold length_ok. by rewrite Hw.
    + rewrite Hb, Hb'. simpl. split_and!; auto.
      * congruence.
      * intros k Hk. destruct (decide (ij = k)) as [->|Hne].
        -- rewrite lookup_insert_eq. eauto.
        -- by rewrite lookup_insert_ne.
      * intros ij' len' [= <- <-]. right. unfold length_ok. rewrite Hw.
        rewrite lookup_insert_eq. eauto.
  - injection Hstep as <- <-. unfold checkpoint.
    destruct (exit_event sh); simpl; split_and!; auto; try done;
      try (intros ij' len' [= <- <-]; by left).
  - destruct (execute_collision w pose) as [[mgr mask]|e] eqn:Hcoll;
      injection Hstep as <- <-; simpl; split_and!; auto; try done;
      try (intros ij' len' [= <- <-]; by left).
  - injection Hstep as <- <-. unfold checkpoint.
    destruct (exit_event sh); simpl; split_and!; auto; try done;
      try (intros ij' len' [= <- <-]; by left).
  - destruct (put sh _) as [sh1|] eqn:Hput.
    + apply put_Some in Hput as [_ ->]. injection Hstep as <- <-. simpl.
      split_and!; auto; try done.
      intros ij' r [?|Hin%list_elem_of_singleton]%elem_of_app; [by left|].
      right. by injection Hin as -> ->.
    + injection Hstep as <- <-. rewrite Epc. simpl. split_and!; auto.
  - destruct (put sh _) as [sh1|] eqn:Hput.
    + apply put_Some in Hput as [_ ->]. injection Hstep as <- <-. simpl.
      split_and!; auto; try done.
      intros ij' r [?|Hin%list_elem_of_singleton]%elem_of_app; [by left|].
      done.
    + injection Hstep as <- <-. rewrite Epc. simpl. split_and!; auto.
  - injection Hstep as <- <-. rewrite Epc. simpl. split_and!; auto.
  - injection Hstep as <- <-. rewrite Epc. simpl. split_and!; auto.
Qed.

Lemma InvPath_start (s : Simulation) : ready s → InvPath (start s).
Proof.
  intros (Hp & Hb & Hr & Hq & He & Hs & Hc & Hm & Hbuf & Hcpl).
  exists (spawn (args s)). unfold buffer. simpl. split_and!; auto.
  - intros _. by destruct Hbuf as [-> | ->].
  - by intros ij r ?%elem_of_nil.
  - done.
Qed.

Lemma InvPath_step (s : Simulation) (a : Action) :
  Inv s → InvPath s → InvPath (step s a).
Proof.
  intros HInv (w & Hp & Hempty & Hputs & Hpc). destruct a; simpl.
  - rewrite Hp. destruct (execute_step (shared s) w) as [sh' w'] eqn:Hstep.
    apply execute_step_path in Hstep as (Ha & Hsame & Hmono & Hput' & Hpc').
    exists w'. unfold buffer in *. simpl. rewrite Ha. split_and!; auto.
    + intros Hw. rewrite Hsame; auto.
    + intros ij r [Hin|Hnew]%Hput'.
      * eapply length_ok_mono; [exact Hmono|]. by apply Hputs.
      * eapply length_ok_mono; [exact Hmono|]. by apply Hpc.
    + intros ij len [Hold|Hnew]%Hpc'; [|done].
      eapply length_ok_mono; [exact Hmono|]. by apply Hpc.
  - destruct (timer_active s && negb (blocked s)); [|by exists w].
    destruct (CheckResult_Inv s HInv)
      as (s' & -> & _ & _ & _ & _ & _ & Hp' & _ & Hbuf).
    exists w. unfold buffer in *. rewrite Hp', Hbuf. by split_and!.
  - destruct (blocked s); by exists w.
Qed.

Lemma InvPath_run (schedule : list Action) (s : Simulation) :
  Inv s → InvPath s → InvPath (run schedule s).
Proof.
  revert s. induction schedule as [|a schedule IH]; intros s H1 H2; [done|].
  simpl. apply IH; [by apply Inv_step | by apply InvPath_step].
Qed.

Lemma apply_setter_wants (s : Simulation) (x : Setter) :
  a_beam_in_gauge (args (apply_setter s x)) = a_beam_in_gauge (args s).
Proof. by destruct x as [[]|v|v|v]. Qed.

(** C4: in every state of every run, for each result the Worker has put
    for a task (i, j), the buffer cell (i, j) has been assigned exactly
    when both [compute_path_length] and the beam-in-gauge flag are set,
    and unless both are set the result's path length is [None]. *)
Theorem C4_path_length_cell (settings : Settings F) (instrument : Instrument)
    (sample : list (string * Mesh)) (points : list (Vec3 F * bool))
    (vectors : ndarray3 F) (alignment : Matrix F) (sim : Simulation)
    (setters : list Setter) (schedule : list Action) (ij : nat * nat)
    (r : SimulationResult F) :
  Simulation_init settings instrument sample points vectors alignment = Ok sim →
  (Some ij, QResult r)
    ∈ puts (run schedule (start (configure setters sim))) →
  (is_Some (buffer (run schedule (start (configure setters sim))) !! ij)
   ↔ a_compute_path_length (args (configure setters sim)) = true
     ∧ a_beam_in_gauge (args (configure setters sim)) = true)
  ∧ (¬ (a_compute_path_length (args (configure setters sim)) = true
        ∧ a_beam_in_gauge (args (configure setters sim)) = true) →
     path_length r = None).
Proof.
  intros (_ & _ & _ & Hready)%Simulation_init_Ok Hin.
  apply (configure_ready setters) in Hready.
  pose proof (Inv_run schedule _ (Inv_start _ Hready)) as HInv.
  pose proof (InvPath_run schedule _ (Inv_start _ Hready)
                (InvPath_start _ Hready)) as (w & Hp & Hempty & Hputs & _).
  destruct HInv as (w' & Hp' & _ & Ha & _).
  rewrite Hp in Hp'. injection Hp' as <-.
  destruct (run_args schedule (start (configure setters sim))) as (Hargs & _).
  rewrite Hargs in Ha. simpl in Ha.
  unfold puts in Hin. rewrite Hp in Hin.
  specialize (Hputs ij r Hin). unfold length_ok, wants_path_length in *.
  rewrite Ha in *.
  destruct (a_compute_path_length (args (configure setters sim))),
           (a_beam_in_gauge (args (configure setters sim))); simpl in *.
  - destruct Hputs as [_ Hcell]. split; [done|]. intros []. done.
  - rewrite Hempty by done. rewrite lookup_empty.
    split; [|done]. split; [by intros [? [=]]|by intros [_ [=]]].
  - rewrite Hempty by done. rewrite lookup_empty.
    split; [|done]. split; [by intros [? [=]]|by intros [[=] _]].
  - rewrite Hempty by done. rewrite lookup_empty.
    split; [|done]. split; [by intros [? [=]]|by intros [[=] _]].
Qed.


(** *** The collision manager *)

Lemma grows_refl (cs : list Collider) : grows cs cs.
Proof. intros p c Hc. exists c. by split_and!. Qed.

Lemma grows_trans (cs1 cs2 cs3 : list Collider) :
  grows cs1 cs2 → grows cs2 cs3 → grows cs1 cs3.
Proof.
  intros H12 H23 p c Hc.
  destruct (H12 p c Hc) as (c2 & Hc2 & Hid2 & Hex2).
  destruct (H23 p c2 Hc2) as (c3 & Hc3 & Hid3 & Hex3).
  exists c3. split_and!; [done|congruence|set_solver].
Qed.

Lemma grows_app (cs fresh : list Collider) : grows cs (cs ++ fresh).
Proof.
  intros p c Hc. exists c. split_and!; [|done|done].
  by apply lookup_app_l_Some.
Qed.

Lemma grows_alter (f : Collider → Collider) (cs : list Collider) (i : nat) :
  (∀ c, cid (f c) = cid c ∧ excludes c ⊆ excludes (f c)) →
  grows cs (alter f i cs).
Proof.
  intros Hf p c Hc. destruct (decide (i = p)) as [->|Hne].
  - exists (f c). rewrite list_lookup_alter_eq, Hc. simpl.
    destruct (Hf c). by split_and!.
  - exists c. rewrite list_lookup_alter_ne by done. by split_and!.
Qed.

Lemma grows_length (cs cs' : list Collider) :
  grows cs cs' → length cs ≤ length cs'.
Proof.
  intros Hg. destruct (decide (length cs ≤ length cs')) as [|Hgt]; [done|].
  destruct (lookup_lt_is_Some_2 cs (length cs')) as [c Hc]; [lia|].
  destruct (Hg _ c Hc) as (c' & Hc'%lookup_lt_Some & _). lia.
Qed.

Lemma mutually_excluded_grows (m m' : CollisionManager) (a b : nat) :
  grows (colliders m) (colliders m') →
  mutually_excluded m a b → mutually_excluded m' a b.
Proof.
  intros Hg (ca & cb & Ha & Hb & Hida & Hidb & Hea & Heb).
  destruct (Hg a ca Ha) as (ca' & Ha' & Hida' & Hea').
  destruct (Hg b cb Hb) as (cb' & Hb' & Hidb' & Heb').
  exists ca', cb'. split_and!; [done|done|congruence|congruence| |];
    set_solver.
Qed.

Lemma ids_positional_alter (f : Collider → Collider) (cs : list Collider)
    (i : nat) :
  (∀ c, cid (f c) = cid c) →
  ids_positional cs → ids_positional (alter f i cs).
Proof.
  intros Hf Hcs p c. destruct (decide (i = p)) as [->|Hne].
  - rewrite list_lookup_alter_eq.
    destruct (cs !! p) as [c0|] eqn:Hc0; simpl; [|done].
    intros [= <-]. rewrite Hf. by apply Hcs.
  - rewrite list_lookup_alter_ne by done. apply Hcs.
Qed.

Lemma addColliders_positional (m : CollisionManager)
    (geoms : list (Mesh + Node)) transforms policy is_movable :
  ids_positional (colliders m) →
  ids_positional (colliders (addColliders m geoms transforms policy is_movable)).
Proof.
  intros Hm p c. simpl.
  destruct (decide (p < length (colliders m))) as [Hlt|Hge].
  - rewrite lookup_app_l by done. apply Hm.
  - rewrite lookup_app_r by lia. rewrite list_lookup_imap.
    destruct (geoms !! (p - length (colliders m))); simpl; [|done].
    intros [= <-]. simpl. lia.
Qed.

Lemma addColliders_length (m : CollisionManager)
    (geoms : list (Mesh + Node)) transforms policy is_movable :
  length (colliders (addColliders m geoms transforms policy is_movable))
  = length (colliders m) + length geoms.
Proof. simpl. by rewrite length_app, length_imap. Qed.


Lemma set_exclude_grows (k : nat) (c : Collider) :
  cid (set_exclude k c) = cid c ∧ excludes c ⊆ excludes (set_exclude k c).
Proof. simpl. split; [done|set_solver]. Qed.

Lemma exclude_body_spec (last_id last_pos idx : nat) (cs : list Collider) :
  grows cs (exclude_body last_id last_pos cs idx)
  ∧ length (exclude_body last_id last_pos cs idx) = length cs
  ∧ (ids_positional cs → ids_positional (exclude_body last_id last_pos cs idx))
  ∧ (idx < length cs → last_pos < length cs →
     ∃ ca cl, exclude_body last_id last_pos cs idx !! idx = Some ca
              ∧ exclude_body last_id last_pos cs idx !! last_pos = Some cl
              ∧ last_id ∈ excludes ca ∧ idx ∈ excludes cl).
Proof.
  unfold exclude_body. split_and!.
  - eapply grows_trans; apply grows_alter; apply set_exclude_grows.
  - by rewrite !length_alter.
  - intros Hcs. do 2 (apply ids_positional_alter; [done|]). done.
  - intros Hidx Hlast.
    destruct (lookup_lt_is_Some_2 cs idx Hidx) as [c Hc].
    destruct (lookup_lt_is_Some_2 cs last_pos Hlast) as [l Hl].
    destruct (decide (last_pos = idx)) as [->|Hne].
    + simplify_eq. eexists _, _.
      rewrite !list_lookup_alter_eq, Hc. simpl.
      split_and!; [done|done|set_solver|set_solver].
    + eexists _, _.
      rewrite (list_lookup_alter_ne _ _ last_pos idx) by done.
      rewrite !list_lookup_alter_eq.
      rewrite (list_lookup_alter_ne _ _ idx last_pos) by done.
      rewrite Hc, Hl. simpl.
      split_and!; [done|done|set_solver|set_solver].
Qed.

Lemma exclude_fold (last_id last_pos : nat) (idxs : list nat)
    (cs : list Collider) :
  grows cs (foldl (exclude_body last_id last_pos) cs idxs)
  ∧ length (foldl (exclude_body last_id last_pos) cs idxs) = length cs
  ∧ (ids_positional cs →
     ids_positional (foldl (exclude_body last_id last_pos) cs idxs))
  ∧ (last_pos < length cs →
     ∀ a, a ∈ idxs → a < length cs →
       ∃ ca cl,
         foldl (exclude_body last_id last_pos) cs idxs !! a = Some ca
         ∧ foldl (exclude_body last_id last_pos) cs idxs !! last_pos = Some cl
         ∧ last_id ∈ excludes ca ∧ a ∈ excludes cl).
Proof.
  revert cs. induction idxs as [|idx idxs IH]; intros cs.
  { simpl. split_and!; [apply grows_refl|done|done|].
    by intros _ a ?%elem_of_nil. }
  simpl.
  destruct (exclude_body_spec last_id last_pos idx cs)
    as (Hg1 & Hl1 & Hp1 & He1).
  destruct (IH (exclude_body last_id last_pos cs idx))
    as (Hg2 & Hl2 & Hp2 & He2).
  split_and!.
  - by eapply grows_trans.
  - congruence.
  - auto.
  - intros Hlast a [->|Hin]%elem_of_cons Ha.
    + destruct (He1 Ha Hlast) as (ca & cl & Hca & Hcl & Hin1 & Hin2).
      destruct (Hg2 _ _ Hca) as (ca' & Hca' & _ & Hsub1).
      destruct (Hg2 _ _ Hcl) as (cl' & Hcl' & _ & Hsub2).
      exists ca', cl'. split_and!; [done|done|set_solver|set_solver].
    + apply He2; [lia|done|lia].
Qed.

Lemma slice_0_length {A} (l : list A) (n : nat) :
  length (slice l 0 n) = n `min` length l.
Proof. unfold slice. by rewrite Nat.sub_0_r, drop_0, length_take. Qed.

Lemma index_last_Ok {A} (l : list A) (x : A) :
  index_last l = Ok x → last l = Some x.
Proof. unfold index_last. by destruct (last l); intros; simplify_eq. Qed.

Lemma last_positional (cs : list Collider) (c : Collider) :
  ids_positional cs → last cs = Some c →
  cid c = length cs - 1 ∧ 0 < length cs.
Proof.
  intros Hcs Hlast. rewrite last_lookup in Hlast.
  pose proof (lookup_lt_Some _ _ _ Hlast).
  apply Hcs in Hlast. lia.
Qed.

Lemma exclude_tool_Ok (n : nat) (m m' : CollisionManager) :
  exclude_tool n m = Ok m' →
  ids_positional (colliders m) →
  grows (colliders m) (colliders m')
  ∧ length (colliders m') = length (colliders m)
  ∧ ids_positional (colliders m')
  ∧ ∀ a, a < n → a < length (colliders m) →
         mutually_excluded m' a (length (colliders m) - 1).
Proof.
  unfold exclude_tool.
  intros (c & Hc%index_last_Ok & [= <-])%bind_Ok Hcs. simpl.
  destruct (last_positional _ _ Hcs Hc) as [Hid Hpos].
  fold (exclude_body (cid c) (length (colliders m) - 1)).
  destruct (exclude_fold (cid c) (length (colliders m) - 1)
              (seq 0 (length (slice (colliders m) 0 n))) (colliders m))
    as (Hg & Hl & Hp & He).
  split_and!; auto.
  intros a Han Hal.
  destruct (He ltac:(lia) a) as (ca & cl & Hca & Hcl & Hin1 & Hin2); [|done|].
  { apply elem_of_seq. rewrite slice_0_length. lia. }
  exists ca, cl. split_and!; auto.
  - apply (Hp Hcs) in Hca. done.
  - apply (Hp Hcs) in Hcl. done.
  - by rewrite <- Hid.
Qed.


Lemma populate_attribute_inv (n : nat) (children : list Node)
    (st st' : CollisionManager * list nat * nat) (entry : string * nat) :
  populate_inv n st → populate_attribute n children st entry = Ok st' →
  populate_inv n st'.
Proof.
  destruct st as [[m pids] start], entry as [name end_index].
  intros (Hpos & Hn & Hpids & Hex). unfold populate_attribute. simpl in *.
  set (nodes := slice children start end_index).
  destruct (bool_decide (name = positioner_attribute)).
  - intros (lb & Hlb%index_last_Ok & Hrest)%bind_Ok. simpl in Hrest.
    apply bind_Ok in Hrest as (ll & Hll%index_last_Ok & Hrest).
    apply bind_Ok in Hrest as (m2 & Htool & [= <-]).
    set (m1 := addColliders m (inr <$> nodes) (Some (node_transform <$> nodes))
                 ExcludeConsecutive true) in *.
    pose proof (addColliders_positional m (inr <$> nodes)
                  (Some (node_transform <$> nodes)) ExcludeConsecutive true
                  Hpos) as Hpos1.
    pose proof (addColliders_length m (inr <$> nodes)
                  (Some (node_transform <$> nodes)) ExcludeConsecutive true)
      as Hlen1.
    rewrite length_fmap in Hlen1. fold m1 in Hpos1, Hlen1.
    destruct (last_positional _ _ Hpos Hlb) as [Hidb Hposb].
    destruct (last_positional _ _ Hpos1 Hll) as [Hidl _].
    destruct (exclude_tool_Ok n m1 m2 Htool Hpos1) as (Hg & Hl2 & Hpos2 & He).
    assert (Hseq : seq (cid lb + 1) (cid ll + 1 - (cid lb + 1))
                   = seq (length (colliders m)) (length nodes)).
    { f_equal; lia. }
    rewrite Hseq. unfold populate_inv. simpl. split_and!.
    + done.
    + lia.
    + intros t [Ht%Hpids|Ht%elem_of_seq]%elem_of_app; lia.
    + intros t Hlast a Ha.
      destruct (length nodes) as [|k] eqn:Hk.
      * simpl in Hlast. rewrite app_nil_r in Hlast.
        apply (mutually_excluded_grows m); [|by apply Hex].
        eapply grows_trans; [|exact Hg]. apply grows_app.
      * rewrite seq_S, app_assoc, last_snoc in Hlast. injection Hlast as <-.
        specialize (He a). rewrite Hlen1 in He.
        replace (length (colliders m) + S k - 1)
          with (length (colliders m) + k) in He by lia.
        apply He; lia.
  - intros [= <-]. unfold populate_inv. cbn [fst snd].
    pose proof (addColliders_length m (inr <$> nodes) None
                  ExcludeConsecutive false) as Hlen1.
    split_and!.
    + by apply addColliders_positional.
    + lia.
    + intros t Ht%Hpids. lia.
    + intros t Hlast a Ha.
      apply (mutually_excluded_grows m); [apply grows_app|by apply Hex].
Qed.

Lemma populate_collision_manager_Ok (m0 m : CollisionManager)
    (sample : list Mesh) (pose : Matrix F)
    (scene : list Node * list (string * nat)) (sids pids : list nat) :
  populate_collision_manager m0 sample pose scene = Ok (m, sids, pids) →
  sids = seq 0 (length sample) ∧ tool_excluded m sids pids
  ∧ ids_positional (colliders m)
  ∧ (∀ t, t ∈ sids ∨ t ∈ pids → t < length (colliders m)).
Proof.
  unfold populate_collision_manager. destruct scene as [children indices].
  intros ([[m2 pids'] start] & Hloop & [= <- <- <-])%bind_Ok.
  apply (for_each_invariant (populate_inv (length sample))) in Hloop.
  - destruct Hloop as (Hpos & Hn & Hpids & Hex). simpl in *.
    split_and!; auto.
    + intros t Hlast a Ha%elem_of_seq.
      destruct (Hex t Hlast a) as (ca & cb & ?); [lia|].
      by exists ca, cb.
    + intros t [Ht%elem_of_seq|Ht%Hpids]; lia.
  - intros st x st' Hst Hx. by eapply populate_attribute_inv.
  - unfold populate_inv. simpl. rewrite length_imap, length_fmap.
    split_and!; [|done|by intros t ?%elem_of_nil|done].
    intros p c. rewrite list_lookup_imap.
    destruct ((inl <$> sample) !! p); simpl; [|done]. by intros [= <-].
Qed.

Lemma transform_collider_grows (pose : Matrix F) (m m' : CollisionManager)
    (i : nat) :
  transform_collider pose m i = Ok m' →
  grows (colliders m) (colliders m')
  ∧ length (colliders m') = length (colliders m).
Proof.
  unfold transform_collider. intros (c & _ & [= <-])%bind_Ok. simpl.
  split; [|by rewrite length_alter].
  apply grows_alter. intros c'. by split.
Qed.

Lemma update_colliders_grows (m m' : CollisionManager) (pose : Matrix F)
    (sids pids : list nat) (nodes : list Node) :
  update_colliders m pose sids nodes pids = Ok m' →
  grows (colliders m) (colliders m')
  ∧ length (colliders m') = length (colliders m).
Proof.
  unfold update_colliders.
  intros (m1 & H1 & (m2 & H2 & [= <-])%bind_Ok)%bind_Ok. simpl.
  set (P := fun x : CollisionManager =>
              grows (colliders m) (colliders x)
              ∧ length (colliders x) = length (colliders m)).
  assert (P m1) as Hm1.
  { apply (for_each_invariant P) in H1; [done| |split; [apply grows_refl|done]].
    intros s x s' [Hg Hl] [Hg' Hl']%transform_collider_grows.
    split; [by eapply grows_trans|congruence]. }
  apply (for_each_invariant P) in H2; [done| |done].
  intros s [i node] s' [Hg Hl] [Hg' Hl']%transform_collider_grows.
  split; [by eapply grows_trans|congruence].
Qed.


Lemma execute_collision_Ok (w : Worker) (pose : Matrix F)
    (mgr : option (CollisionManager * list nat * list nat))
    (mask : option (list bool)) :
  execute_collision w pose = Ok (mgr, mask) →
  (mgr = w_manager w ∧ mask = None)
  ∨ (∃ m sids pids m',
       w_manager w = Some (m, sids, pids) ∧ mgr = Some (m', sids, pids)
       ∧ mask = Some (collide m')
       ∧ grows (colliders m) (colliders m')
       ∧ length (colliders m') = length (colliders m)).
Proof.
  unfold execute_collision. destruct (a_check_collision (w_args w)).
  - destruct (w_manager w) as [[[m sids] pids]|]; [|done].
    intros (m' & [Hg Hl]%update_colliders_grows & [= <- <-])%bind_Ok.
    right. exists m, sids, pids, m'. by split_and!.
  - intros [= <- <-]. by left.
Qed.

Lemma InvColl_start (s : Simulation) : InvColl (start s).
Proof.
  exists (spawn (args s)). simpl. split_and!; auto.
  - by intros ij r ?%elem_of_nil.
  - done.
Qed.

Lemma execute_collision_flag (w : Worker) (pose : Matrix F)
    (mgr : option (CollisionManager * list nat * list nat))
    (mask : option (list bool)) :
  execute_collision w pose = Ok (mgr, mask) →
  if a_check_collision (w_args w) then
    ∃ m sids pids m',
      w_manager w = Some (m, sids, pids) ∧ mgr = Some (m', sids, pids)
      ∧ mask = Some (collide m')
      ∧ grows (colliders m) (colliders m')
      ∧ length (colliders m') = length (colliders m)
  else mgr = w_manager w ∧ mask = None.
Proof.
  unfold execute_collision. destruct (a_check_collision (w_args w)).
  - destruct (w_manager w) as [[[m sids] pids]|]; [|done].
    intros (m' & [Hg Hl]%update_colliders_grows & [= <- <-])%bind_Ok.
    by exists m, sids, pids, m'.
  - by intros [= <- <-].
Qed.

Lemma mask_ok_moved (w w' : Worker) (m m' : CollisionManager)
    (sids pids : list nat) (mask : option (list bool)) :
  w_args w' = w_args w →
  w_manager w = Some (m, sids, pids) →
  w_manager w' = Some (m', sids, pids) →
  length (colliders m') = length (colliders m) →
  mask_ok w mask → mask_ok w' mask.
Proof.
  unfold mask_ok. intros -> Hw Hw' Hl.
  destruct (a_check_collision (w_args w)); [|done].
  intros (m0 & s0 & p0 & m1 & Hw0 & -> & Hl1 & Htool).
  rewrite Hw in Hw0. injection Hw0 as <- <- <-.
  exists m', sids, pids, m1. split_and!; auto. congruence.
Qed.

Lemma InvColl_worker_step (sh sh' : Shared F) (w w' : Worker) :
  execute_step sh w = (sh', w') → pc_inv sh w →
  (match w_manager w with
   | Some (m, sids, pids) =>
       tool_excluded m sids pids
       ∧ sids = seq 0 (length (a_sample (w_args w)))
   | None => True
   end) →
  (∀ ij r, (Some ij, QResult r) ∈ w_put w → mask_ok w (collision_mask r)) →
  (∀ mask, pc_mask (pc w) = Some mask → mask_ok w mask) →
  (match pc w with
   | PcInit | PcCrashed => True
   | _ => a_check_collision (w_args w) = true → is_Some (w_manager w)
   end) →
  (match w_manager w' with
   | Some (m, sids, pids) =>
       tool_excluded m sids pids
       ∧ sids = seq 0 (length (a_sample (w_args w')))
   | None => True
   end)
  ∧ (∀ ij r, (Some ij, QResult r) ∈ w_put w' → mask_ok w' (collision_mask r))
  ∧ (∀ mask, pc_mask (pc w') = Some mask → mask_ok w' mask)
  ∧ (match pc w' with
     | PcInit | PcCrashed => True
     | _ => a_check_collision (w_args w') = true → is_Some (w_manager w')
     end).
Proof.
  unfold execute_step, pc_inv. intros Hstep Hinv Hmgr Hputs Hpc Hhas.
  destruct (pc w) as [|i|i ij sol|i ij sol|i ij sol pose len
                      |i ij sol pose len|i ij sol len mask
                      |i ij sol len mask| | |] eqn:Epc.
  - destruct Hinv as [Hempty _].
    destruct (execute_init sh w) as [w1|e] eqn:Hinit.
    + apply execute_init_Ok in Hinit as (mgr & -> & _ & Hpop).
      injection Hstep as <- <-. simpl. rewrite Hempty.
      split_and!; [|by intros ij r ?%elem_of_nil|done|].
      * destruct (a_check_collision (w_args w)); [|by subst].
        destruct Hpop as ([[m sids] pids] & Hpop & ->).
        by apply populate_collision_manager_Ok in Hpop as (-> & ? & _).
      * intros Hflag. rewrite Hflag in Hpop.
        destruct Hpop as (populated & _ & ->). by eexists.
    + injection Hstep as <- <-. simpl. split_and!; auto; try done.
  - destruct (w_order w !! i) as [ij|] eqn:Hij.
    + destruct (execute_solve w ij) as [[p sol]|e] eqn:Hsolve;
        injection Hstep as <- <-; simpl; split_and!; auto; try done.
    + injection Hstep as <- <-. simpl. split_and!; auto; try done.
  - injection Hstep as <- <-. unfold checkpoint.
    destruct (exit_event sh); simpl; split_and!; auto; try done.
  - destruct (execute_pose sh w ij sol) as [[[[sh1 p] pose] len]|e] eqn:Hpose;
      injection Hstep as <- <-; simpl; split_and!; auto; try done.
  - injection Hstep as <- <-. unfold checkpoint.
    destruct (exit_event sh); simpl; split_and!; auto; try done.
  - destruct (execute_collision w pose) as [[mgr mask]|e] eqn:Hcoll;
      injection Hstep as <- <-; simpl; [|split_and!; auto; try done].
    apply execute_collision_flag in Hcoll.
    destruct (a_check_collision (w_args w)) eqn:Hflag.
    + destruct Hcoll as (m & sids & pids & m' & Hw & -> & -> & Hg & Hl).
      rewrite Hw in Hmgr. destruct Hmgr as [Htool ->].
      assert (Htool' : tool_excluded m'
                         (seq 0 (length (a_sample (w_args w)))) pids).
      { intros t Ht a Ha.
        apply (mutually_excluded_grows m); [done|by apply Htool]. }
      split_and!; auto.
      * intros ij' r Hin.
        eapply (mask_ok_moved w); [done|exact Hw|done|done|by apply (Hputs ij')].
      * intros mask [= <-]. unfold mask_ok. simpl. rewrite Hflag.
        by exists m', (seq 0 (length (a_sample (w_args w)))), pids, m'.
    + destruct Hcoll as [-> ->]. split_and!; auto.
      intros mask [= <-]. unfold mask_ok. simpl. by rewrite Hflag.
  - injection Hstep as <- <-. unfold checkpoint.
    destruct (exit_event sh); simpl; split_and!; auto; try done;
      try (intros mask' [= <-]; by apply Hpc).
  - destruct (put sh _) as [sh1|] eqn:Hput.
    + apply put_Some in Hput as [_ ->]. injection Hstep as <- <-. simpl.
      split_and!; auto; try done.
      intros ij' r [Hin|Hin%list_elem_of_singleton]%elem_of_app.
      * by apply Hputs in Hin.
      * injection Hin as -> ->. simpl. by apply Hpc.
    + injection Hstep as <- <-. rewrite Epc. by split_and!.
  - destruct (put sh _) as [sh1|] eqn:Hput.
    + apply put_Some in Hput as [_ ->]. injection Hstep as <- <-. simpl.
      split_and!; auto; try done.
      intros ij' r [Hin|Hin%list_elem_of_singleton]%elem_of_app.
      * by apply Hputs in Hin.
      * done.
    + injection Hstep as <- <-. rewrite Epc. by split_and!.
  - injection Hstep as <- <-. rewrite Epc. by split_and!.
  - injection Hstep as <- <-. rewrite Epc. by split_and!.
Qed.

Lemma InvColl_step (s : Simulation) (a : Action) :
  Inv s → InvColl s → InvColl (step s a).
Proof.
  intros HInv (w & Hp & Hmgr & Hputs & Hpc & Hhas). destruct a; simpl.
  - destruct HInv as (w0 & Hp0 & _ & _ & _ & _ & _ & _ & _ & _ & Hinv).
    rewrite Hp in Hp0. injection Hp0 as <-. rewrite Hp.
    destruct (execute_step (shared s) w) as [sh' w'] eqn:Hstep.
    exists w'. split; [done|].
    by apply (InvColl_worker_step _ _ _ _ Hstep).
  - destruct (timer_active s && negb (blocked s)); [|by exists w].
    destruct (CheckResult_Inv s HInv)
      as (s' & -> & _ & _ & _ & _ & _ & Hp' & _).
    exists w. rewrite Hp'. by split_and!.
  - destruct (blocked s); by exists w.
Qed.

Lemma InvColl_run (schedule : list Action) (s : Simulation) :
  Inv s → InvColl s → InvColl (run schedule s).
Proof.
  revert s. induction schedule as [|a schedule IH]; intros s H1 H2; [done|].
  simpl. apply IH; [by apply Inv_step | by apply InvColl_step].
Qed.


Lemma mutually_excluded_unchecked (m : CollisionManager) (a b : nat)
    (ca cb : Collider) :
  mutually_excluded m a b →
  colliders m !! a = Some ca → colliders m !! b = Some cb →
  pair_checked ca cb = false ∧ pair_checked cb ca = false.
Proof.
  intros (ca' & cb' & Ha & Hb & Hida & Hidb & Hea & Heb) Hca Hcb.
  rewrite Ha in Hca. rewrite Hb in Hcb.
  injection Hca as <-. injection Hcb as <-.
  rewrite <- Hidb in Hea. rewrite <- Hida in Heb. unfold pair_checked.
  rewrite (bool_decide_eq_true_2 _ Hea), (bool_decide_eq_true_2 _ Heb).
  simpl. by rewrite !andb_false_r.
Qed.

(** C9: with collision checking set, in every state of every run in
    which the Worker has got past its initialisation, the Worker holds a
    populated collision manager; its sample colliders are the first ones;
    each of them and the last positioner-link collider list each other
    among their exclusions, so that [collide] never tests such a pair; and
    every result that was put carries a collision mask, which is what
    [collide] returned on a state of the manager in which that exclusion
    held, and which has one entry per collider of the manager. *)
Theorem C9_mask_and_tool_exclusion (settings : Settings F)
    (instrument : Instrument) (sample : list (string * Mesh))
    (points : list (Vec3 F * bool)) (vectors : ndarray3 F)
    (alignment : Matrix F) (sim : Simulation) (setters : list Setter)
    (schedule : list Action) :
  Simulation_init settings instrument sample points vectors alignment = Ok sim →
  a_check_collision (args (configure setters sim)) = true →
  worker_pc (run schedule (start (configure setters sim))) ≠ PcInit →
  worker_pc (run schedule (start (configure setters sim))) ≠ PcCrashed →
  ∃ m sids pids,
    collision_manager (run schedule (start (configure setters sim)))
    = Some (m, sids, pids)
    ∧ sids = seq 0 (length sample)
    ∧ (∀ t a, last pids = Some t → a ∈ sids →
              mutually_excluded m a t
              ∧ ∀ ca ct, colliders m !! a = Some ca →
                         colliders m !! t = Some ct →
                         pair_checked ca ct = false
                         ∧ pair_checked ct ca = false)
    ∧ (∀ ij r,
         (Some ij, QResult r)
           ∈ puts (run schedule (start (configure setters sim))) →
         ∃ m' mask,
           collision_mask r = Some mask
           ∧ mask = collide m'
           ∧ length mask = length (colliders m)
           ∧ ∀ t a, last pids = Some t → a ∈ sids →
                    mutually_excluded m' a t
                    ∧ ∀ ca ct, colliders m' !! a = Some ca →
                               colliders m' !! t = Some ct →
                               pair_checked ca ct = false
                               ∧ pair_checked ct ca = false).
Proof.
  intros Hinit Hflag Hnot_init Hnot_crashed.
  assert (Hsample : length (a_sample (args sim)) = length sample).
  { unfold Simulation_init in Hinit.
    apply bind_Ok in Hinit as (v1 & _ & (v2 & _ & [= <-])%bind_Ok).
    simpl. by rewrite length_fmap. }
  apply Simulation_init_Ok in Hinit as (_ & _ & _ & Hready).
  apply (configure_ready setters) in Hready.
  pose proof (Inv_run schedule _ (Inv_start _ Hready)) as HInv.
  pose proof (InvColl_run schedule _ (Inv_start _ Hready) (InvColl_start _))
    as (w & Hp & Hmgr & Hputs & _ & Hhas).
  destruct HInv as (w' & Hp' & _ & Ha & _).
  rewrite Hp in Hp'. injection Hp' as <-.
  destruct (run_args schedule (start (configure setters sim))) as (Hargs & _).
  rewrite Hargs in Ha. simpl in Ha.
  destruct (configure_frame setters sim) as (_ & _ & _ & _ & Hs).
  unfold worker_pc, collision_manager, puts in *. rewrite Hp in *. simpl.
  rewrite Ha in Hhas, Hmgr.
  assert (Hsome : is_Some (w_manager w)).
  { destruct (pc w); try done; by apply Hhas. }
  destruct Hsome as [[[m sids] pids] Hm]. rewrite Hm in Hmgr.
  destruct Hmgr as [Htool ->]. rewrite Hs, Hsample in *.
  exists m, (seq 0 (length sample)), pids. split_and!; [done|done| |].
  - intros t a Ht Hin. pose proof (Htool t Ht a Hin) as Hex.
    split; [done|]. intros ca ct. by apply mutually_excluded_unchecked.
  - intros ij r Hin. specialize (Hputs ij r Hin). unfold mask_ok in Hputs.
    rewrite Ha, Hflag in Hputs.
    destruct Hputs as (m0 & s0 & p0 & m' & Hm0 & Hmask & Hlen & Htool').
    rewrite Hm in Hm0. injection Hm0 as <- <- <-.
    exists m', (collide m'). split_and!; auto.
    + unfold collide. rewrite length_fmap. done.
    + intros t a Ht Hin'. pose proof (Htool' t Ht a Hin') as Hex.
      split; [done|]. intros ca ct. by apply mutually_excluded_unchecked.
Qed.


(** *** The other sample meshes do not matter *)

Lemma for_each_total {A S} (P : S → Prop) (xs : list A)
    (body : S → A → res S) (acc : S) :
  (∀ s x, P s → ∃ s', body s x = Ok s' ∧ P s') →
  P acc → ∃ r, for_each xs body acc = Ok r ∧ P r.
Proof.
  intros Hbody. revert acc.
  induction xs as [|x xs IH]; intros acc Hacc; simpl; [eauto|].
  destruct (Hbody acc x Hacc) as (acc' & -> & Hacc'). simpl. eauto.
Qed.

Lemma index_last_total {A} (l : list A) :
  0 < length l → ∃ x, index_last l = Ok x.
Proof.
  intros Hl. unfold index_last. rewrite last_lookup.
  destruct (lookup_lt_is_Some_2 l (pred (length l))) as [x ->]; [lia|eauto].
Qed.

Lemma populate_attribute_total (n : nat) (children : list Node)
    (st : CollisionManager * list nat * nat) (entry : string * nat) :
  0 < length (colliders st.1.1) →
  ∃ st', populate_attribute n children st entry = Ok st'
         ∧ 0 < length (colliders st'.1.1).
Proof.
  destruct st as [[m pids] start], entry as [name end_index].
  cbn [fst snd]. intros Hm. unfold populate_attribute.
  set (nodes := slice children start end_index).
  destruct (bool_decide (name = positioner_attribute)).
  - set (m1 := addColliders m (inr <$> nodes) (Some (node_transform <$> nodes))
                 ExcludeConsecutive true).
    assert (Hm1 : 0 < length (colliders m1)).
    { unfold m1. rewrite addColliders_length. lia. }
    destruct (index_last_total (colliders m) Hm) as [lb Hlb].
    destruct (index_last_total (colliders m1) Hm1) as [ll Hll].
    eexists. split.
    + apply bind_Ok. exists lb. split; [exact Hlb|].
      apply bind_Ok. exists ll. split; [exact Hll|].
      apply bind_Ok. eexists. split; [|reflexivity].
      unfold exclude_tool. apply bind_Ok. exists ll. split; [exact Hll|].
      reflexivity.
    + cbn [fst snd colliders].
      fold (exclude_body (cid ll) (length (colliders m1) - 1)).
      destruct (exclude_fold (cid ll) (length (colliders m1) - 1)
                  (seq 0 (length (slice (colliders m1) 0 n))) (colliders m1))
        as (_ & -> & _). done.
  - eexists. split; [reflexivity|]. cbn [fst snd].
    rewrite addColliders_length. lia.
Qed.

Lemma populate_collision_manager_total (m0 : CollisionManager)
    (sample : list Mesh) (pose : Matrix F)
    (scene : list Node * list (string * nat)) :
  sample ≠ [] →
  ∃ populated, populate_collision_manager m0 sample pose scene = Ok populated.
Proof.
  intros Hs. unfold populate_collision_manager.
  destruct scene as [children indices].
  edestruct (for_each_total
               (fun st : CollisionManager * list nat * nat =>
                  0 < length (colliders st.1.1)) indices
               (populate_attribute (length sample) children))
    as ([[m2 pids] start] & -> & _).
  - intros st x. apply populate_attribute_total.
  - simpl. rewrite length_imap, length_fmap. destruct sample; [done|simpl; lia].
  - simpl. eauto.
Qed.

Lemma transform_collider_total (pose : Matrix F) (m : CollisionManager)
    (i : nat) :
  i < length (colliders m) →
  ∃ m', transform_collider pose m i = Ok m'
        ∧ length (colliders m') = length (colliders m).
Proof.
  intros Hi. unfold transform_collider, index.
  destruct (lookup_lt_is_Some_2 _ _ Hi) as [c ->]. simpl.
  eexists. split; [reflexivity|]. simpl. by rewrite length_alter.
Qed.

Lemma update_colliders_total (m : CollisionManager) (pose : Matrix F)
    (sids pids : list nat) (nodes : list Node) :
  (∀ t, t ∈ sids ∨ t ∈ pids → t < length (colliders m)) →
  ∃ m', update_colliders m pose sids nodes pids = Ok m'
        ∧ length (colliders m') = length (colliders m).
Proof.
  intros Hids. unfold update_colliders.
  assert (H1 : ∃ m1, for_each sids (transform_collider pose) m = Ok m1
                     ∧ length (colliders m1) = length (colliders m)).
  { clear nodes. revert m Hids.
    induction sids as [|i sids IH]; intros m Hids; simpl; [eauto|].
    destruct (transform_collider_total pose m i) as (m' & -> & Hl).
    { apply Hids. left. by left. }
    simpl. destruct (IH m') as (m1 & -> & Hl1).
    { intros t [Ht|Ht]; rewrite Hl; apply Hids; [left; by right|by right]. }
    exists m1. split; [done|congruence]. }
  destruct H1 as (m1 & -> & Hl1). simpl.
  assert (H2 : ∀ (l : list (nat * Node)) m1,
            (∀ x, x ∈ l → x.1 < length (colliders m1)) →
            ∃ m2, for_each l
                    (fun m' '(i, node) =>
                       transform_collider (node_transform node) m' i) m1
                  = Ok m2
                  ∧ length (colliders m2) = length (colliders m1)).
  { induction l as [|[i node] l IH]; intros m2 Hl; simpl; [eauto|].
    destruct (transform_collider_total (node_transform node) m2 i)
      as (m' & -> & Hl').
    { apply (Hl (i, node)). by left. }
    simpl. destruct (IH m') as (m3 & -> & Hl3).
    { intros x Hx. rewrite Hl'. apply Hl. by right. }
    exists m3. split; [done|congruence]. }
  destruct (H2 (zip pids nodes) m1) as (m2 & -> & Hl2).
  { intros [i node] Hin. simpl. rewrite Hl1. apply Hids. right.
    apply list_elem_of_lookup in Hin as [k Hk].
    apply lookup_zip_with_Some in Hk as (i' & n' & [= <- <-] & Hi & _).
    by apply list_elem_of_lookup_2 in Hi. }
  simpl. exists (createAABBSets m2). split; [done|]. simpl. congruence.
Qed.


Lemma erase_put_shared (sh : Shared F) (x : QItem F) :
  put (erase_shared sh) (erase_item x) = erase_shared <$> put sh x.
Proof.
  unfold put, erase_shared. simpl. rewrite length_fmap.
  destruct (length (queue sh) <? maxsize sh); [|done].
  simpl. unfold with_queue. simpl. by rewrite fmap_app.
Qed.

Lemma erase_execute_path_length (sh : Shared F) (a : Args) (ij : nat * nat)
    (pose : Matrix F) :
  execute_path_length (erase_shared sh) (erase_args a) ij pose
  = match execute_path_length sh a ij pose with
    | Ok (sh', len) => Ok (erase_shared sh', len)
    | Raise e => Raise e
    end.
Proof.
  unfold execute_path_length.
  change (wants_path_length (erase_args a)) with (wants_path_length a).
  destruct (wants_path_length a); [|done].
  change (a_sample (erase_args a)) with (take 1 (a_sample a)).
  assert (index (take 1 (a_sample a)) 0 = index (a_sample a) 0) as ->.
  { by destruct (a_sample a). }
  destruct (index (a_sample a) 0) as [first|e]; [|done]. simpl.
  destruct (path_length_calculation _ _ _ _) as [row|e]; [|done]. simpl.
  destruct (path_lengths sh) as [b|]; [|done]. simpl.
  destruct (store_row _ row) as [r|e]; done.
Qed.

Lemma erase_execute_pose (sh : Shared F) (w : Worker) (ij : nat * nat)
    (sol : Solution F) :
  execute_pose (erase_shared sh) (erase_worker w) ij sol
  = match execute_pose sh w ij sol with
    | Ok (sh', p, pose, len) => Ok (erase_shared sh', p, pose, len)
    | Raise e => Raise e
    end.
Proof.
  unfold execute_pose.
  change (w_positioner (erase_worker w)) with (w_positioner w).
  destruct (fkine (w_positioner w) sol.1.1) as [[p fk]|e]; [|done].
  cbn [mbind res_bind].
  change (w_args (erase_worker w)) with (erase_args (w_args w)).
  rewrite erase_execute_path_length.
  by destruct (execute_path_length sh (w_args w) ij
                 (matmul44 fk (tool_link p))) as [[sh' len]|e].
Qed.

Lemma erase_execute_init (sh : Shared F) (w : Worker) :
  a_sample (w_args w) ≠ [] →
  match execute_init sh w with
  | Ok w1 =>
      execute_init (erase_shared sh) (erase_worker w) = Ok (erase_worker w1)
      ∧ collision_ready w1
  | Raise _ =>
      ∃ e, execute_init (erase_shared sh) (erase_worker w) = Raise e
  end.
Proof.
  intros Hsample. unfold execute_init.
  change (w_args (erase_worker w)) with (erase_args (w_args w)).
  change (wants_path_length (erase_args (w_args w)))
    with (wants_path_length (w_args w)).
  change (path_lengths (erase_shared sh)) with (path_lengths sh).
  destruct (if wants_path_length (w_args w)
            then match path_lengths sh with
                 | Some _ => Ok ()
                 | None => Raise KeyError
                 end
            else Ok ()) as [u|e]; [|by eexists].
  cbn [mbind res_bind].
  change (a_check_collision (erase_args (w_args w))) with false.
  destruct (a_check_collision (w_args w)) eqn:Hcheck.
  - destruct (populate_collision_manager_total
                (new_manager (a_scene_size (w_args w))) (a_sample (w_args w))
                identity (a_instrument_scene (w_args w)) Hsample)
      as ([[m sids] pids] & Hpop).
    rewrite Hpop. cbn [mbind res_bind]. split; [done|].
    split; [done|]. simpl.
    apply populate_collision_manager_Ok in Hpop as (_ & _ & _ & Hids). done.
  - cbn [mbind res_bind]. split; [done|]. split; [done|]. simpl. by left.
Qed.

Lemma execute_collision_total (w : Worker) (pose : Matrix F) :
  collision_ready w → pc w ≠ PcInit → pc w ≠ PcCrashed →
  ∃ mgr mask,
    execute_collision w pose = Ok (mgr, mask)
    ∧ match mgr with
      | Some (m, sids, pids) =>
          ∀ t, t ∈ sids ∨ t ∈ pids → t < length (colliders m)
      | None => a_check_collision (w_args w) = false
      end.
Proof.
  intros [_ Hmgr] Hn1 Hn2. unfold execute_collision.
  destruct (a_check_collision (w_args w)) eqn:Hcheck.
  - destruct (w_manager w) as [[[m sids] pids]|].
    + destruct (update_colliders_total m pose sids pids
                  (model_children (w_positioner w)) Hmgr) as (m' & -> & Hl).
      simpl. eexists _, _. split; [reflexivity|]. simpl.
      intros t Ht. rewrite Hl. by apply Hmgr.
    + by destruct Hmgr as [?|[?|?]].
  - eexists _, _. split; [reflexivity|].
    destruct (w_manager w) as [[[m sids] pids]|]; done.
Qed.


Lemma collision_ready_keep (w w' : Worker) :
  collision_ready w → pc w ≠ PcInit →
  w_args w' = w_args w → w_manager w' = w_manager w →
  (pc w = PcCrashed → pc w' = PcCrashed) →
  collision_ready w'.
Proof.
  intros [Hs Hm] Hn Ha Hmgr Hc. unfold collision_ready.
  rewrite Ha, Hmgr. split; [done|].
  destruct (w_manager w) as [[[m sids] pids]|]; [done|].
  destruct Hm as [?|[?|?]]; [by left|done|right; right; auto].
Qed.

Ltac erase_head Epc :=
  unfold execute_step;
  match goal with
  | |- context [pc (erase_worker ?w)] =>
      change (pc (erase_worker w)) with (erase_pc (pc w)); rewrite Epc;
      cbn [erase_pc]
  end.

Lemma erase_execute_step (sh sh' : Shared F) (w w' : Worker) :
  collision_ready w → execute_step sh w = (sh', w') →
  execute_step (erase_shared sh) (erase_worker w)
  = (erase_shared sh', erase_worker w')
  ∧ collision_ready w'.
Proof.
  intros Hready Hstep.
  destruct (pc w) as [|i|i ij sol|i ij sol|i ij sol pose len
                      |i ij sol pose len|i ij sol len mask
                      |i ij sol len mask| | |] eqn:Epc.
  - erase_head Epc. unfold execute_step in Hstep. rewrite Epc in Hstep.
    pose proof (erase_execute_init sh w (proj1 Hready)) as Hinit.
    destruct (execute_init sh w) as [w1|e].
    + destruct Hinit as [-> Hr1]. by injection Hstep as <- <-.
    + destruct Hinit as [e' ->]. injection Hstep as <- <-.
      split; [done|]. destruct Hready as [Hs Hm]. split; [done|]. simpl.
      destruct (w_manager w) as [[[m sids] pids]|]; auto.
  - erase_head Epc. unfold execute_step in Hstep. rewrite Epc in Hstep.
    change (w_order (erase_worker w)) with (w_order w).
    destruct (w_order w !! i) as [ij|].
    + change (execute_solve (erase_worker w) ij) with (execute_solve w ij).
      destruct (execute_solve w ij) as [[p sol]|e];
        injection Hstep as <- <-; (split; [done|]);
        apply (collision_ready_keep w); auto; by rewrite Epc.
    + injection Hstep as <- <-. split; [done|].
      apply (collision_ready_keep w); auto; by rewrite Epc.
  - erase_head Epc. unfold execute_step in Hstep. rewrite Epc in Hstep.
    injection Hstep as <- <-. unfold checkpoint.
    change (exit_event (erase_shared sh)) with (exit_event sh).
    destruct (exit_event sh); (split; [done|]);
      apply (collision_ready_keep w); auto; by rewrite Epc.
  - erase_head Epc. unfold execute_step in Hstep. rewrite Epc in Hstep.
    rewrite erase_execute_pose.
    destruct (execute_pose sh w ij sol) as [[[[sh1 p] pose] len]|e];
      injection Hstep as <- <-; (split; [done|]);
      apply (collision_ready_keep w); auto; by rewrite Epc.
  - erase_head Epc. unfold execute_step in Hstep. rewrite Epc in Hstep.
    injection Hstep as <- <-. unfold checkpoint.
    change (exit_event (erase_shared sh)) with (exit_event sh).
    destruct (exit_event sh); (split; [done|]);
      apply (collision_ready_keep w); auto; by rewrite Epc.
  - erase_head Epc. unfold execute_step in Hstep. rewrite Epc in Hstep.
    destruct (execute_collision_total w pose Hready)
      as (mgr & mask & Hcoll & Hmgr); [by rewrite Epc..|].
    rewrite Hcoll in Hstep. injection Hstep as <- <-.
    split; [done|]. destruct Hready as [Hs _]. split; [done|]. simpl.
    destruct mgr as [[[m sids] pids]|]; auto.
  - erase_head Epc. unfold execute_step in Hstep. rewrite Epc in Hstep.
    injection Hstep as <- <-. unfold checkpoint.
    change (exit_event (erase_shared sh)) with (exit_event sh).
    destruct (exit_event sh); (split; [done|]);
      apply (collision_ready_keep w); auto; by rewrite Epc.
  - erase_head Epc. unfold execute_step in Hstep. rewrite Epc in Hstep.
    change (QResult (make_result (erase_worker w) i ij sol len None))
      with (erase_item (QResult (make_result w i ij sol len mask))).
    rewrite erase_put_shared.
    destruct (put sh _) as [sh1|]; injection Hstep as <- <-; simpl.
    + split; [|apply (collision_ready_keep w); auto; by rewrite Epc].
      unfold erase_worker. simpl. by rewrite fmap_app.
    + split; [|done]. unfold erase_worker. by rewrite Epc.
  - erase_head Epc. unfold execute_step in Hstep. rewrite Epc in Hstep.
    change (put (erase_shared sh) (QString "Error"))
      with (put (erase_shared sh) (erase_item (QString "Error"))).
    rewrite erase_put_shared.
    destruct (put sh _) as [sh1|]; injection Hstep as <- <-; simpl.
    + split; [|apply (collision_ready_keep w); auto; by rewrite Epc].
      unfold erase_worker. simpl. by rewrite fmap_app.
    + split; [|done]. unfold erase_worker. by rewrite Epc.
  - erase_head Epc. unfold execute_step in Hstep. rewrite Epc in Hstep.
    injection Hstep as <- <-. split; [|done].
    unfold erase_worker. by rewrite Epc.
  - erase_head Epc. unfold execute_step in Hstep. rewrite Epc in Hstep.
    injection Hstep as <- <-. split; [|done].
    unfold erase_worker. by rewrite Epc.
Qed.


Lemma erase_drain (items : list (QItem F)) :
  drain (erase_item <$> items)
  = (fun gb : list (QItem F) * list (QItem F) =>
       (erase_item <$> gb.1, erase_item <$> gb.2)) <$> drain items.
Proof.
  induction items as [|x items IH]; [done|].
  rewrite fmap_cons. destruct x as [r|str|]; simpl; [| |done].
  - rewrite IH. by destruct (drain items) as [[g b]|].
  - rewrite IH. by destruct (drain items) as [[g b]|].
Qed.

Lemma erase_terminated (w : Worker) :
  terminated (erase_worker w) = terminated w.
Proof. unfold terminated. simpl. by destruct (pc w). Qed.

Lemma erase_CheckResult (s : Simulation) :
  CheckResult (erase s)
  = match CheckResult s with
    | Ok s' => Ok (erase s')
    | Raise e => Raise e
    end.
Proof.
  unfold CheckResult.
  change (queue (shared (erase s))) with (erase_item <$> queue (shared s)).
  destruct (queue (shared s)) as [|x items] eqn:Hq; [done|].
  rewrite fmap_cons. unfold is_alive.
  change (process (erase s)) with (erase_worker <$> process s).
  destruct (process s) as [w|] eqn:Hp; [|done].
  cbn [fmap option_fmap option_map mbind res_bind].
  rewrite erase_terminated.
  set (s1 := if negb (terminated w) then s else with_timer s false).
  assert ((if negb (terminated w) then erase s else with_timer (erase s) false)
          = erase s1) as ->.
  { unfold s1. by destruct (negb (terminated w)). }
  change (shared (erase s1)) with (erase_shared (shared s1)).
  change QNone with (erase_item (F:=F) QNone) at 1.
  rewrite erase_put_shared.
  destruct (put (shared s1) QNone) as [sh|]; [|done].
  cbn [fmap option_fmap option_map].
  change (queue (erase_shared sh)) with (erase_item <$> queue sh).
  rewrite erase_drain.
  destruct (drain (queue sh)) as [[got behind]|]; [|done].
  simpl. unfold erase, deliver. simpl. by rewrite fmap_app.
Qed.

Lemma poll_process (s : Simulation) : process (step s Poll) = process s.
Proof.
  simpl. destruct (timer_active s && negb (blocked s)); [|done].
  unfold CheckResult. destruct (queue (shared s)); [done|].
  unfold is_alive. destruct (process s) as [w|] eqn:Hp; [|done].
  simpl.
  destruct (negb (terminated w)); simpl;
    (destruct (put _ _) as [sh|]; [|done]);
    by destruct (drain (queue sh)) as [[got behind]|].
Qed.

Lemma erase_step (s : Simulation) (a : Action) :
  InvErase s → erase (step s a) = step (erase s) a ∧ InvErase (step s a).
Proof.
  intros (w & Hp & Hready). destruct a.
  - simpl. rewrite Hp. simpl.
    destruct (execute_step (shared s) w) as [sh' w'] eqn:Hstep.
    destruct (erase_execute_step _ _ _ _ Hready Hstep) as [Herase Hready'].
    change (shared (erase s)) with (erase_shared (shared s)).
    unfold erase at 2. simpl. rewrite Hp. simpl. rewrite Herase.
    split; [done|]. by exists w'.
  - split; [|exists w; by rewrite poll_process].
    simpl. change (timer_active (erase s)) with (timer_active s).
    change (blocked (erase s)) with (blocked s).
    destruct (timer_active s && negb (blocked s)); [|done].
    rewrite erase_CheckResult. by destruct (CheckResult s).
  - simpl. change (blocked (erase s)) with (blocked s).
    destruct (blocked s); (split; [done|by exists w]).
Qed.

Lemma erase_run (schedule : list Action) (s : Simulation) :
  InvErase s → erase (run schedule s) = run schedule (erase s).
Proof.
  revert s. induction schedule as [|a schedule IH]; intros s Hs; [done|].
  simpl. destruct (erase_step s a Hs) as [<- Hs']. by apply IH.
Qed.


Lemma erase_apply_setter_eq (s : Simulation) (x : Setter) :
  erase (apply_setter s x)
  = match x with
    | SetCheckCollision _ => erase s
    | _ => apply_setter (erase s) x
    end.
Proof. by destruct x as [[]|v|v|v]. Qed.

Lemma erase_apply_setter (s1 s2 : Simulation) (x : Setter) :
  erase s1 = erase s2 → erase (apply_setter s1 x) = erase (apply_setter s2 x).
Proof. intros Heq. by rewrite !erase_apply_setter_eq, Heq. Qed.

Lemma erase_configure (setters : list Setter) (s1 s2 : Simulation) :
  erase s1 = erase s2 →
  erase (configure setters s1) = erase (configure setters s2).
Proof.
  unfold configure. revert s1 s2.
  induction setters as [|x setters IH]; intros s1 s2 Heq; [done|].
  simpl. apply IH. by apply erase_apply_setter.
Qed.

Lemma erase_Simulation_init settings instrument key1 key2 (mesh : Mesh)
    rest1 rest2 (points : list (Vec3 F * bool)) (vectors : ndarray3 F)
    alignment sim1 sim2 :
  Simulation_init settings instrument ((key1, mesh) :: rest1) points vectors
    alignment = Ok sim1 →
  Simulation_init settings instrument ((key2, mesh) :: rest2) points vectors
    alignment = Ok sim2 →
  erase sim1 = erase sim2
  ∧ a_sample (args sim1) ≠ [] ∧ a_sample (args sim2) ≠ [].
Proof.
  unfold Simulation_init.
  intros (v1 & Hv1 & (v2 & Hv2 & [= <-])%bind_Ok)%bind_Ok.
  rewrite Hv1. simpl. rewrite Hv2. simpl. intros [= <-]. done.
Qed.

Lemma InvErase_start (s : Simulation) :
  a_sample (args s) ≠ [] → InvErase (start s).
Proof.
  intros Hs. exists (spawn (args s)). split; [done|]. split; [done|].
  simpl. right. by left.
Qed.

Lemma put_path_length_erase (l : list (option (nat * nat) * QItem F)) :
  put_path_length <$> (erase_put <$> l) = put_path_length <$> l.
Proof.
  rewrite <- list_fmap_compose. apply list_fmap_ext.
  intros i [t [r|str|]] _; done.
Qed.

Lemma result_path_length_erase (l : list (QItem F)) :
  result_path_length <$> (erase_item <$> l) = result_path_length <$> l.
Proof.
  rewrite <- list_fmap_compose. apply list_fmap_ext.
  intros i [r|str|] _; done.
Qed.

Lemma execute_path_length_measured (sh sh' : Shared F) (args : Args)
    (ij : nat * nat) (pose : Matrix F) (len : option (list F)) :
  execute_path_length sh args ij pose = Ok (sh', len) →
  if wants_path_length args then
    ∃ first l, a_sample args !! 0 = Some first
               ∧ path_length_calculation (mesh_transformed first pose)
                   (a_gauge_volume args) (a_beam_axis args) (a_diff_axis args)
                 = Ok l
               ∧ len = Some l
  else len = None.
Proof.
  unfold execute_path_length. destruct (wants_path_length args).
  - intros (m & Hm & (l & Hl & (b & _ & (r & _ & [= _ <-])%bind_Ok)%bind_Ok)
                       %bind_Ok)%bind_Ok.
    exists m, l. split_and!; auto.
    unfold index in Hm. by destruct (a_sample args !! 0); simplify_eq.
  - by intros [= _ <-].
Qed.

Lemma measure_step (sh sh' : Shared F) (w w' : Worker) :
  execute_step sh w = (sh', w') → measure_inv w → measure_inv w'.
Proof.
  intros Hstep [Hputs Hpc].
  pose proof (execute_step_path _ _ _ _ Hstep) as [Ha _].
  unfold measure_inv. rewrite Ha. clear Ha.
  unfold execute_step in Hstep.
  destruct (pc w) as [|i|i ij sol|i ij sol|i ij sol pose len
                      |i ij sol pose len|i ij sol len mask
                      |i ij sol len mask| | |] eqn:Epc.
  - destruct (execute_init sh w) as [w1|e] eqn:Hinit.
    + apply execute_init_Ok in Hinit as (mgr & -> & _).
      injection Hstep as <- <-. simpl. split; auto; done.
    + injection Hstep as <- <-. simpl. split; auto; done.
  - destruct (w_order w !! i) as [ij|] eqn:Hij.
    + destruct (execute_solve w ij) as [[p sol]|e] eqn:Hsolve;
        injection Hstep as <- <-; simpl; split; auto; done.
    + injection Hstep as <- <-. simpl. split; auto; done.
  - injection Hstep as <- <-. unfold checkpoint.
    destruct (exit_event sh); simpl; split; auto; done.
  - destruct (execute_pose sh w ij sol) as [[[[sh1 p] pose] len]|e] eqn:Hpose;
      injection Hstep as <- <-; simpl; (split; [done|]); [|done].
    unfold execute_pose in Hpose.
    apply bind_Ok in Hpose as ([p' fk] & Hfk & Hpose). simpl in Hpose.
    apply bind_Ok in Hpose as ([sh2 l2] & Hpl & [= <- <- <- <-]).
    apply execute_path_length_measured in Hpl.
    intros joints len' [= <- <-]. unfold measured.
    destruct (wants_path_length (w_args w)); [|done].
    destruct Hpl as (first & l & Hfirst & Hl & ->).
    by exists first, (w_positioner w), p', fk, l.
  - injection Hstep as <- <-. unfold checkpoint.
    destruct (exit_event sh); simpl; (split; [done|]); [done|].
    intros joints len' [= <- <-]. by apply Hpc.
  - destruct (execute_collision w pose) as [[mgr mask]|e] eqn:Hcoll;
      injection Hstep as <- <-; simpl; (split; [done|]); [|done].
    intros joints len' [= <- <-]. by apply Hpc.
  - injection Hstep as <- <-. unfold checkpoint.
    destruct (exit_event sh); simpl; (split; [done|]); [done|].
    intros joints len' [= <- <-]. by apply Hpc.
  - destruct (put sh _) as [sh1|] eqn:Hput.
    + apply put_Some in Hput as [_ ->]. injection Hstep as <- <-. simpl.
      split; [|done].
      intros k r [Hin|Hin%list_elem_of_singleton]%elem_of_app.
      * by apply (Hputs k).
      * injection Hin as -> ->. simpl. by apply Hpc.
    + injection Hstep as <- <-. rewrite Epc. by split.
  - destruct (put sh _) as [sh1|] eqn:Hput.
    + apply put_Some in Hput as [_ ->]. injection Hstep as <- <-. simpl.
      split; [|done].
      intros k r [Hin|Hin%list_elem_of_singleton]%elem_of_app.
      * by apply (Hputs k).
      * done.
    + injection Hstep as <- <-. rewrite Epc. by split.
  - injection Hstep as <- <-. rewrite Epc. by split.
  - injection Hstep as <- <-. rewrite Epc. by split.
Qed.

Lemma measure_run (schedule : list Action) (s : Simulation) :
  (∃ w, process s = Some w ∧ measure_inv w) →
  ∃ w, process (run schedule s) = Some w ∧ measure_inv w.
Proof.
  revert s. induction schedule as [|a schedule IH]; intros s HP; [done|].
  simpl. apply IH. destruct HP as (w & Hp & HP). destruct a.
  - simpl. rewrite Hp.
    destruct (execute_step (shared s) w) as [sh' w'] eqn:Hstep.
    exists w'. split; [done|]. by eapply measure_step.
  - exists w. by rewrite poll_process.
  - exists w. simpl. by destruct (blocked s).
Qed.

Lemma apply_setter_instrument (s : Simulation) (x : Setter) :
  a_gauge_volume (args (apply_setter s x)) = a_gauge_volume (args s)
  ∧ a_beam_axis (args (apply_setter s x)) = a_beam_axis (args s)
  ∧ a_diff_axis (args (apply_setter s x)) = a_diff_axis (args s).
Proof. by destruct x as [[]|v|v|v]. Qed.

Lemma configure_instrument (setters : list Setter) (s : Simulation) :
  a_gauge_volume (args (configure setters s)) = a_gauge_volume (args s)
  ∧ a_beam_axis (args (configure setters s)) = a_beam_axis (args s)
  ∧ a_diff_axis (args (configure setters s)) = a_diff_axis (args s).
Proof.
  unfold configure. revert s.
  induction setters as [|x setters IH]; intros s; [done|].
  simpl. destruct (IH (apply_setter s x)) as (-> & -> & ->).
  apply apply_setter_instrument.
Qed.

(** C10: whatever the sample holds after its first mesh, the path
    length of every result the Worker puts, and of every result the
    Controller holds, is measured on the first mesh alone: with
    [compute_path_length] set and the beam in the gauge volume it is
    present and is what [path_length_calculation] returned for the first
    mesh, transformed by the alignment matrix and then by the pose of the
    result's joint offsets; otherwise it is absent.  And without collision
    checking two configurations that agree on everything but the sample
    meshes after the first one yield, under every schedule, the same
    path-length buffer, the same path length in every item the Worker
    puts, task by task, and the same path lengths in the Controller's
    result list. *)
Theorem C10_only_first_mesh (settings : Settings F) (instrument : Instrument)
    (key1 key2 : string) (mesh : Mesh) (rest1 rest2 : list (string * Mesh))
    (points : list (Vec3 F * bool)) (vectors : ndarray3 F)
    (alignment : Matrix F) (sim1 sim2 : Simulation) (setters : list Setter)
    (schedule : list Action) :
  Simulation_init settings instrument ((key1, mesh) :: rest1) points vectors
    alignment = Ok sim1 →
  Simulation_init settings instrument ((key2, mesh) :: rest2) points vectors
    alignment = Ok sim2 →
  (∀ k r,
     (k, QResult r) ∈ puts (run schedule (start (configure setters sim1))) →
     measures_first_mesh instrument mesh alignment
       (wants_path_length (args (configure setters sim1))) r)
  ∧ (∀ r,
       QResult r ∈ results (run schedule (start (configure setters sim1))) →
       measures_first_mesh instrument mesh alignment
         (wants_path_length (args (configure setters sim1))) r)
  ∧ (a_check_collision (args (configure setters sim1)) = false →
     buffer (run schedule (start (configure setters sim1)))
     = buffer (run schedule (start (configure setters sim2)))
     ∧ put_path_length <$> puts (run schedule (start (configure setters sim1)))
       = put_path_length
           <$> puts (run schedule (start (configure setters sim2)))
     ∧ result_path_length
         <$> results (run schedule (start (configure setters sim1)))
       = result_path_length
           <$> results (run schedule (start (configure setters sim2)))).
Proof.
  intros H1 H2.
  assert (Hputs : ∀ k r,
             (k, QResult r)
               ∈ puts (run schedule (start (configure setters sim1))) →
             measures_first_mesh instrument mesh alignment
               (wants_path_length (args (configure setters sim1))) r).
  { assert (Hfields : a_sample (args sim1) !! 0
                      = Some (mesh_transformed mesh alignment)
                      ∧ a_gauge_volume (args sim1) = gauge_volume instrument
                      ∧ a_beam_axis (args sim1) = beam_direction instrument
                      ∧ a_diff_axis (args sim1) = snd <$> detectors instrument).
    { unfold Simulation_init in H1.
      apply bind_Ok in H1 as (v1 & _ & (v2 & _ & [= <-])%bind_Ok). done. }
    destruct Hfields as (Hfirst & Hgauge & Hbeam & Hdiff).
    destruct (configure_frame setters sim1) as (_ & _ & _ & _ & Hs).
    destruct (configure_instrument setters sim1) as (Hg & Hb & Hd).
    destruct (measure_run schedule (start (configure setters sim1)))
      as (w & Hp & Hm & _).
    { exists (spawn (args (configure setters sim1))). split; [done|].
      split; [by intros k r ?%elem_of_nil | done]. }
    apply Simulation_init_Ok in H1 as (_ & _ & _ & Hready).
    apply (configure_ready setters) in Hready.
    pose proof (Inv_run schedule _ (Inv_start _ Hready))
      as (w' & Hp' & _ & Ha & _).
    rewrite Hp in Hp'. injection Hp' as <-.
    destruct (run_args schedule (start (configure setters sim1)))
      as (Hargs & _).
    rewrite Hargs in Ha. simpl in Ha.
    unfold puts. rewrite Hp. intros k r Hin.
    specialize (Hm k r Hin). unfold measured in Hm.
    unfold measures_first_mesh. rewrite Ha in Hm.
    destruct (wants_path_length (args (configure setters sim1))); [|done].
    destruct Hm as (first & p & p' & fk & l & Hf & Hfk & Hl & Hlen).
    rewrite Hs, Hfirst in Hf. injection Hf as <-.
    rewrite Hg, Hb, Hd, Hgauge, Hbeam, Hdiff in Hl.
    exists l. split; [done|]. by exists p, p', fk. }
  split; [exact Hputs|]. split.
  { intros r Hin.
    pose proof H1 as Hready.
    apply Simulation_init_Ok in Hready as (_ & _ & _ & Hready).
    apply (configure_ready setters) in Hready.
    pose proof (Inv_run schedule _ (Inv_start _ Hready))
      as (w & Hp & _ & _ & _ & _ & Hq & _).
    assert (Hin' : QResult r
                   ∈ snd <$> puts (run schedule
                                     (start (configure setters sim1)))).
    { unfold puts. rewrite Hp, <- Hq. apply elem_of_app. by left. }
    apply list_elem_of_fmap in Hin' as ([k x] & Hx & Hin'). simpl in Hx.
    subst x. by apply (Hputs k). }
  intros _.
  destruct (erase_Simulation_init _ _ _ _ _ _ _ _ _ _ _ _ H1 H2)
    as (Heq & Hs1 & Hs2).
  apply (erase_configure setters) in Heq.
  destruct (configure_frame setters sim1) as (_ & _ & _ & _ & Hf1).
  destruct (configure_frame setters sim2) as (_ & _ & _ & _ & Hf2).
  rewrite <- Hf1 in Hs1. rewrite <- Hf2 in Hs2.
  pose proof (erase_run schedule _ (InvErase_start _ Hs1)) as Hr1.
  pose proof (erase_run schedule _ (InvErase_start _ Hs2)) as Hr2.
  assert (Hstart : erase (start (configure setters sim1))
                   = erase (start (configure setters sim2))).
  { change (erase (start (configure setters sim1)))
      with (start (erase (configure setters sim1))).
    change (erase (start (configure setters sim2)))
      with (start (erase (configure setters sim2))).
    by rewrite Heq. }
  rewrite Hstart, <- Hr2 in Hr1.
  set (f1 := run schedule (start (configure setters sim1))) in *.
  set (f2 := run schedule (start (configure setters sim2))) in *.
  pose proof (f_equal (fun s => path_lengths (shared s)) Hr1) as Hpl.
  pose proof (f_equal results Hr1) as Hres.
  pose proof (f_equal (fun s => w_put <$> process s) Hr1) as Hproc.
  simpl in Hpl, Hres, Hproc.
  split_and!.
  - unfold buffer. by rewrite Hpl.
  - unfold puts.
    destruct (process f1) as [w1|], (process f2) as [w2|]; try done.
    simpl in Hproc. injection Hproc as Hput.
    by rewrite <- (put_path_length_erase (w_put w1)), Hput,
      put_path_length_erase.
  - by rewrite <- (result_path_length_erase (results f1)), Hres,
      result_path_length_erase.
Qed.

End Proofs.

(** ** Further properties of the module *)

Section Coverage.
Context {F : Type} `{!Float F} `{!Externals F}.

(** What is known of every state a constructed, configured and started
    simulation can reach. *)
Lemma reachable (settings : Settings F) (instrument : Instrument)
    (sample : list (string * Mesh)) (points : list (Vec3 F * bool))
    (vectors : ndarray3 F) (alignment : Matrix F) (sim : Simulation)
    (setters : list Setter) (schedule : list Action) :
  Simulation_init settings instrument sample points vectors alignment = Ok sim →
  Inv (run schedule (start (configure setters sim)))
  ∧ ∃ w, process (run schedule (start (configure setters sim))) = Some w
         ∧ w_args w = args (configure setters sim)
         ∧ w_shape w = shape sim
         ∧ a_align_first_order (w_args w) = Align_First settings
         ∧ tasks_total w = count sim
         ∧ count (run schedule (start (configure setters sim))) = count sim.
Proof.
  intros Hinit.
  assert (Halign : a_align_first_order (args sim) = Align_First settings).
  { unfold Simulation_init in Hinit.
    apply bind_Ok in Hinit as (v1 & _ & (v2 & _ & [= <-])%bind_Ok). done. }
  apply Simulation_init_Ok in Hinit as (_ & _ & _ & Hready).
  destruct (configure_frame setters sim) as (Hc & Hs & Hal & Hv & _).
  pose proof (configure_ready setters _ Hready) as Hready'.
  pose proof (Inv_run schedule _ (Inv_start _ Hready')) as HInv.
  split; [exact HInv|].
  destruct Hready' as (_ & _ & _ & _ & _ & Hshape0 & _).
  destruct (run_args schedule (start (configure setters sim)))
    as (Hargs & Hcount & _).
  destruct HInv as (w & Hp & _ & Ha & Hcw & _).
  exists w. rewrite Ha, Hargs. simpl.
  split; [done|]. split; [done|].
  assert (Hshape : w_shape w = shape sim).
  { unfold w_shape. rewrite Ha, Hargs. simpl. by rewrite <- Hs, Hshape0. }
  split; [done|]. split; [by rewrite Hal|].
  rewrite <- Hcw, Hcount. simpl. by rewrite Hc.
Qed.

(** X1: in every state of every run the entries the Controller has
    collected, followed by what is waiting in the queue, are exactly the
    items the Worker has put, in the order it put them: nothing is lost,
    duplicated or reordered on the way, and the [None] that bounds a
    drain never shows up among them. *)
Theorem results_are_the_puts (settings : Settings F) (instrument : Instrument)
    (sample : list (string * Mesh)) (points : list (Vec3 F * bool))
    (vectors : ndarray3 F) (alignment : Matrix F) (sim : Simulation)
    (setters : list Setter) (schedule : list Action) :
  Simulation_init settings instrument sample points vectors alignment = Ok sim →
  results (run schedule (start (configure setters sim)))
    ++ queue (shared (run schedule (start (configure setters sim))))
  = snd <$> puts (run schedule (start (configure setters sim)))
  ∧ Forall (fun x => is_none x = false)
           (results (run schedule (start (configure setters sim)))
              ++ queue (shared (run schedule (start (configure setters sim))))).
Proof.
  intros [HInv _]%(reachable _ _ _ _ _ _ _ setters schedule).
  destruct HInv as (w & Hp & _ & _ & _ & _ & Hq & Hnn & _).
  unfold puts. rewrite Hp, Hq. split; [done|].
  apply Forall_fmap. eapply Forall_impl; [exact Hnn|]. done.
Qed.

(** X2: the queue is created with room for one entry more than there are
    tasks, and the Worker never puts more entries than tasks: so in every
    state of every run the queue has a free slot, neither the Worker's
    [put] nor the [put(None)] of a poll can block, and the Controller
    never holds more entries than the task count announced at
    construction. *)
Theorem queue_never_full (settings : Settings F) (instrument : Instrument)
    (sample : list (string * Mesh)) (points : list (Vec3 F * bool))
    (vectors : ndarray3 F) (alignment : Matrix F) (sim : Simulation)
    (setters : list Setter) (schedule : list Action) :
  Simulation_init settings instrument sample points vectors alignment = Ok sim →
  blocked (run schedule (start (configure setters sim))) = false
  ∧ maxsize (shared (run schedule (start (configure setters sim))))
    = count sim + 1
  ∧ length (puts (run schedule (start (configure setters sim)))) ≤ count sim
  ∧ length (results (run schedule (start (configure setters sim))))
    + length (queue (shared (run schedule (start (configure setters sim)))))
    ≤ count sim
  ∧ ∀ x, is_Some (put (shared (run schedule (start (configure setters sim))))
                      x).
Proof.
  intros (HInv & w' & Hp' & _ & _ & _ & Htot & _)
           %(reachable _ _ _ _ _ _ _ setters schedule).
  pose proof (Inv_queue _ HInv) as [_ Hfree].
  destruct HInv as (w & Hp & Hb & _ & _ & Hm & Hq & _ & Hlen & _).
  assert (w' = w) as -> by congruence.
  unfold puts. rewrite Hp, Hm, Htot in *.
  split; [done|]. split; [done|]. split; [done|]. split.
  - rewrite <- length_app, Hq, length_fmap. done.
  - intros x. rewrite (put_free _ x); [by eexists|]. rewrite Hm. lia.
Qed.

(** A property of the Worker's own state that every stage keeps holds in
    every state of a run. *)
Lemma worker_invariant (P : Worker → Prop) :
  (∀ sh sh' w w',
     execute_step sh w = (sh', w') → length (queue sh) < maxsize sh →
     order_known w → pc_inv sh w → P w → P w') →
  ∀ schedule s,
    Inv s → (∃ w, process s = Some w ∧ P w) →
    ∃ w, process (run schedule s) = Some w ∧ P w.
Proof.
  intros Hkeep schedule.
  induction schedule as [|a schedule IH]; intros s HInv HP; [done|].
  simpl. apply IH; [by apply Inv_step|].
  destruct HP as (w & Hp & HP). destruct a.
  - simpl. rewrite Hp.
    destruct (execute_step (shared s) w) as [sh' w'] eqn:Hstep.
    exists w'. split; [done|].
    pose proof (Inv_queue _ HInv) as [_ Hfree].
    destruct HInv as (w0 & Hp0 & _ & _ & _ & _ & _ & _ & _ & Ho & Hpc).
    assert (w0 = w) as -> by congruence.
    by eapply Hkeep.
  - exists w. by rewrite poll_process.
  - exists w. simpl. by destruct (blocked s).
Qed.

Lemma no_exception_app (l l' : list LogRecord) :
  existsb is_exception l = false → existsb is_exception l' = false →
  existsb is_exception (l ++ l') = false.
Proof. intros H1 H2. by rewrite existsb_app, H1, H2. Qed.

Lemma execute_step_fault (sh sh' : Shared F) (w w' : Worker) :
  execute_step sh w = (sh', w') → fault_inv w → fault_inv w'.
Proof.
  unfold execute_step, fault_inv, checkpoint.
  destruct (pc w) eqn:Epc; intros Hstep HJ.
  1: { destruct (execute_init sh w) as [w1|e] eqn:Hinit.
       - apply execute_init_Ok in Hinit as (mgr & -> & _).
         injection Hstep as <- <-. simpl.
         rewrite <- app_assoc. by apply no_exception_app.
       - injection Hstep as <- <-. simpl. by apply no_exception_app. }
  all: repeat (case_match; simplify_eq); simpl in *; auto;
    try (by apply no_exception_app);
    try (by rewrite existsb_app, HJ);
    try congruence;
    try (intros _; by rewrite last_snoc).
Qed.

Lemma fault_inv_run (schedule : list Action) (s : Simulation) :
  ready s →
  ∃ w, process (run schedule (start s)) = Some w ∧ fault_inv w.
Proof.
  intros Hready. apply (worker_invariant fault_inv).
  - intros sh sh' w w' Hstep _ _ _. by apply (execute_step_fault sh sh').
  - by apply Inv_start.
  - exists (spawn (args s)). done.
Qed.

(** X3: in every state of every run, aborted or faulted or not, the
    Worker has published results for the first [k] tasks of the task
    order, one each and in that order, for some [k] up to the task count,
    followed by nothing or by the single marker of the exception handler;
    every entry put for a task is a result and the only other entry there
    can be is the string ['Error']. *)
Theorem results_follow_task_order (settings : Settings F)
    (instrument : Instrument) (sample : list (string * Mesh))
    (points : list (Vec3 F * bool)) (vectors : ndarray3 F)
    (alignment : Matrix F) (sim : Simulation) (setters : list Setter)
    (schedule : list Action) :
  Simulation_init settings instrument sample points vectors alignment = Ok sim →
  (∃ k, k ≤ count sim
        ∧ (fst <$> puts (run schedule (start (configure setters sim)))
           = Some <$> take k (task_order (Align_First settings) (shape sim))
           ∨ fst <$> puts (run schedule (start (configure setters sim)))
             = (Some <$> take k (task_order (Align_First settings)
                                            (shape sim))) ++ [None]))
  ∧ (∀ t x, (t, x) ∈ puts (run schedule (start (configure setters sim))) →
            match t with
            | Some _ => is_result x = true
            | None => x = QString "Error"
            end).
Proof.
  intros (HInv & w' & Hp' & _ & Hshape & Halign & Htot & _)
           %(reachable _ _ _ _ _ _ _ setters schedule).
  destruct HInv as (w & Hp & _ & _ & _ & _ & _ & _ & _ & Ho & Hpc).
  assert (w' = w) as -> by congruence.
  unfold puts. rewrite Hp. rewrite <- Hshape, <- Halign, <- Htot.
  assert (Hfor : ∀ i, puts_for w i →
            ∀ t x, (t, x) ∈ w_put w →
                   match t with
                   | Some _ => is_result x = true
                   | None => x = QString "Error"
                   end).
  { intros i [Hfst Hall] t x Hin.
    pose proof (proj1 (Forall_forall _ _) Hall _ Hin) as Hres.
    destruct t as [t|]; [done|].
    assert (Hnone : None ∈ fst <$> w_put w).
    { apply list_elem_of_fmap. by exists (None, x). }
    rewrite Hfst in Hnone.
    apply list_elem_of_fmap in Hnone as (y & [=] & _). }
  assert (Hlen : pc w ≠ PcInit → pc w ≠ PcCrashed →
                 length (w_order w) = tasks_total w).
  { intros H1 H2. apply order_length. unfold order_known in Ho.
    by destruct (pc w). }
  unfold pc_inv, order_known in *.
  destruct (pc w) as [|i|i ij sol|i ij sol|i ij sol pose len
                      |i ij sol pose len|i ij sol len mask
                      |i ij sol len mask| | |] eqn:Epc.
  - destruct Hpc as [-> _]. split; [exists 0; split; [lia|by left]|].
    intros t x Hin. by apply elem_of_nil in Hin.
  - destruct Hpc as [Hputs Hi]. rewrite <- Ho. split; [|by eapply Hfor].
    exists i. rewrite <- Hlen by done. split; [done|]. left. apply Hputs.
  - destruct Hpc as [Hputs Hi%lookup_lt_Some]. rewrite <- Ho.
    split; [|by eapply Hfor].
    exists i. rewrite <- Hlen by done. split; [lia|]. left. apply Hputs.
  - destruct Hpc as [Hputs Hi%lookup_lt_Some]. rewrite <- Ho.
    split; [|by eapply Hfor].
    exists i. rewrite <- Hlen by done. split; [lia|]. left. apply Hputs.
  - destruct Hpc as [Hputs Hi%lookup_lt_Some]. rewrite <- Ho.
    split; [|by eapply Hfor].
    exists i. rewrite <- Hlen by done. split; [lia|]. left. apply Hputs.
  - destruct Hpc as [Hputs Hi%lookup_lt_Some]. rewrite <- Ho.
    split; [|by eapply Hfor].
    exists i. rewrite <- Hlen by done. split; [lia|]. left. apply Hputs.
  - destruct Hpc as [Hputs Hi%lookup_lt_Some]. rewrite <- Ho.
    split; [|by eapply Hfor].
    exists i. rewrite <- Hlen by done. split; [lia|]. left. apply Hputs.
  - destruct Hpc as [Hputs Hi%lookup_lt_Some]. rewrite <- Ho.
    split; [|by eapply Hfor].
    exists i. rewrite <- Hlen by done. split; [lia|]. left. apply Hputs.
  - destruct Hpc as (_ & k & Hputs & Hi). rewrite <- Ho.
    split; [|by eapply Hfor].
    exists k. rewrite <- Hlen by done. split; [lia|]. left. apply Hputs.
  - rewrite <- Ho.
    destruct Hpc as [(k & Hputs & Hi & _)|(_ & k & Hputs & Hi)].
    + split; [|by eapply Hfor].
      exists k. rewrite <- Hlen by done. split; [lia|]. left. apply Hputs.
    + destruct Hputs as (before & Heq & Hfst & Hall). split.
      * exists k. rewrite <- Hlen by done. split; [lia|]. right.
        by rewrite Heq, fmap_app, Hfst.
      * intros t x Hin. rewrite Heq in Hin.
        apply elem_of_app in Hin as [Hin|Hin%list_elem_of_singleton].
        -- pose proof (proj1 (Forall_forall _ _) Hall _ Hin) as Hres.
           destruct t as [t|]; [done|].
           assert (Hnone : None ∈ fst <$> before).
           { apply list_elem_of_fmap. by exists (None, x). }
           rewrite Hfst in Hnone.
           apply list_elem_of_fmap in Hnone as (y & [=] & _).
        -- by injection Hin as -> ->.
  - rewrite Hpc. split; [exists 0; split; [lia|by left]|].
    intros t x Hin. by apply elem_of_nil in Hin.
Qed.

(** X4: what a fault leaves behind.  An entry on the queue that is not a
    result is the string ['Error'], it is the last thing the Worker put,
    the Worker logged an exception and has returned; and a Worker that
    logged an exception and has terminated has put the marker after the
    results of the tasks that completed, so a fault inside the loop never
    goes unreported. *)
Theorem fault_puts_marker_last (settings : Settings F)
    (instrument : Instrument) (sample : list (string * Mesh))
    (points : list (Vec3 F * bool)) (vectors : ndarray3 F)
    (alignment : Matrix F) (sim : Simulation) (setters : list Setter)
    (schedule : list Action) :
  Simulation_init settings instrument sample points vectors alignment = Ok sim →
  (∀ t x, (t, x) ∈ puts (run schedule (start (configure setters sim))) →
          is_result x = false →
          last (puts (run schedule (start (configure setters sim))))
          = Some (None, QString "Error")
          ∧ (t, x) = (None, QString "Error")
          ∧ existsb is_exception
              (worker_log (run schedule (start (configure setters sim))))
            = true
          ∧ worker_returned (run schedule (start (configure setters sim)))
            = true)
  ∧ (existsb is_exception
       (worker_log (run schedule (start (configure setters sim)))) = true →
     worker_terminated (run schedule (start (configure setters sim))) = true →
     ∃ before,
       puts (run schedule (start (configure setters sim)))
       = before ++ [(None, QString "Error")]
       ∧ Forall (fun y => is_result y.2 = true) before).
Proof.
  intros Hinit.
  pose proof Hinit as (_ & _ & _ & Hready)%Simulation_init_Ok.
  apply (configure_ready setters) in Hready.
  destruct (fault_inv_run schedule _ Hready) as (w' & Hp' & HJ).
  apply (reachable _ _ _ _ _ _ _ setters schedule) in Hinit as [HInv _].
  destruct HInv as (w & Hp & _ & _ & _ & _ & _ & _ & _ & _ & Hpc).
  assert (w' = w) as -> by congruence.
  unfold puts, worker_log, worker_returned, worker_terminated, terminated.
  rewrite Hp.
  assert (Hfor : ∀ i t x, puts_for w i → (t, x) ∈ w_put w →
                          is_result x = false → False).
  { intros i t x [_ Hall] Hin Hx.
    pose proof (proj1 (Forall_forall _ _) Hall _ Hin) as Hres.
    simpl in Hres. congruence. }
  unfold pc_inv, fault_inv in *. split.
  - intros t x Hin Hx.
    destruct (pc w) eqn:Epc;
      try (exfalso; destruct Hpc as [Hputs _]; by eapply Hfor).
    + destruct Hpc as [Hput _]. rewrite Hput in Hin.
      by apply elem_of_nil in Hin.
    + exfalso. destruct Hpc as (_ & i & Hputs & _). by eapply Hfor.
    + destruct Hpc as [(i & Hputs & _)|(Hlog & i & Hputs & Hi)];
        [exfalso; by eapply Hfor|].
      destruct Hputs as (before & Heq & Hfst & Hall).
      rewrite Heq, last_snoc. split; [done|]. split; [|done].
      rewrite Heq in Hin.
      apply elem_of_app in Hin as [Hin|Hin%list_elem_of_singleton]; [|done].
      pose proof (proj1 (Forall_forall _ _) Hall _ Hin) as Hres.
      simpl in Hres. congruence.
    + rewrite Hpc in Hin. by apply elem_of_nil in Hin.
  - intros Hlog Hterm.
    destruct (pc w) eqn:Epc; try done; try congruence.
    destruct Hpc as [(i & [_ Hall] & _)|(_ & i & Hputs & _)].
    + specialize (HJ Hlog).
      assert (Hin : (None, QString "Error") ∈ w_put w).
      { apply last_Some in HJ as [l' ->]. set_solver. }
      pose proof (proj1 (Forall_forall _ _) Hall _ Hin) as Hres. done.
    + destruct Hputs as (before & Heq & _ & Hall). by exists before.
Qed.

(** *** Termination *)

Lemma remaining_step (s : Simulation) :
  Inv s → steps_remaining (step s WorkerStep) ≤ steps_remaining s - 1.
Proof.
  intros HInv. pose proof (Inv_queue s HInv) as [_ Hfree].
  destruct HInv as (w & Hp & Hb & Ha & Hc & Hm & Hq & Hnn & Hlen & Ho & Hpc).
  unfold steps_remaining. simpl. rewrite Hp.
  destruct (execute_step (shared s) w) as [sh' w'] eqn:Hstep. simpl.
  unfold execute_step in Hstep.
  unfold remaining, order_known, pc_inv, checkpoint in *.
  destruct (pc w) as [|i|i ij sol|i ij sol|i ij sol pose len
                      |i ij sol pose len|i ij sol len mask
                      |i ij sol len mask| | |] eqn:Epc.
  - destruct (execute_init (shared s) w) as [w1|e] eqn:Hinit.
    + apply execute_init_Ok in Hinit as (mgr & -> & _).
      injection Hstep as <- <-. simpl. unfold tasks_total, w_shape. simpl. lia.
    + injection Hstep as <- <-. simpl. lia.
  - destruct Hpc as [Hputs Hi]. apply order_length in Ho.
    destruct (w_order w !! i) as [ij|] eqn:Hij.
    + apply lookup_lt_Some in Hij.
      destruct (execute_solve w ij) as [[p sol]|e] eqn:Hsolve;
        injection Hstep as <- <-; simpl;
        unfold tasks_total, w_shape in *; simpl in *; lia.
    + injection Hstep as <- <-. simpl. lia.
  - destruct Hpc as [_ Hij%lookup_lt_Some]. apply order_length in Ho.
    injection Hstep as <- <-. destruct (exit_event (shared s)); simpl;
      unfold tasks_total, w_shape in *; simpl in *; lia.
  - destruct Hpc as [_ Hij%lookup_lt_Some]. apply order_length in Ho.
    destruct (execute_pose (shared s) w ij sol)
      as [[[[sh1 p] pose] len]|e] eqn:Hpose;
      injection Hstep as <- <-; simpl;
      unfold tasks_total, w_shape in *; simpl in *; lia.
  - destruct Hpc as [_ Hij%lookup_lt_Some]. apply order_length in Ho.
    injection Hstep as <- <-. destruct (exit_event (shared s)); simpl;
      unfold tasks_total, w_shape in *; simpl in *; lia.
  - destruct Hpc as [_ Hij%lookup_lt_Some]. apply order_length in Ho.
    destruct (execute_collision w pose) as [[mgr mask]|e] eqn:Hcoll;
      injection Hstep as <- <-; simpl;
      unfold tasks_total, w_shape in *; simpl in *; lia.
  - destruct Hpc as [_ Hij%lookup_lt_Some]. apply order_length in Ho.
    injection Hstep as <- <-. destruct (exit_event (shared s)); simpl;
      unfold tasks_total, w_shape in *; simpl in *; lia.
  - destruct Hpc as [Hputs Hij]. apply order_length in Ho.
    apply lookup_lt_Some in Hij.
    rewrite put_free in Hstep by done.
    injection Hstep as <- <-. simpl.
    unfold tasks_total, w_shape in *. simpl in *. lia.
  - rewrite put_free in Hstep by done.
    injection Hstep as <- <-. simpl. lia.
  - injection Hstep as <- <-. rewrite Epc. lia.
  - injection Hstep as <- <-. rewrite Epc. lia.
Qed.

Lemma remaining_run (schedule : list Action) (s : Simulation) :
  Inv s →
  steps_remaining (run schedule s) ≤ steps_remaining s - worker_steps schedule.
Proof.
  revert s. induction schedule as [|a schedule IH]; intros s HInv.
  - change (run [] s) with s.
    change (worker_steps ([] : list Action)) with 0. lia.
  - change (run (a :: schedule) s) with (run schedule (step s a)).
    pose proof (IH _ (Inv_step _ a HInv)) as Hrest.
    destruct a.
    + pose proof (remaining_step s HInv).
      change (worker_steps (WorkerStep :: schedule))
        with (S (worker_steps schedule)). lia.
    + rewrite steps_remaining_poll in Hrest by done.
      change (worker_steps (Poll :: schedule)) with (worker_steps schedule).
      lia.
    + change (worker_steps (Abort :: schedule)) with (worker_steps schedule).
      assert (steps_remaining (step s Abort) = steps_remaining s) as <-; [|lia].
      unfold steps_remaining. simpl. by destruct (blocked s).
Qed.

Lemma remaining_zero (s : Simulation) :
  Inv s → steps_remaining s = 0 → worker_terminated s = true.
Proof.
  intros (w & Hp & _ & _ & _ & _ & _ & _ & _ & Ho & Hpc).
  unfold steps_remaining, worker_terminated, terminated. rewrite Hp.
  unfold remaining, order_known, pc_inv in *.
  destruct (pc w) eqn:Epc; try done; try lia;
    destruct Hpc as [_ Hij%lookup_lt_Some]; apply order_length in Ho;
    unfold tasks_total, w_shape in *; simpl in *; lia.
Qed.

(** X5: the Worker always comes to an end.  Whatever the flags, whenever
    [abort] is called and whichever calls raise, every stage of a task
    either advances or leaves the loop, so after seven stages per task and
    two more the Worker has terminated and [isRunning] is false (each call
    of the solver and of the geometry routines being assumed to
    return). *)
Theorem worker_terminates (settings : Settings F) (instrument : Instrument)
    (sample : list (string * Mesh)) (points : list (Vec3 F * bool))
    (vectors : ndarray3 F) (alignment : Matrix F) (sim : Simulation)
    (setters : list Setter) (schedule : list Action) :
  Simulation_init settings instrument sample points vectors alignment = Ok sim →
  7 * count sim + 2 ≤ worker_steps schedule →
  worker_terminated (run schedule (start (configure setters sim))) = true
  ∧ isRunning (run schedule (start (configure setters sim))) = false.
Proof.
  intros Hinit Hsteps.
  pose proof Hinit as (_ & _ & _ & Hready)%Simulation_init_Ok.
  apply (configure_ready setters) in Hready.
  pose proof (Inv_start _ Hready) as HInv0.
  pose proof (remaining_run schedule _ HInv0) as Hrem.
  pose proof (Inv_run schedule _ HInv0) as HInv.
  assert (Hzero : steps_remaining (run schedule (start (configure setters sim)))
                  = 0).
  { destruct (configure_frame setters sim) as (Hc & _ & _ & Hv & _).
    destruct Hready as (_ & _ & _ & _ & _ & _ & Hcount & _).
    rewrite Hc in Hcount. revert Hrem Hcount.
    generalize (configure setters sim). intros s0.
    unfold steps_remaining at 2. unfold start. simpl.
    unfold remaining, tasks_total, w_shape. simpl. lia. }
  pose proof (remaining_zero _ HInv Hzero) as Hterm.
  split; [done|].
  unfold isRunning, worker_terminated in *.
  destruct (process (run schedule (start (configure setters sim)))); [|done].
  by rewrite Hterm.
Qed.

(** *** The life cycle seen by the Controller *)

Lemma terminated_step (sh : Shared F) (w : Worker) :
  terminated w = true → execute_step sh w = (sh, w).
Proof.
  unfold terminated, execute_step. by destruct (pc w).
Qed.

Lemma quiescent_step (s : Simulation) (a : Action) :
  worker_terminated s = true → queue (shared s) = [] → is_abort a = false →
  step s a = s.
Proof.
  unfold worker_terminated. intros Hterm Hq Ha. destruct a; [| |done].
  - simpl. destruct (process s) as [w|] eqn:Hp; [|done].
    rewrite terminated_step by done.
    destruct s. simpl in *. by rewrite Hp.
  - simpl. destruct (timer_active s && negb (blocked s)); [|done].
    unfold CheckResult. by rewrite Hq.
Qed.

(** X6: once the Worker has terminated and the queue is empty, no poll
    and no Worker step changes anything any more.  In particular a timer
    that is still running then is never stopped: [CheckResult] stops it
    only when it finds entries after the process has died, so a run whose
    last entry was collected while the process was still alive keeps
    polling until [abort] is called. *)
Theorem finished_and_drained_is_final (settings : Settings F)
    (instrument : Instrument) (sample : list (string * Mesh))
    (points : list (Vec3 F * bool)) (vectors : ndarray3 F)
    (alignment : Matrix F) (sim : Simulation) (setters : list Setter)
    (schedule more : list Action) :
  Simulation_init settings instrument sample points vectors alignment = Ok sim →
  worker_terminated (run schedule (start (configure setters sim))) = true →
  queue (shared (run schedule (start (configure setters sim)))) = [] →
  aborts more = false →
  run (schedule ++ more) (start (configure setters sim))
  = run schedule (start (configure setters sim))
  ∧ timer_active (run (schedule ++ more) (start (configure setters sim)))
    = timer_active (run schedule (start (configure setters sim))).
Proof.
  intros _ Hterm Hq Hab. rewrite run_app.
  assert (Hfix : run more (run schedule (start (configure setters sim)))
                 = run schedule (start (configure setters sim))).
  { revert Hterm Hq. generalize (run schedule (start (configure setters sim))).
    induction more as [|a more IH]; intros s Hterm Hq; [done|].
    simpl in Hab. apply orb_false_iff in Hab as [Ha Hab].
    change (run (a :: more) s) with (run more (step s a)).
    rewrite quiescent_step by done. by apply IH. }
  by rewrite Hfix.
Qed.

Lemma isRunning_step (s : Simulation) (a : Action) :
  Inv s → isRunning s = false → isRunning (step s a) = false.
Proof.
  intros HInv Hrun.
  pose proof HInv as (w & Hp & Hb & _ & _ & _ & _ & _ & _ & Ho & Hpc).
  unfold isRunning in *. rewrite Hp in Hrun.
  destruct a.
  - simpl. rewrite Hp.
    destruct (execute_step (shared s) w) as [sh' w'] eqn:Hstep. simpl.
    destruct (terminated w) eqn:Hterm.
    + rewrite terminated_step in Hstep by done.
      injection Hstep as <- <-. by rewrite Hterm.
    + simpl in Hrun. apply negb_false_iff in Hrun.
      apply execute_step_inv in Hstep as (_ & _ & -> & _); [|done..].
      rewrite Hrun. simpl. by rewrite andb_false_r.
  - rewrite poll_process, Hp.
    by rewrite (exit_event_step s Poll HInv eq_refl).
  - simpl. rewrite Hb. simpl. rewrite Hp. by rewrite andb_false_r.
Qed.

Lemma isRunning_run (schedule : list Action) (s : Simulation) :
  Inv s → isRunning s = false → isRunning (run schedule s) = false.
Proof.
  revert s. induction schedule as [|a schedule IH]; intros s HInv Hrun; [done|].
  change (run (a :: schedule) s) with (run schedule (step s a)).
  apply IH; [by apply Inv_step | by apply isRunning_step].
Qed.

(** X7: [isRunning] over the life of a simulation: false before [start],
    true right after it, false in every state that follows a call of
    [abort], and once it has become false it never becomes true again. *)
Theorem isRunning_life_cycle (settings : Settings F) (instrument : Instrument)
    (sample : list (string * Mesh)) (points : list (Vec3 F * bool))
    (vectors : ndarray3 F) (alignment : Matrix F) (sim : Simulation)
    (setters : list Setter) :
  Simulation_init settings instrument sample points vectors alignment = Ok sim →
  isRunning (configure setters sim) = false
  ∧ isRunning (start (configure setters sim)) = true
  ∧ (∀ before after,
       isRunning (run (before ++ Abort :: after)
                      (start (configure setters sim))) = false)
  ∧ (∀ schedule more,
       isRunning (run schedule (start (configure setters sim))) = false →
       isRunning (run (schedule ++ more) (start (configure setters sim)))
       = false).
Proof.
  intros (_ & _ & _ & Hready)%Simulation_init_Ok.
  apply (configure_ready setters) in Hready.
  pose proof (Inv_start _ Hready) as HInv0.
  destruct Hready as (Hp & _ & _ & _ & Hexit & _).
  split; [unfold isRunning; by rewrite Hp|].
  split; [unfold isRunning, start; simpl; by rewrite Hexit|].
  split.
  - intros before after. rewrite run_app.
    change (run (Abort :: after) ?s) with (run after (step s Abort)).
    pose proof (Inv_run before _ HInv0) as HInv.
    apply isRunning_run; [by apply Inv_step|].
    destruct HInv as (w & Hpw & Hb & _).
    unfold isRunning. simpl. rewrite Hb. simpl. rewrite Hpw.
    by rewrite andb_false_r.
  - intros schedule more Hrun. rewrite run_app.
    apply isRunning_run; [by apply Inv_run | done].
Qed.

(** *** [abort] before [start] *)

Lemma Inv_start_aborted (s : Simulation) : ready s → Inv (start (abort s)).
Proof.
  intros (Hp & Hb & Hr & Hq & He & Hs & Hc & Hm & Hbuf & Hcpl).
  exists (spawn (args s)). unfold start, abort, Inv, tasks_total, w_shape.
  simpl. rewrite Hr, Hq, Hm, Hc. split_and!; auto; try done. lia.
Qed.

(** X8: the exit event is never cleared.  A simulation on which [abort]
    was called before [start] runs a Worker that stops at its first
    checkpoint: in every state of every run no result is ever published,
    at most one task begins, the Controller collects no result,
    [isRunning] is false from the start, and after three Worker steps the
    Worker has terminated. *)
Theorem abort_before_start (settings : Settings F) (instrument : Instrument)
    (sample : list (string * Mesh)) (points : list (Vec3 F * bool))
    (vectors : ndarray3 F) (alignment : Matrix F) (sim : Simulation)
    (setters : list Setter) (schedule : list Action) :
  Simulation_init settings instrument sample points vectors alignment = Ok sim →
  exit_event
    (shared (run schedule (start (abort (configure setters sim))))) = true
  ∧ isRunning (run schedule (start (abort (configure setters sim)))) = false
  ∧ result_puts (puts (run schedule (start (abort (configure setters sim)))))
    = 0
  ∧ Forall (fun x => is_result x = false)
           (results (run schedule (start (abort (configure setters sim)))))
  ∧ length (started_tasks
              (run schedule (start (abort (configure setters sim))))) ≤ 1
  ∧ (3 ≤ worker_steps schedule →
     worker_terminated (run schedule (start (abort (configure setters sim))))
     = true).
Proof.
  intros (_ & _ & _ & Hready)%Simulation_init_Ok.
  apply (configure_ready setters) in Hready.
  pose proof (Inv_start_aborted _ Hready) as HInv0.
  pose proof (Inv_run schedule _ HInv0) as HInv.
  destruct (aborted_run schedule _ HInv0 eq_refl)
    as (Hexit & (l & Hstarted & Hl) & (extra & Hputs & Hextra) & Hsteps).
  set (s := run schedule (start (abort (configure setters sim)))) in *.
  change (puts (start (abort (configure setters sim)))) with
    ([] : list (option (nat * nat) * QItem F)) in Hputs.
  change (started_tasks (start (abort (configure setters sim)))) with
    ([] : list (nat * nat)) in Hstarted.
  change (worker_pc (start (abort (configure setters sim)))) with
    (PcInit : Pc F) in *.
  simpl in Hl, Hextra, Hsteps.
  assert (Hnone : result_puts (puts s) = 0) by (rewrite Hputs; simpl; lia).
  split; [done|]. split.
  { destruct HInv as (w & Hp & _). unfold isRunning. rewrite Hp, Hexit.
    by rewrite andb_false_r. }
  split; [done|]. split.
  - destruct HInv as (w & Hp & _ & _ & _ & _ & Hq & _).
    assert (Hall : Forall (fun x => is_result x = false) (snd <$> puts s)).
    { apply Forall_fmap, Forall_forall. intros x Hin. simpl.
      destruct (is_result x.2) eqn:Hx; [|done].
      unfold result_puts in Hnone. apply length_zero_iff_nil in Hnone.
      assert (x ∈ filter (fun x => is_result x.2 = true) (puts s)) as Hin'
        by (by apply list_elem_of_filter).
      rewrite Hnone in Hin'. by apply elem_of_nil in Hin'. }
    unfold puts in Hall. rewrite Hp, <- Hq in Hall.
    by apply Forall_app in Hall as [? _].
  - split; [rewrite Hstarted; simpl; lia|].
    intros H3. unfold worker_terminated, terminated, worker_pc in *.
    destruct HInv as (w & Hp & _). rewrite Hp in *.
    destruct (pc w); simpl in Hsteps; try done; lia.
Qed.

(** *** The task order *)

Lemma elem_of_task_order (b : bool) (n m k i j : nat) :
  (i, j) ∈ task_order b (n, m, k) ↔ i < n ∧ j < k.
Proof.
  unfold task_order. simpl. destruct b.
  - rewrite list_elem_of_bind. split.
    + intros (i' & (j' & [= -> ->]%list_elem_of_singleton
                      & Hj%elem_of_seq)%list_elem_of_bind & Hi%elem_of_seq).
      lia.
    + intros [Hi Hj]. exists i. split; [|apply elem_of_seq; lia].
      apply list_elem_of_bind. exists j.
      split; [by apply list_elem_of_singleton | apply elem_of_seq; lia].
  - rewrite list_elem_of_bind. split.
    + intros (j' & (i' & [= -> ->]%list_elem_of_singleton
                      & Hi%elem_of_seq)%list_elem_of_bind & Hj%elem_of_seq).
      lia.
    + intros [Hi Hj]. exists j. split; [|apply elem_of_seq; lia].
      apply list_elem_of_bind. exists i.
      split; [by apply list_elem_of_singleton | apply elem_of_seq; lia].
Qed.

Lemma NoDup_task_order (b : bool) (shape : nat * nat * nat) :
  NoDup (task_order b shape).
Proof.
  destruct shape as [[n m] k]. unfold task_order. simpl. destruct b.
  - rewrite (point_major k n 0).
    apply NoDup_fmap_2_strong; [|apply NoDup_seq].
    intros t t' Ht Ht' [= Hdiv Hmod].
    apply elem_of_seq in Ht, Ht'.
    assert (k ≠ 0) by (intros ->; lia).
    rewrite (Nat.div_mod_eq t k), (Nat.div_mod_eq t' k). congruence.
  - rewrite (alignment_major n k 0).
    apply NoDup_fmap_2_strong; [|apply NoDup_seq].
    intros t t' Ht Ht' [= Hmod Hdiv].
    apply elem_of_seq in Ht, Ht'.
    assert (n ≠ 0) by (intros ->; lia).
    rewrite (Nat.div_mod_eq t n), (Nat.div_mod_eq t' n). congruence.
Qed.

(** X9: whichever way [align_first_order] is set, the task order lists
    every pair of a point index below [N] and an alignment index below
    [K] exactly once and nothing else: the two orders are permutations of
    each other. *)
Theorem task_order_is_a_permutation (b : bool) (n m k : nat) :
  NoDup (task_order b (n, m, k))
  ∧ (∀ i j, (i, j) ∈ task_order b (n, m, k) ↔ i < n ∧ j < k)
  ∧ task_order true (n, m, k) ≡ₚ task_order false (n, m, k).
Proof.
  split; [apply NoDup_task_order|]. split; [apply elem_of_task_order|].
  apply NoDup_Permutation; [apply NoDup_task_order..|].
  intros [i j]. by rewrite !elem_of_task_order.
Qed.

(** *** When construction succeeds *)

Lemma for_each_app {A S} (l1 l2 : list A) (body : S → A → res S) (acc : S) :
  for_each (l1 ++ l2) body acc
  = acc' ← for_each l1 body acc; for_each l2 body acc'.
Proof.
  revert acc. induction l1 as [|x l1 IH]; intros acc; simpl; [done|].
  destruct (body acc x) as [acc'|e]; simpl; [apply IH | done].
Qed.

Lemma for_each_total_in {A S} (P : S → Prop) (xs : list A)
    (body : S → A → res S) (acc : S) :
  (∀ s x, x ∈ xs → P s → ∃ s', body s x = Ok s' ∧ P s') →
  P acc → ∃ r, for_each xs body acc = Ok r ∧ P r.
Proof.
  revert acc. induction xs as [|x xs IH]; intros acc Hbody Hacc; simpl;
    [eauto|].
  destruct (Hbody acc x) as (acc' & -> & Hacc'); [set_solver|done|].
  simpl. apply IH; [|done]. intros s y Hy. apply Hbody. set_solver.
Qed.

Lemma rotate_groups_Ok (m : Matrix F) (k : nat) (gs : list nat)
    (a : ndarray3 F) :
  (∀ g, g ∈ gs → 3 * g + 3 ≤ shape1 a) →
  ∃ a', for_each ((fun g => 3 * g) <$> gs) (rotate_group m k) a = Ok a'
        ∧ same_shape a a'.
Proof.
  intros Hgs. apply (for_each_total_in (same_shape a)); [|done].
  intros a1 j (g & -> & Hg)%list_elem_of_fmap (H0 & H1 & H2).
  unfold rotate_group. rewrite H1.
  destruct (3 * g + 3 <=? shape1 a) eqn:Hle.
  - eexists. split; [done|]. unfold same_shape. simpl. done.
  - apply Nat.leb_gt in Hle. specialize (Hgs g Hg). lia.
Qed.

Lemma rotate_row_Ok (m : Matrix F) (k : nat) (a : ndarray3 F) :
  shape1 a mod 3 = 0 →
  ∃ a', for_each (range_by_3 (shape1 a)) (rotate_group m k) a = Ok a'
        ∧ same_shape a a'.
Proof.
  intros Hmod. apply rotate_groups_Ok. intros g Hg%elem_of_seq.
  pose proof (Nat.div_mod_eq (shape1 a) 3) as Hd1.
  pose proof (Nat.div_mod_eq (shape1 a + 2) 3) as Hd2.
  pose proof (Nat.mod_upper_bound (shape1 a + 2) 3) as Hb2. lia.
Qed.

Lemma rotate_row_raises (m : Matrix F) (k : nat) (a : ndarray3 F) :
  shape1 a mod 3 ≠ 0 →
  for_each (range_by_3 (shape1 a)) (rotate_group m k) a = Raise ValueError.
Proof.
  intros Hmod. unfold range_by_3.
  pose proof (Nat.div_mod_eq (shape1 a) 3) as Hd1.
  pose proof (Nat.div_mod_eq (shape1 a + 2) 3) as Hd2.
  pose proof (Nat.mod_upper_bound (shape1 a + 2) 3) as Hb2.
  pose proof (Nat.mod_upper_bound (shape1 a) 3) as Hb1.
  destruct ((shape1 a + 2) / 3) as [|c] eqn:Hc; [lia|].
  rewrite seq_S, fmap_app, for_each_app.
  destruct (rotate_groups_Ok m k (seq 0 c) a) as (a1 & -> & _ & Hs1 & _).
  { intros g Hg%elem_of_seq. lia. }
  change (rotate_group m k a1 (3 * (0 + c)) ≫= Ok = Raise ValueError).
  unfold rotate_group. rewrite Hs1.
  destruct (3 * (0 + c) + 3 <=? shape1 a) eqn:Hle; [|done].
  apply Nat.leb_le in Hle. lia.
Qed.

Lemma rotate_vectors_Ok (m : Matrix F) (a : ndarray3 F) :
  shape1 a mod 3 = 0 ∨ shape2 a = 0 → ∃ a', rotate_vectors m a = Ok a'.
Proof.
  unfold rotate_vectors. intros [Hmod| ->]; [|by eexists].
  destruct (for_each_total_in
              (fun a' => shape1 a' = shape1 a) (seq 0 (shape2 a))
              (fun a' k =>
                 for_each (range_by_3 (shape1 a')) (rotate_group m k) a') a)
    as (a' & Heq & _); [|done|by exists a'].
  intros a1 k _ H1.
  destruct (rotate_row_Ok m k a1) as (a2 & -> & _ & H1' & _);
    [by rewrite H1|].
  exists a2. split; [done|congruence].
Qed.

Lemma rotate_vectors_raises (m : Matrix F) (a : ndarray3 F) :
  shape1 a mod 3 ≠ 0 → 0 < shape2 a → rotate_vectors m a = Raise ValueError.
Proof.
  unfold rotate_vectors. intros Hmod Hk.
  destruct (shape2 a) as [|k]; [lia|]. simpl.
  by rewrite rotate_row_raises.
Qed.

(** X10: when the constructor succeeds.  With as many points as the
    vectors have rows, construction succeeds if the second dimension of
    the vectors is a multiple of three or there is no alignment at all,
    and otherwise the rotation of the first incomplete group of columns
    raises numpy's [ValueError]. *)
Theorem construction_outcome (settings : Settings F) (instrument : Instrument)
    (sample : list (string * Mesh)) (points : list (Vec3 F * bool))
    (vectors : ndarray3 F) (alignment : Matrix F) :
  length points = shape0 vectors →
  (shape1 vectors mod 3 = 0 ∨ shape2 vectors = 0 →
   ∃ sim, Simulation_init settings instrument sample points vectors alignment
          = Ok sim)
  ∧ (shape1 vectors mod 3 ≠ 0 → 0 < shape2 vectors →
     Simulation_init settings instrument sample points vectors alignment
     = Raise ValueError).
Proof.
  intros Hlen.
  assert (Hmask : (length (snd <$> points) =? shape0 vectors) = true)
    by (rewrite length_fmap, Hlen; apply Nat.eqb_refl).
  unfold Simulation_init. cbv zeta. unfold take_rows. rewrite Hmask.
  simpl. split.
  - intros Hshape.
    edestruct (rotate_vectors_Ok (transpose alignment)) as (a' & ->);
      [exact Hshape|]. simpl. by eexists.
  - intros Hmod Hk. by rewrite rotate_vectors_raises.
Qed.

(** *** The targets handed to the solver *)

Lemma fancy_index_length {A} (l : list A) (selected : list nat)
    (xs : list A) :
  fancy_index l selected = Ok xs →
  length xs = length selected ∧ ∀ g, g ∈ selected → g < length l.
Proof.
  revert xs. induction selected as [|s selected IH]; intros xs; simpl.
  - intros [= <-]. split; [done|]. intros g Hg. by apply elem_of_nil in Hg.
  - intros (x & Hx & (xs' & Hxs & [= <-])%bind_Ok)%bind_Ok.
    destruct (IH _ Hxs) as [Hl Hin]. split; [simpl; lia|].
    intros g [->|Hg]%elem_of_cons; [|by apply Hin].
    unfold index in Hx. destruct (l !! s) eqn:Hs; [|done].
    by apply lookup_lt_Some in Hs.
Qed.

Lemma fancy_index_raises {A} (l : list A) (selected : list nat) (g : nat) :
  g ∈ selected → length l ≤ g → fancy_index l selected = Raise IndexError.
Proof.
  intros Hg Hlen. induction selected as [|s selected IH]; simpl.
  - by apply elem_of_nil in Hg.
  - unfold index. destruct (l !! s) as [x|] eqn:Hs; [|done]. simpl.
    apply elem_of_cons in Hg as [->|Hg].
    + apply lookup_lt_Some in Hs. lia.
    + by rewrite IH.
Qed.

(** X11: the solver is always called with as many q-vectors as
    measurement vectors and with at least one of each, every selected
    group has a q-vector of its own; and when an active direction group
    has no q-vector (its index is not below the number of q-vectors), or
    no group is active and there is no q-vector at all, the selection
    raises [IndexError]. *)
Theorem select_targets_pairs (pose : Matrix F) (q_vec all_mvs : list (Vec3 F)) :
  (∀ qs mvs, select_targets pose q_vec all_mvs = Ok (qs, mvs) →
             length qs = length mvs ∧ 0 < length mvs
             ∧ ∀ g, g ∈ where_active all_mvs 0 → g < length q_vec)
  ∧ ((∃ g, g ∈ where_active all_mvs 0 ∧ length q_vec ≤ g) →
     select_targets pose q_vec all_mvs = Raise IndexError)
  ∧ (where_active all_mvs 0 = [] → q_vec = [] →
     select_targets pose q_vec all_mvs = Raise IndexError).
Proof.
  unfold select_targets. split; [|split].
  - intros qs mvs. case_bool_decide as Hsel.
    + intros (q0 & _ & [= <- <-])%bind_Ok. simpl. split; [done|].
      split; [lia|]. intros g Hg.
      apply length_zero_iff_nil in Hsel. rewrite Hsel in Hg.
      by apply elem_of_nil in Hg.
    + intros (qs' & Hqs & (mvs' & Hmvs & [= <- <-])%bind_Ok)%bind_Ok.
      destruct (fancy_index_length _ _ _ Hqs) as [Hl1 Hin].
      destruct (fancy_index_length _ _ _ Hmvs) as [Hl2 _].
      split; [lia|]. split; [lia|done].
  - intros (g & Hg & Hlen). case_bool_decide as Hsel.
    + apply length_zero_iff_nil in Hsel. rewrite Hsel in Hg.
      by apply elem_of_nil in Hg.
    + by rewrite (fancy_index_raises q_vec _ g Hg Hlen).
  - intros -> ->. done.
Qed.

(** *** The path-length buffer *)

Lemma store_row_length (d : nat) (l row : list F) :
  store_row d l = Ok row → length row = d.
Proof.
  unfold store_row. destruct (length l =? d) eqn:Hd.
  - intros [= <-]. rewrite length_fmap. by apply Nat.eqb_eq.
  - destruct l as [|x [|y l]]; try done.
    intros [= <-]. by rewrite length_replicate.
Qed.

Lemma execute_init_raises (sh : Shared F) (w : Worker) (e : exn) :
  execute_init sh w = Raise e →
  (wants_path_length (w_args w) = true ∧ path_lengths sh = None)
  ∨ a_check_collision (w_args w) = true.
Proof.
  unfold execute_init.
  destruct (wants_path_length (w_args w)) eqn:Hw.
  - destruct (path_lengths sh) eqn:Hb; [|by left]. simpl.
    destruct (a_check_collision (w_args w)); [by right|done].
  - simpl. destruct (a_check_collision (w_args w)); [by right|done].
Qed.

Lemma execute_path_length_row (sh sh' : Shared F) (args : Args)
    (ij : nat * nat) (pose : Matrix F) (len : option (list F)) :
  execute_path_length sh args ij pose = Ok (sh', len) →
  (sh' = sh ∧ len = None)
  ∨ (∃ b row l, path_lengths sh = Some b
                ∧ path_lengths sh' = Some (<[ij := row]> b)
                ∧ len = Some l
                ∧ store_row (shape1 (a_vectors args) / 3) l = Ok row).
Proof.
  unfold execute_path_length. destruct (wants_path_length args).
  - intros (m & _ & (l & _ & (b & Hb & (r & Hr & [= <- <-])%bind_Ok)%bind_Ok)
                     %bind_Ok)%bind_Ok.
    right. exists b, r, l. split_and!; auto.
    by destruct (path_lengths sh); simplify_eq.
  - intros [= <- <-]. by left.
Qed.

Lemma NoDup_lookup_take {A} (l : list A) (i : nat) (x : A) :
  NoDup l → l !! i = Some x → x ∉ take i l.
Proof.
  intros Hnd Hi (j & Hj)%list_elem_of_lookup.
  apply lookup_take_Some in Hj as [Hj Hlt].
  pose proof (NoDup_lookup _ _ _ _ Hnd Hi Hj). lia.
Qed.

Lemma execute_step_buffer (sh sh' : Shared F) (w w' : Worker) :
  execute_step sh w = (sh', w') →
  order_known w → pc_inv sh w →
  buffer_inv (path_lengths sh) w → buffer_inv (path_lengths sh') w'.
Proof.
  unfold execute_step. intros Hstep Ho Hpc (Hsome & Hcells & Hput & Hlen & Hcr).
  unfold buffer_inv, pc_inv, order_known in *.
  destruct (pc w) as [|i|i ij sol|i ij sol|i ij sol pose len
                      |i ij sol pose len|i ij sol len mask
                      |i ij sol len mask| | |] eqn:Epc.
  - destruct (execute_init sh w) as [w1|e] eqn:Hinit.
    + apply execute_init_Ok in Hinit as (mgr & -> & _).
      injection Hstep as <- <-. simpl. split_and!; auto; try done.
    + injection Hstep as <- <-. simpl. split_and!; auto; try done.
      intros _. destruct Hpc as [_ ->]. split; [|done].
      apply execute_init_raises in Hinit as [[Hw Hnone]|Hcoll]; [|done].
      apply andb_true_iff in Hw as [Hc _].
      destruct (Hsome Hc) as [b Hb]. congruence.
  - destruct (w_order w !! i) as [ij|] eqn:Hij.
    + destruct (execute_solve w ij) as [[p sol]|e] eqn:Hsolve;
        injection Hstep as <- <-; simpl; split_and!; auto; try done.
    + injection Hstep as <- <-. simpl. split_and!; auto; try done.
  - injection Hstep as <- <-. unfold checkpoint.
    destruct (exit_event sh); simpl; split_and!; auto; try done.
  - destruct (execute_pose sh w ij sol) as [[[[sh1 p] pose] len]|e] eqn:Hpose;
      injection Hstep as <- <-; simpl; [|split_and!; auto; try done].
    unfold execute_pose in Hpose.
    apply bind_Ok in Hpose as ([p' fk] & _ & Hpose). simpl in Hpose.
    apply bind_Ok in Hpose as ([sh2 l2] & Hpl & [= <- <- <- <-]).
    apply execute_path_length_row in Hpl
      as [(-> & ->)|(b & row & l & Hb & Hb' & -> & Hrow)].
    + split_and!; auto; try done. intros ij' len' [= <- <-] l' [=].
    + rewrite Hb in *. rewrite Hb'. simpl in *.
      destruct Hpc as [[Hfst _] Hij].
      assert (Hin : ij ∈ w_order w) by (by eapply list_elem_of_lookup_2).
      assert (Hnd : NoDup (w_order w))
        by (rewrite Ho; apply NoDup_task_order).
      split_and!; auto; try done.
      * intros ij' row'. destruct (decide (ij = ij')) as [<-|Hne].
        -- rewrite lookup_insert_eq. intros [= <-].
           split; [by eapply store_row_length|].
           unfold w_shape in Ho. by rewrite <- Ho.
        -- rewrite lookup_insert_ne by done. apply Hcells.
      * intros ij' r Hin'. destruct (decide (ij = ij')) as [<-|Hne].
        -- exfalso. apply (NoDup_lookup_take _ _ _ Hnd Hij).
           assert (Hs : Some ij ∈ fst <$> w_put w).
           { apply list_elem_of_fmap. by exists (Some ij, QResult r). }
           rewrite Hfst in Hs.
           by apply list_elem_of_fmap in Hs as (y & [= ->] & Hy).
        -- intros l' Hl'. rewrite lookup_insert_ne by done.
           by apply (Hput ij' r).
      * intros ij' len' [= <- <-] l' [= <-].
        exists row. by rewrite lookup_insert_eq.
  - injection Hstep as <- <-. unfold checkpoint.
    destruct (exit_event sh); simpl; split_and!; auto; try done;
      intros ij' len' [= <- <-]; by apply Hlen.
  - destruct (execute_collision w pose) as [[mgr mask]|e] eqn:Hcoll;
      injection Hstep as <- <-; simpl; split_and!; auto; try done;
      intros ij' len' [= <- <-]; by apply Hlen.
  - injection Hstep as <- <-. unfold checkpoint.
    destruct (exit_event sh); simpl; split_and!; auto; try done;
      intros ij' len' [= <- <-]; by apply Hlen.
  - destruct (put sh _) as [sh1|] eqn:Hput'.
    + apply put_Some in Hput' as [_ ->]. injection Hstep as <- <-. simpl.
      split_and!; auto; try done.
      intros ij' r [?|Hin%list_elem_of_singleton]%elem_of_app; [by apply Hput|].
      injection Hin as -> ->. simpl. by apply Hlen.
    + injection Hstep as <- <-. rewrite Epc. split_and!; auto.
  - destruct (put sh _) as [sh1|] eqn:Hput'.
    + apply put_Some in Hput' as [_ ->]. injection Hstep as <- <-. simpl.
      split_and!; auto; try done.
      intros ij' r [?|Hin%list_elem_of_singleton]%elem_of_app; [by apply Hput|].
      done.
    + injection Hstep as <- <-. rewrite Epc. split_and!; auto.
  - injection Hstep as <- <-. rewrite Epc. split_and!; auto.
  - injection Hstep as <- <-. rewrite Epc. split_and!; auto.
Qed.

Lemma buffer_inv_run (schedule : list Action) (s : Simulation) :
  Inv s →
  (∃ w, process s = Some w ∧ buffer_inv (path_lengths (shared s)) w) →
  ∃ w, process (run schedule s) = Some w
       ∧ buffer_inv (path_lengths (shared (run schedule s))) w.
Proof.
  revert s. induction schedule as [|a schedule IH]; intros s HInv HB; [done|].
  change (run (a :: schedule) s) with (run schedule (step s a)).
  apply IH; [by apply Inv_step|].
  destruct HB as (w & Hp & HB). destruct a.
  - simpl. rewrite Hp.
    destruct (execute_step (shared s) w) as [sh' w'] eqn:Hstep.
    exists w'. split; [done|]. simpl.
    destruct HInv as (w0 & Hp0 & _ & _ & _ & _ & _ & _ & _ & Ho & Hpc).
    assert (w0 = w) as -> by congruence.
    by eapply execute_step_buffer.
  - exists w. rewrite poll_process. split; [done|].
    simpl. destruct (timer_active s && negb (blocked s)); [|done].
    by destruct (CheckResult_Inv s HInv)
      as (s' & -> & _ & _ & _ & _ & _ & _ & _ & ->).
  - exists w. simpl. by destruct (blocked s).
Qed.

Lemma buffer_inv_start (s : Simulation) :
  ready s → buffer_inv (path_lengths (shared (start s))) (spawn (args s)).
Proof.
  intros (_ & _ & _ & _ & _ & _ & _ & _ & Hbuf & Hcpl).
  unfold buffer_inv, cells_ok. simpl. split_and!; try done.
  - intros Hc. rewrite (Hcpl Hc). by eexists.
  - intros ij row. by destruct Hbuf as [-> | ->].
  - intros ij r Hin. by apply elem_of_nil in Hin.
Qed.

(** What is known of the buffer in every state of a run. *)
Lemma reachable_buffer (settings : Settings F) (instrument : Instrument)
    (sample : list (string * Mesh)) (points : list (Vec3 F * bool))
    (vectors : ndarray3 F) (alignment : Matrix F) (sim : Simulation)
    (setters : list Setter) (schedule : list Action) :
  Simulation_init settings instrument sample points vectors alignment = Ok sim →
  ∃ w, process (run schedule (start (configure setters sim))) = Some w
       ∧ w_args w = args (configure setters sim)
       ∧ shape sim = (shape0 (a_vectors (w_args w)),
                      shape1 (a_vectors (w_args w)) / 3,
                      shape2 (a_vectors (w_args w)))
       ∧ buffer_inv
           (path_lengths (shared (run schedule (start (configure setters sim)))))
           w.
Proof.
  intros Hinit.
  pose proof Hinit as (_ & _ & _ & Hready)%Simulation_init_Ok.
  apply (configure_ready setters) in Hready.
  destruct (buffer_inv_run schedule (start (configure setters sim)))
    as (w & Hp & HB); [by apply Inv_start | |].
  { exists (spawn (args (configure setters sim))).
    split; [done|]. by apply buffer_inv_start. }
  destruct (reachable _ _ _ _ _ _ _ setters schedule Hinit)
    as (_ & w' & Hp' & Ha & Hshape & _).
  assert (w' = w) as -> by congruence.
  exists w. split_and!; auto.
Qed.

(** X12: the Worker writes the shared buffer only inside its bounds.  In
    every state of every run each cell that has been assigned belongs to
    a task [(i, j)] with [i] below the number of enabled points and [j]
    below the number of alignments, and the row stored there has exactly
    as many entries as the second dimension of the simulation's shape. *)
Theorem buffer_cells_in_bounds (settings : Settings F)
    (instrument : Instrument) (sample : list (string * Mesh))
    (points : list (Vec3 F * bool)) (vectors : ndarray3 F)
    (alignment : Matrix F) (sim : Simulation) (setters : list Setter)
    (schedule : list Action) (ij : nat * nat) (row : list F) :
  Simulation_init settings instrument sample points vectors alignment = Ok sim →
  buffer (run schedule (start (configure setters sim))) !! ij = Some row →
  length row = (shape sim).1.2
  ∧ ij.1 < (shape sim).1.1 ∧ ij.2 < (shape sim).2.
Proof.
  intros (w & Hp & Ha & Hshape & _ & Hcells & _)
           %(reachable_buffer _ _ _ _ _ _ _ setters schedule) Hrow.
  unfold buffer in Hrow. destruct (Hcells _ _ Hrow) as [Hlen Hin].
  rewrite Hshape. simpl. split; [done|].
  destruct ij as [i j]. by apply elem_of_task_order in Hin.
Qed.

(** X13: the [path_lengths] property agrees with the results.  It is
    [None] when [compute_path_length] is not set; when it is set the
    property is the buffer seen as an array, and for every result the
    Worker has published with a path length, the array holds at that
    result's point and alignment the published values stored as float32,
    one per detector, or the single published value repeated for every
    detector. *)
Theorem path_lengths_match_results (settings : Settings F)
    (instrument : Instrument) (sample : list (string * Mesh))
    (points : list (Vec3 F * bool)) (vectors : ndarray3 F)
    (alignment : Matrix F) (sim : Simulation) (setters : list Setter)
    (schedule : list Action) :
  Simulation_init settings instrument sample points vectors alignment = Ok sim →
  (a_compute_path_length (args (configure setters sim)) = false →
   path_lengths_property (run schedule (start (configure setters sim)))
   = Ok None)
  ∧ (a_compute_path_length (args (configure setters sim)) = true →
     ∃ view,
       path_lengths_property (run schedule (start (configure setters sim)))
       = Ok (Some view)
       ∧ ∀ ij r l d,
           (Some ij, QResult r)
             ∈ puts (run schedule (start (configure setters sim))) →
           path_length r = Some l → d < (shape sim).1.2 →
           (length l = (shape sim).1.2
            ∧ Some (view ij.1 d ij.2) = f32 <$> l !! d)
           ∨ (∃ x, l = [x] ∧ view ij.1 d ij.2 = f32 x)).
Proof.
  intros (w & Hp & Ha & Hshape & Hsome & _ & Hput & _)
           %(reachable_buffer _ _ _ _ _ _ _ setters schedule).
  unfold path_lengths_property, puts.
  destruct (run_args schedule (start (configure setters sim)))
    as (-> & _ & _).
  simpl. rewrite Hp, <- Ha. split; [by intros ->|].
  intros Hc. rewrite Hc. destruct (Hsome Hc) as [b Hb].
  rewrite Hb in *. eexists. split; [done|].
  intros [i j] r l d Hin Hl Hd. rewrite Hshape in *. cbn [fst snd] in *.
  destruct (Hput _ _ Hin l Hl) as (row & Hcell & Hrow).
  change (b !! (i, j) = Some row) in Hcell. rewrite Hcell.
  cbn [mbind option_bind].
  unfold store_row in Hrow.
  destruct (length l =? shape1 (a_vectors (w_args w)) / 3) eqn:Hlen.
  - apply Nat.eqb_eq in Hlen. left. split; [done|].
    injection Hrow as <-. rewrite list_lookup_fmap.
    destruct (lookup_lt_is_Some_2 l d) as [x ->]; [lia|]. done.
  - right. destruct l as [|x [|y l]]; try done.
    injection Hrow as <-. exists x. split; [done|].
    by rewrite lookup_replicate_2.
Qed.

(** X14: a Worker that dies while it is being initialised leaves no
    trace.  The population of the collision manager runs before the
    [try], so when it raises no ['Error'] entry is put: in every state in
    which the Worker has died that way collision checking was requested,
    the Worker has logged nothing but its first line, no task has begun,
    nothing was put, the Controller holds no entry and the queue is
    empty, and [isRunning] is false. *)
Theorem crash_at_initialisation_is_silent (settings : Settings F)
    (instrument : Instrument) (sample : list (string * Mesh))
    (points : list (Vec3 F * bool)) (vectors : ndarray3 F)
    (alignment : Matrix F) (sim : Simulation) (setters : list Setter)
    (schedule : list Action) :
  Simulation_init settings instrument sample points vectors alignment = Ok sim →
  worker_pc (run schedule (start (configure setters sim))) = PcCrashed →
  a_check_collision (args (configure setters sim)) = true
  ∧ worker_log (run schedule (start (configure setters sim)))
    = [LogInitializing]
  ∧ started_tasks (run schedule (start (configure setters sim))) = []
  ∧ puts (run schedule (start (configure setters sim))) = []
  ∧ results (run schedule (start (configure setters sim))) = []
  ∧ queue (shared (run schedule (start (configure setters sim)))) = []
  ∧ isRunning (run schedule (start (configure setters sim))) = false.
Proof.
  intros Hinit Hcrashed.
  destruct (reachable_buffer _ _ _ _ _ _ _ setters schedule Hinit)
    as (w & Hp & Ha & _ & _ & _ & _ & _ & Hcr).
  apply (reachable _ _ _ _ _ _ _ setters schedule) in Hinit as [HInv _].
  destruct HInv as (w' & Hp' & _ & _ & _ & _ & Hq & _ & _ & _ & Hpc).
  assert (w' = w) as -> by congruence.
  unfold worker_pc, worker_log, started_tasks, worker_log, puts, isRunning,
    terminated in *.
  rewrite Hp in *. destruct (Hcr Hcrashed) as [Hcoll Hlog].
  unfold pc_inv in Hpc. rewrite Hcrashed in *.
  rewrite Hpc in Hq. simpl in Hq. apply app_eq_nil in Hq as [-> ->].
  rewrite Hlog, <- Ha. by split_and!.
Qed.

(** *** What the constructor hands to the Worker *)

Lemma group_arith (g c : nat) :
  (3 * g ≤ c < 3 * g + 3 ↔ c / 3 = g)
  ∧ (c / 3 = g → c - 3 * g = c mod 3).
Proof.
  pose proof (Nat.div_mod_eq c 3) as Hd.
  pose proof (Nat.mod_upper_bound c 3) as Hb. lia.
Qed.

Lemma rotate_group_entry (m : Matrix F) (k j : nat) (a a' : ndarray3 F)
    (i c b : nat) :
  rotate_group m k a j = Ok a' →
  at3 a' i c b
  = if (b =? k) && (j <=? c) && (c <? j + 3)
    then component (row_mul (group_at a i j k) m) (c - j)
    else at3 a i c b.
Proof.
  unfold rotate_group. destruct (j + 3 <=? shape1 a); [|done].
  by intros [= <-].
Qed.

Lemma rotate_group_other (m : Matrix F) (k g g' : nat) (a a' : ndarray3 F)
    (i b : nat) :
  rotate_group m k a (3 * g) = Ok a' → g' ≠ g ∨ b ≠ k →
  group_at a' i (3 * g') b = group_at a i (3 * g') b.
Proof.
  intros Heq Hne. unfold group_at.
  rewrite !(rotate_group_entry _ _ _ _ _ _ _ _ Heq).
  assert (Hf : ∀ c, c / 3 = g' →
            (b =? k) && (3 * g <=? c) && (c <? 3 * g + 3) = false).
  { intros c Hc. destruct (b =? k) eqn:Hb; [|done].
    destruct (3 * g <=? c) eqn:H1; [|done].
    destruct (c <? 3 * g + 3) eqn:H2; [|done].
    apply Nat.eqb_eq in Hb. apply Nat.leb_le in H1. apply Nat.ltb_lt in H2.
    destruct (group_arith g c) as [Hiff _].
    assert (c / 3 = g) by (apply Hiff; lia). destruct Hne; congruence. }
  rewrite (Hf (3 * g')) by (symmetry; apply (Nat.div_unique _ 3 g' 0); lia).
  rewrite (Hf (3 * g' + 1))
    by (symmetry; apply (Nat.div_unique _ 3 g' 1); lia).
  rewrite (Hf (3 * g' + 2))
    by (symmetry; apply (Nat.div_unique _ 3 g' 2); lia).
  done.
Qed.

Lemma rotate_groups_entries (m : Matrix F) (k : nat) (gs : list nat)
    (a a' : ndarray3 F) :
  NoDup gs →
  for_each ((fun g => 3 * g) <$> gs) (rotate_group m k) a = Ok a' →
  ∀ i c b,
    (b = k ∧ c / 3 ∈ gs → at3 a' i c b = rotated_entry m a i c k)
    ∧ (¬ (b = k ∧ c / 3 ∈ gs) → at3 a' i c b = at3 a i c b).
Proof.
  revert a. induction gs as [|g gs IH]; intros a Hnd Heq i c b.
  - injection Heq as <-. split; [|done].
    intros [_ Hin]. by apply elem_of_nil in Hin.
  - apply NoDup_cons in Hnd as [Hg Hnd].
    rewrite fmap_cons in Heq. cbn [for_each] in Heq.
    apply bind_Ok in Heq as (a1 & H1 & Hrest).
    destruct (IH _ Hnd Hrest i c b) as [IHin IHout].
    destruct (group_arith g c) as [Hiff Hsub].
    pose proof (rotate_group_entry _ _ _ _ _ i c b H1) as Hentry.
    split.
    + intros [-> [Hc|Hin]%elem_of_cons].
      * rewrite IHout by (intros [_ ?]; congruence).
        rewrite Hentry. rewrite Nat.eqb_refl.
        apply Hiff in Hc as Hrange.
        replace (3 * g <=? c) with true by (symmetry; apply Nat.leb_le; lia).
        replace (c <? 3 * g + 3) with true by (symmetry; apply Nat.ltb_lt; lia).
        cbn [andb]. unfold rotated_entry. by rewrite (Hsub Hc), Hc.
      * rewrite IHin by done. unfold rotated_entry.
        rewrite (rotate_group_other _ _ _ _ _ _ _ _ H1); [done|].
        left. intros Hcg. apply Hg. by rewrite <- Hcg.
    + intros Hnot. rewrite IHout by (intros [? ?]; apply Hnot; set_solver).
      rewrite Hentry.
      destruct (b =? k) eqn:Hb; [|done]. apply Nat.eqb_eq in Hb.
      destruct (3 * g <=? c) eqn:H2; [|done].
      destruct (c <? 3 * g + 3) eqn:H3; [|done].
      apply Nat.leb_le in H2. apply Nat.ltb_lt in H3.
      exfalso. apply Hnot. split; [done|].
      apply elem_of_cons. left. apply Hiff. lia.
Qed.

Lemma rotate_all_entries (m : Matrix F) (ks : list nat) (a a' : ndarray3 F) :
  NoDup ks →
  for_each ks
    (fun a1 k => for_each (range_by_3 (shape1 a1)) (rotate_group m k) a1) a
  = Ok a' →
  shape1 a' = shape1 a
  ∧ ∀ i c b,
      (b ∈ ks ∧ c < shape1 a → at3 a' i c b = rotated_entry m a i c b)
      ∧ (b ∉ ks → at3 a' i c b = at3 a i c b).
Proof.
  revert a. induction ks as [|k ks IH]; intros a Hnd Heq.
  - injection Heq as <-. split; [done|]. intros i c b. split; [|done].
    intros [Hin _]. by apply elem_of_nil in Hin.
  - apply NoDup_cons in Hnd as [Hk Hnd].
    cbn [for_each] in Heq. apply bind_Ok in Heq as (a1 & H1 & Hrest).
    destruct (IH _ Hnd Hrest) as [Hshape IHrest].
    assert (Hshape1 : shape1 a1 = shape1 a).
    { revert H1. unfold range_by_3.
      apply (for_each_invariant (fun x => shape1 x = shape1 a)); [|done].
      intros x j y Hx (_ & Hy & _)%rotate_group_shape. congruence. }
    split; [congruence|]. intros i c b.
    destruct (IHrest i c b) as [IHin IHout].
    pose proof (rotate_groups_entries m k _ _ _ (NoDup_seq 0 _) H1) as Hinner.
    split.
    + intros [[->|Hin]%elem_of_cons Hc].
      * rewrite IHout by done.
        apply (Hinner i c k). split; [done|]. apply elem_of_seq.
        pose proof (Nat.div_mod_eq c 3) as Hd1.
        pose proof (Nat.div_mod_eq (shape1 a + 2) 3) as Hd2.
        pose proof (Nat.mod_upper_bound c 3) as Hb1.
        pose proof (Nat.mod_upper_bound (shape1 a + 2) 3) as Hb2. lia.
      * rewrite IHin by (split; [done|lia]). unfold rotated_entry.
        assert (Hbk : b ≠ k) by (intros ->; done).
        unfold group_at.
        rewrite !(proj2 (Hinner _ _ _)) by (intros [? _]; done). done.
    + intros Hnot. rewrite IHout by set_solver.
      apply (Hinner i c b). intros [-> _]. set_solver.
Qed.

Lemma rotate_vectors_entries (m : Matrix F) (a a' : ndarray3 F)
    (i g k : nat) :
  rotate_vectors m a = Ok a' → 3 * g + 3 ≤ shape1 a → k < shape2 a →
  group_at a' i (3 * g) k = row_mul (group_at a i (3 * g) k) m.
Proof.
  unfold rotate_vectors. intros Heq Hg Hk.
  destruct (rotate_all_entries m _ _ _ (NoDup_seq 0 _) Heq) as [_ Hall].
  assert (Hin : k ∈ seq 0 (shape2 a)) by (apply elem_of_seq; lia).
  unfold group_at at 1.
  rewrite !(proj1 (Hall _ _ _)) by (split; [done|lia]).
  unfold rotated_entry.
  replace ((3 * g) / 3) with g
    by (apply (Nat.div_unique _ 3 g 0); lia).
  replace ((3 * g + 1) / 3) with g
    by (apply (Nat.div_unique _ 3 g 1); lia).
  replace ((3 * g + 2) / 3) with g
    by (apply (Nat.div_unique _ 3 g 2); lia).
  replace ((3 * g) mod 3) with 0
    by (apply (Nat.mod_unique _ 3 g 0); lia).
  replace ((3 * g + 1) mod 3) with 1
    by (apply (Nat.mod_unique _ 3 g 1); lia).
  replace ((3 * g + 2) mod 3) with 2
    by (apply (Nat.mod_unique _ 3 g 2); lia).
  by destruct (row_mul (group_at a i (3 * g) k) m) as [[x y] z].
Qed.

Lemma true_indices_lookup (points : list (Vec3 F * bool)) (from r o : nat) :
  true_indices (snd <$> points) from !! r = Some o →
  from ≤ o
  ∧ ∃ p, points !! (o - from) = Some (p, true)
         ∧ filter (fun q => q.2 = true) points !! r = Some (p, true).
Proof.
  revert from r. induction points as [|[p e] points IH]; intros from r; [done|].
  simpl. destruct e.
  - rewrite filter_cons_True by done. destruct r as [|r]; simpl.
    + intros [= <-]. split; [done|]. exists p. by rewrite Nat.sub_diag.
    + intros (Hle & q & Hq & Hf)%IH. split; [lia|]. exists q.
      replace (o - from) with (S (o - S from)) by lia. done.
  - rewrite filter_cons_False by (simpl; congruence).
    intros (Hle & q & Hq & Hf)%IH. split; [lia|]. exists q.
    replace (o - from) with (S (o - S from)) by lia. done.
Qed.

(** X15: what the constructor hands to the Worker.  The [r]-th row of
    the Worker's vectors and the [r]-th of its points both come from the
    [r]-th enabled measurement point, the point at the original index [o]:
    the point is that point multiplied by the transposed alignment matrix
    and translated, and every complete group of three vector components of
    that row, in every alignment, is the original group of row [o]
    multiplied once by the transposed alignment matrix. *)
Theorem enabled_rows_are_rotated (settings : Settings F)
    (instrument : Instrument) (sample : list (string * Mesh))
    (points : list (Vec3 F * bool)) (vectors : ndarray3 F)
    (alignment : Matrix F) (sim : Simulation) (r o : nat) :
  Simulation_init settings instrument sample points vectors alignment = Ok sim →
  true_indices (snd <$> points) 0 !! r = Some o →
  ∃ p, points !! o = Some (p, true)
       ∧ a_points (args sim) !! r
         = Some (vadd (row_mul p (transpose alignment))
                      (row3 (transpose alignment) 3))
       ∧ ∀ g k, 3 * g + 3 ≤ shape1 vectors → k < shape2 vectors →
                group_at (a_vectors (args sim)) r (3 * g) k
                = row_mul (group_at vectors o (3 * g) k)
                          (transpose alignment).
Proof.
  unfold Simulation_init. cbv zeta.
  intros (v1 & Htake & (v2 & Hrot & [= <-])%bind_Ok)%bind_Ok Hr.
  pose proof (true_indices_lookup _ _ _ _ Hr) as (_ & p & Hp & Hf).
  rewrite Nat.sub_0_r in Hp. exists p. split; [done|].
  cbn [args a_points a_vectors]. split.
  - rewrite !list_lookup_fmap, Hf. done.
  - intros g k Hg Hk.
    unfold take_rows in Htake.
    destruct (length (snd <$> points) =? shape0 vectors); [|done].
    injection Htake as <-.
    rewrite (rotate_vectors_entries _ _ _ r g k Hrot) by done.
    unfold group_at. cbn [at3].
    by rewrite (nth_lookup_Some _ _ _ _ Hr).
Qed.

(** *** The collision manager's clients *)

Lemma replaced_refl (cs : list Collider) : replaced [] cs cs.
Proof. split; [done|]. intros p c Hc. exists c. by split_and!. Qed.

Lemma replaced_trans (l1 l2 : list nat) (a b c : list Collider) :
  replaced l1 a b → replaced l2 b c → replaced (l1 ++ l2) a c.
Proof.
  intros [Hl1 H1] [Hl2 H2]. split; [congruence|].
  intros p x Hx.
  destruct (H1 _ _ Hx) as (y & Hy & ? & ? & ? & ? & Hp1).
  destruct (H2 _ _ Hy) as (z & Hz & ? & ? & ? & ? & Hp2).
  exists z. split_and!; try congruence.
  intros Hp. rewrite Hp2, Hp1; set_solver.
Qed.

Lemma transform_collider_replaced (pose : Matrix F)
    (m m' : CollisionManager) (i : nat) :
  transform_collider pose m i = Ok m' →
  i < length (colliders m) ∧ replaced [i] (colliders m) (colliders m').
Proof.
  unfold transform_collider, index.
  destruct (colliders m !! i) as [ci|] eqn:Hi; [|done].
  intros [= <-]. simpl. split; [by eapply lookup_lt_Some|].
  split; [by rewrite length_alter|].
  intros p c Hc. destruct (decide (i = p)) as [->|Hne].
  - exists (place pose c). rewrite list_lookup_alter_eq, Hc. simpl.
    split_and!; try done. set_solver.
  - exists c. rewrite list_lookup_alter_ne by done. by split_and!.
Qed.

Lemma fst_zip_take {A B} (l : list A) (k : list B) :
  fst <$> zip l k = take (length k) l.
Proof.
  revert k. induction l as [|x l IH]; intros [|y k]; simpl; try done.
  by rewrite IH.
Qed.

(** X16: [update_colliders] moves colliders and does nothing else.  When
    it returns, every identifier it was given was a position of the
    manager's list, the bounds have been rebuilt, and the manager holds
    the same colliders in the same positions with the same identifiers,
    geometries and exclusions; only the colliders named in [sample_ids],
    and as many of [positioner_ids] as there are positioner nodes, can
    have a new placement. *)
Theorem update_colliders_only_moves (m m' : CollisionManager)
    (pose : Matrix F) (sids pids : list nat) (nodes : list Node) :
  update_colliders m pose sids nodes pids = Ok m' →
  aabb_built m' = true
  ∧ (∀ t, t ∈ sids ∨ t ∈ take (length nodes) pids →
          t < length (colliders m))
  ∧ replaced (sids ++ take (length nodes) pids) (colliders m) (colliders m').
Proof.
  unfold update_colliders.
  intros (m1 & H1 & (m2 & H2 & [= <-])%bind_Ok)%bind_Ok. simpl.
  split; [done|].
  assert (Hloop : ∀ (l : list (nat * Matrix F)) a b,
            for_each l (fun x '(i, t) => transform_collider t x i) a = Ok b →
            (∀ t, t ∈ fst <$> l → t < length (colliders a))
            ∧ replaced (fst <$> l) (colliders a) (colliders b)).
  { induction l as [|[i t] l IH]; intros a b; simpl.
    - intros [= <-]. split; [|apply replaced_refl].
      intros t Ht. by apply elem_of_nil in Ht.
    - intros (a1 & [Hi Hr]%transform_collider_replaced & Hrest)%bind_Ok.
      destruct (IH _ _ Hrest) as [Hin Hr']. split.
      + intros u [->|Hu]%elem_of_cons; [done|].
        destruct Hr as [<- _]. by apply Hin.
      + exact (replaced_trans [i] _ _ _ _ Hr Hr'). }
  assert (Hs : for_each ((fun i => (i, pose)) <$> sids)
                 (fun x '(i, t) => transform_collider t x i) m = Ok m1).
  { revert H1. generalize m. clear.
    induction sids as [|i sids IH]; intros a; simpl; [done|].
    destruct (transform_collider pose a i); simpl; [apply IH|done]. }
  assert (Hp : for_each ((fun x => (x.1, node_transform x.2))
                           <$> zip pids nodes)
                 (fun x '(i, t) => transform_collider t x i) m1 = Ok m2).
  { revert H2. generalize m1. generalize (zip pids nodes). clear.
    induction l as [|[i node] l IH]; intros a; simpl; [done|].
    destruct (transform_collider (node_transform node) a i); simpl;
      [apply IH|done]. }
  apply Hloop in Hs as [Hin1 Hr1]. apply Hloop in Hp as [Hin2 Hr2].
  assert (E1 : fst <$> ((fun i => (i, pose)) <$> sids) = sids).
  { clear. induction sids as [|i sids IH]; [done|].
    rewrite !fmap_cons. by f_equal. }
  assert (E2 : fst <$> ((fun x : nat * Node => (x.1, node_transform x.2))
                          <$> zip pids nodes)
               = take (length nodes) pids).
  { rewrite <- fst_zip_take. clear.
    induction (zip pids nodes) as [|[i n] l IH]; [done|].
    rewrite !fmap_cons. by f_equal. }
  rewrite E1 in Hin1, Hr1. rewrite E2 in Hin2, Hr2.
  split; [|by eapply replaced_trans].
  intros t [Ht|Ht]; [by apply Hin1|].
  destruct Hr1 as [<- _]. by apply Hin2.
Qed.

(** X17: when [populate_collision_manager] succeeds.  With at least one
    sample mesh it always returns: the sample identifiers are the first
    positions, every identifier returned is a position of the manager's
    list, identifiers equal positions, and the bounds are built.  With no
    sample mesh and the positioner as the first attribute of the
    instrument scene, [manager.colliders[-1]] is taken of an empty list
    and the call raises [IndexError]. *)
Theorem populate_collision_manager_outcome (m0 : CollisionManager)
    (pose : Matrix F) (children : list Node) (indices : list (string * nat)) :
  (∀ sample,
     sample ≠ [] →
     ∃ m sids pids,
       populate_collision_manager m0 sample pose (children, indices)
       = Ok (m, sids, pids)
       ∧ sids = seq 0 (length sample)
       ∧ length sample ≤ length (colliders m)
       ∧ (∀ t, t ∈ sids ∨ t ∈ pids → t < length (colliders m))
       ∧ (∀ p c, colliders m !! p = Some c → cid c = p))
  ∧ (∀ end_index rest,
       indices = (positioner_attribute, end_index) :: rest →
       populate_collision_manager m0 [] pose (children, indices)
       = Raise IndexError).
Proof.
  split.
  - intros sample Hs.
    destruct (populate_collision_manager_total m0 sample pose
                (children, indices) Hs) as ([[m sids] pids] & Heq).
    exists m, sids, pids. split; [done|].
    apply populate_collision_manager_Ok in Heq as (-> & _ & Hpos & Hin).
    split; [done|]. split; [|by split].
    destruct sample as [|x sample]; [done|].
    assert (length (x :: sample) - 1 < length (colliders m)); [|simpl in *; lia].
    apply Hin. left. apply elem_of_seq. simpl. lia.
  - intros end_index rest ->. unfold populate_collision_manager. simpl.
    by rewrite bool_decide_eq_true_2.
Qed.

(** *** What the Controller collects *)

Lemma results_step (s : Simulation) (a : Action) :
  ∃ more, results (step s a) = results s ++ more
          ∧ result_updated s ≤ result_updated (step s a).
Proof.
  destruct a; simpl.
  - destruct (process s) as [w|]; [|exists []; by rewrite app_nil_r].
    destruct (execute_step (shared s) w) as [sh' w'].
    exists []. by rewrite app_nil_r.
  - destruct (timer_active s && negb (blocked s));
      [|exists []; by rewrite app_nil_r].
    unfold CheckResult.
    destruct (queue (shared s)); [exists []; by rewrite app_nil_r|].
    destruct (is_alive s) as [alive|e]; simpl;
      [|exists []; by rewrite app_nil_r].
    destruct (put _ QNone) as [sh|].
    + destruct (drain (queue sh)) as [[got behind]|].
      * exists got. destruct alive; simpl; split; try done; lia.
      * exists []. destruct alive; simpl; by rewrite app_nil_r.
    + exists []. destruct alive; simpl; by rewrite app_nil_r.
  - exists []. destruct (blocked s); simpl; by rewrite app_nil_r.
Qed.

(** X18: the Controller's result list is append-only.  From any state
    whatever, under any schedule, the list after the run is the list
    before it followed by what was collected in between, and the count of
    emitted signals never decreases: an index into [results] that a reader
    has reached stays valid, which is what an incremental reader of the
    list relies on. *)
Theorem results_append_only (s : Simulation) (schedule : list Action) :
  ∃ more, results (run schedule s) = results s ++ more
          ∧ result_updated s ≤ result_updated (run schedule s).
Proof.
  revert s. induction schedule as [|a schedule IH]; intros s.
  - exists []. by rewrite app_nil_r.
  - change (run (a :: schedule) s) with (run schedule (step s a)).
    destruct (results_step s a) as (m1 & H1 & Hu1).
    destruct (IH (step s a)) as (m2 & H2 & Hu2).
    exists (m1 ++ m2). rewrite H2, H1, app_assoc. split; [done|lia].
Qed.

(** X19: the error marker ends up among the results.  Whenever the
    Worker has put the string ['Error'] and the timer is still running,
    the next poll leaves the Controller with a result list that is the
    results of the completed tasks followed by that string as its last
    entry: [CheckResult] appends it like any result. *)
Theorem marker_is_collected_as_a_result (settings : Settings F)
    (instrument : Instrument) (sample : list (string * Mesh))
    (points : list (Vec3 F * bool)) (vectors : ndarray3 F)
    (alignment : Matrix F) (sim : Simulation) (setters : list Setter)
    (schedule : list Action) :
  Simulation_init settings instrument sample points vectors alignment = Ok sim →
  timer_active (run schedule (start (configure setters sim))) = true →
  (None, QString "Error")
    ∈ puts (run schedule (start (configure setters sim))) →
  ∃ before,
    results (run (schedule ++ [Poll]) (start (configure setters sim)))
    = before ++ [QString "Error"]
    ∧ Forall (fun x => is_result x = true) before
    ∧ queue (shared (run (schedule ++ [Poll])
                         (start (configure setters sim)))) = [].
Proof.
  intros [HInv _]%(reachable _ _ _ _ _ _ _ setters schedule) Htimer Hin.
  rewrite run_app.
  change (run [Poll] ?s) with (step s Poll).
  set (s := run schedule (start (configure setters sim))) in *.
  destruct (CheckResult_Inv s HInv) as (s' & Hpoll & _ & Hres & Hq & _).
  destruct HInv as (w & Hp & Hb & _ & _ & _ & Heq & _ & _ & _ & Hpc).
  simpl. rewrite Htimer, Hb, Hpoll. simpl.
  rewrite Hres, Heq, Hq. unfold puts in Hin. rewrite Hp in Hin.
  assert (Hfor : ∀ i, puts_for w i → False).
  { intros i [_ Hall].
    by pose proof (proj1 (Forall_forall _ _) Hall _ Hin). }
  unfold pc_inv in Hpc.
  destruct (pc w) eqn:Epc;
    try (exfalso; destruct Hpc as [Hputs ?]; by eapply Hfor).
  - destruct Hpc as [Hput _]. rewrite Hput in Hin.
    by apply elem_of_nil in Hin.
  - exfalso. destruct Hpc as (_ & i & Hputs & _). by eapply Hfor.
  - destruct Hpc as [(i & Hputs & _)|(_ & i & Hputs & _)];
      [exfalso; by eapply Hfor|].
    destruct Hputs as (before & -> & _ & Hall).
    exists (snd <$> before). rewrite fmap_app. split; [done|].
    split; [|done]. apply Forall_fmap. eapply Forall_impl; [exact Hall|].
    done.
  - rewrite Hpc in Hin. by apply elem_of_nil in Hin.
Qed.

End Coverage.

(** ** The properties on the small instance *)

Module Examples.
Import Toy.

#[local] Existing Instance toy_externals.


(** With two points and two alignments [align_first_order] gives the
    order that keeps each point's alignments together, and its negation
    the order that keeps each alignment's points together: the two orders
    the other way round are not what the code builds. *)
Lemma C2_counterexample :
  task_order true (2, 2, 2) = [(0, 0); (0, 1); (1, 0); (1, 1)]
  ∧ task_order true (2, 2, 2) ≠ [(0, 0); (1, 0); (0, 1); (1, 1)]
  ∧ task_order false (2, 2, 2) = [(0, 0); (1, 0); (0, 1); (1, 1)]
  ∧ task_order false (2, 2, 2) ≠ [(0, 0); (0, 1); (1, 0); (1, 1)].
Proof.
  split; [vm_compute; reflexivity|].
  split; [vm_compute; discriminate|].
  split; [vm_compute; reflexivity|].
  vm_compute. discriminate.
Qed.



Lemma C4_witness :
  ∃ sim r,
    Simulation_init (toy_settings true) toy_instrument toy_sample three_points
      (toy_vectors 3 1) identity = Ok sim
    ∧ head (puts (run (replicate 9 WorkerStep)
                      (start (configure [SetComputePathLength true] sim))))
      = Some (Some (0, 0), QResult r)
    ∧ is_Some (buffer (run (replicate 9 WorkerStep)
                           (start (configure [SetComputePathLength true] sim)))
                 !! (0, 0)).
Proof.
  eexists. eexists. split; [reflexivity|].
  split; [vm_compute; reflexivity|].
  eapply (C4_path_length_cell (toy_settings true) toy_instrument toy_sample
            three_points (toy_vectors 3 1) identity _
            [SetComputePathLength true] (replicate 9 WorkerStep) (0, 0) _
            eq_refl).
  - vm_compute. apply list_elem_of_here.
  - split; vm_compute; reflexivity.
Defined.

Lemma C5_witness :
  ∃ w all_mvs point q0,
    toy_worker = Some w
    ∧ reshape_groups (a_vectors (w_args w)) 0 0 = Ok all_mvs
    ∧ a_points (w_args w) !! 0 = Some point
    ∧ a_q_vectors (w_args w) !! 0 = Some q0
    ∧ all_mvs !! 1 = Some (0%Q, 0%Q, 0%Q)
    ∧ 1 ∉ where_active all_mvs 0.
Proof.
  eexists _, _, _, _.
  split; [reflexivity|].
  lazymatch goal with
  | |- ?G1 ∧ ?G2 ∧ ?G3 ∧ ?G4 ∧ _ =>
      assert (H1 : G1); [vm_compute; reflexivity|];
      assert (H2 : G2); [vm_compute; reflexivity|];
      assert (H3 : G3); [vm_compute; reflexivity|];
      assert (H4 : G4); [vm_compute; reflexivity|]
  end.
  split; [exact H1|]. split; [exact H2|]. split; [exact H3|].
  split; [exact H4|].
  refine (proj1 (C5_target_selection _ (0, 0) _ _ _ H1 H2 H3) 1 _ H4 _).
  vm_compute. reflexivity.
Defined.



(** C7, the part the code does not have: of three tasks the second makes
    the solver raise; the Worker puts the first result and then the string
    ['Error'], returns, and never begins the third task; the Controller's
    poll appends the string to [results] as it does a result, emits the
    ordinary signal once and stops the timer: nothing in its state tells
    the run from one that produced two results. *)
Theorem C7_marker_stored_as_result :
  ∃ sim r0,
    Simulation_init (toy_settings true) toy_instrument toy_sample faulty_points
      (toy_vectors 3 1) identity = Ok sim
    ∧ started_tasks (run (replicate 30 WorkerStep) (start sim))
      = [(0, 0); (1, 0)]
    ∧ worker_returned (run (replicate 30 WorkerStep) (start sim)) = true
    ∧ snd <$> puts (run (replicate 30 WorkerStep) (start sim))
      = [QResult r0; QString "Error"]
    ∧ results (run (replicate 30 WorkerStep ++ [Poll]) (start sim))
      = [QResult r0; QString "Error"]
    ∧ result_updated (run (replicate 30 WorkerStep ++ [Poll]) (start sim)) = 1
    ∧ timer_active (run (replicate 30 WorkerStep ++ [Poll]) (start sim))
      = false
    ∧ blocked (run (replicate 30 WorkerStep ++ [Poll]) (start sim)) = false.
Proof.
  eexists _, _. split; [reflexivity|].
  split; [vm_compute; reflexivity|].
  split; [vm_compute; reflexivity|].
  split; [vm_compute; reflexivity|].
  split; [vm_compute; reflexivity|].
  split; [vm_compute; reflexivity|].
  split; vm_compute; reflexivity.
Qed.

Lemma C8_witness :
  ∃ sim s',
    Simulation_init (toy_settings true) toy_instrument toy_sample three_points
      (toy_vectors 3 1) identity = Ok sim
    ∧ length (queue (shared (run (replicate 9 WorkerStep)
                               (start (configure [] sim))))) = 1
    ∧ CheckResult (run (replicate 9 WorkerStep) (start (configure [] sim)))
      = Ok s'
    ∧ length (results s') = 1
    ∧ queue (shared s') = []
    ∧ CheckResult s' = Ok s'.
Proof.
  destruct (C8_poll_idempotent (toy_settings true) toy_instrument toy_sample
              three_points (toy_vectors 3 1) identity _ []
              (replicate 9 WorkerStep) eq_refl)
    as (s' & Hpoll & Hres & Hqueue & _ & _ & Hagain).
  eexists _, s'. split; [reflexivity|].
  split; [vm_compute; reflexivity|].
  split; [exact Hpoll|].
  split; [rewrite Hres; vm_compute; reflexivity|].
  split; [exact Hqueue | exact Hagain].
Defined.

Lemma head_in_list {A} (l : list A) (x : A) : head l = Some x → x ∈ l.
Proof. destruct l as [|y l]; [done|]. intros [= ->]. apply list_elem_of_here. Qed.

Ltac observed H :=
  lazymatch goal with
  | |- ?G ∧ _ => assert (H : G); [vm_compute; reflexivity|]; split; [exact H|]
  end.

(** Three points, one alignment, two sample meshes and two positioner
    links, with collision checking: after nine Worker steps the first
    result is out with a mask of five entries, one per collider, and both
    sample colliders and the tool, the collider 3, exclude each other in
    the manager and in the state of it the mask was computed on. *)
Lemma C9_witness :
  ∃ sim r,
    Simulation_init (toy_settings true) toy_instrument toy_sample three_points
      (toy_vectors 3 1) identity = Ok sim
    ∧ a_check_collision (args (configure [SetCheckCollision true] sim)) = true
    ∧ head (puts (run (replicate 9 WorkerStep)
                      (start (configure [SetCheckCollision true] sim))))
      = Some (Some (0, 0), QResult r)
    ∧ collision_mask r = Some [true; true; true; true; true]
    ∧ snd <$> collision_manager
                (run (replicate 9 WorkerStep)
                     (start (configure [SetCheckCollision true] sim)))
      = Some [2; 3]
    ∧ ∃ m sids pids m',
        collision_manager (run (replicate 9 WorkerStep)
                               (start (configure [SetCheckCollision true] sim)))
        = Some (m, sids, pids)
        ∧ sids = [0; 1]
        ∧ mutually_excluded m 0 3 ∧ mutually_excluded m 1 3
        ∧ collision_mask r = Some (collide m')
        ∧ length (collide m') = length (colliders m)
        ∧ mutually_excluded m' 0 3 ∧ mutually_excluded m' 1 3.
Proof.
  eexists _, _. split; [reflexivity|].
  observed Hflag. observed Hhead. observed Hmask. observed Hpids.
  destruct (C9_mask_and_tool_exclusion (toy_settings true) toy_instrument
              toy_sample three_points (toy_vectors 3 1) identity _
              [SetCheckCollision true] (replicate 9 WorkerStep)
              eq_refl Hflag)
    as (m & sids & pids & Hm & Hsids & Hex & Hres).
  - intros H. vm_compute in H. discriminate H.
  - intros H. vm_compute in H. discriminate H.
  - rewrite Hm in Hpids. injection Hpids as Hpids.
    change (seq 0 (length toy_sample)) with [0; 1] in Hsids.
    subst sids pids.
    destruct (Hres _ _ (head_in_list _ _ Hhead))
      as (m' & mask & Hcm & -> & Hlen & Hex').
    assert (H0 : 0 ∈ [0; 1]) by apply list_elem_of_here.
    assert (H1 : 1 ∈ [0; 1])
      by apply list_elem_of_further, list_elem_of_here.
    exists m, [0; 1], [2; 3], m'.
    split; [exact Hm|]. split; [reflexivity|].
    split; [exact (proj1 (Hex 3 0 eq_refl H0))|].
    split; [exact (proj1 (Hex 3 1 eq_refl H1))|].
    split; [exact Hcm|]. split; [exact Hlen|].
    split; [exact (proj1 (Hex' 3 0 eq_refl H0))
           | exact (proj1 (Hex' 3 1 eq_refl H1))].
Defined.

(** Two samples that share their first mesh, with path lengths computed:
    the first result carries the path length of the first mesh, the mesh
    5, on both detectors, and the buffers of the two runs agree. *)
Lemma C10_witness :
  ∃ sim1 sim2 r,
    Simulation_init (toy_settings true) toy_instrument
      [("first"%string, 5); ("second"%string, 6)] three_points
      (toy_vectors 3 1) identity = Ok sim1
    ∧ Simulation_init (toy_settings true) toy_instrument
        [("other"%string, 5)] three_points (toy_vectors 3 1) identity
      = Ok sim2
    ∧ head (puts (run (replicate 9 WorkerStep)
                      (start (configure [SetComputePathLength true] sim1))))
      = Some (Some (0, 0), QResult r)
    ∧ path_length r = Some [inject_Z 5; inject_Z 5]
    ∧ (∃ l, path_length r = Some l
            ∧ first_mesh_length toy_instrument 5 identity (q r) l)
    ∧ buffer (run (replicate 9 WorkerStep)
                  (start (configure [SetComputePathLength true] sim1)))
      = buffer (run (replicate 9 WorkerStep)
                    (start (configure [SetComputePathLength true] sim2)))
    ∧ is_Some (buffer (run (replicate 9 WorkerStep)
                           (start (configure [SetComputePathLength true] sim1)))
                 !! (0, 0)).
Proof.
  eexists _, _, _. split; [reflexivity|]. split; [reflexivity|].
  observed Hhead. observed Hlen.
  destruct (C10_only_first_mesh (toy_settings true) toy_instrument
              "first" "other" 5 [("second"%string, 6)] [] three_points
              (toy_vectors 3 1) identity _ _
              [SetComputePathLength true] (replicate 9 WorkerStep)
              eq_refl eq_refl)
    as (Hputs & _ & Hsame).
  split.
  - pose proof (Hputs _ _ (head_in_list _ _ Hhead)) as Hm.
    lazymatch type of Hm with
    | measures_first_mesh _ _ _ ?w _ =>
        assert (Hw : w = true) by (vm_compute; reflexivity);
        rewrite Hw in Hm
    end.
    exact Hm.
  - split.
    + apply Hsame. vm_compute. reflexivity.
    + vm_compute. eexists. reflexivity.
Defined.

End Examples.

(** ** The further properties on the small instance *)

Module Cases.
Import Toy.

#[local] Existing Instance toy_externals.

(** Settles the first conjunct of the goal by evaluation and keeps it as
    [H]. *)
Ltac evaluated H :=
  lazymatch goal with
  | |- ?G ∧ _ => assert (H : G); [vm_compute; reflexivity|]; split; [exact H|]
  end.

Lemma X1_witness :
  ∃ sim,
    Simulation_init (toy_settings true) toy_instrument toy_sample three_points
      (toy_vectors 3 1) identity = Ok sim
    ∧ results (run (replicate 9 WorkerStep ++ Poll :: replicate 7 WorkerStep)
                   (start (configure [] sim)))
        ++ queue (shared (run (replicate 9 WorkerStep
                                 ++ Poll :: replicate 7 WorkerStep)
                              (start (configure [] sim))))
      = snd <$> puts (run (replicate 9 WorkerStep
                             ++ Poll :: replicate 7 WorkerStep)
                          (start (configure [] sim)))
    ∧ length (results (run (replicate 9 WorkerStep
                              ++ Poll :: replicate 7 WorkerStep)
                           (start (configure [] sim)))) = 1.
Proof.
  eexists. split; [reflexivity|]. split.
  - exact (proj1 (results_are_the_puts (toy_settings true) toy_instrument
                    toy_sample three_points (toy_vectors 3 1) identity _ []
                    (replicate 9 WorkerStep ++ Poll :: replicate 7 WorkerStep)
                    eq_refl)).
  - vm_compute. reflexivity.
Defined.

Lemma X2_witness :
  ∃ sim,
    Simulation_init (toy_settings true) toy_instrument toy_sample three_points
      (toy_vectors 3 1) identity = Ok sim
    ∧ count sim = 3
    ∧ blocked (run (replicate 40 WorkerStep ++ [Poll])
                   (start (configure [] sim))) = false
    ∧ length (puts (run (replicate 40 WorkerStep ++ [Poll])
                        (start (configure [] sim)))) ≤ count sim.
Proof.
  eexists. split; [reflexivity|]. split; [vm_compute; reflexivity|].
  destruct (queue_never_full (toy_settings true) toy_instrument toy_sample
              three_points (toy_vectors 3 1) identity _ []
              (replicate 40 WorkerStep ++ [Poll]) eq_refl)
    as (Hb & _ & Hputs & _).
  split; [exact Hb | exact Hputs].
Defined.

Lemma X3_witness :
  ∃ sim k,
    Simulation_init (toy_settings false) toy_instrument toy_sample
      three_points (toy_vectors 3 2) identity = Ok sim
    ∧ k ≤ count sim
    ∧ (fst <$> puts (run (replicate 17 WorkerStep ++ [Abort; WorkerStep])
                         (start (configure [] sim)))
       = Some <$> take k (task_order false (shape sim))
       ∨ fst <$> puts (run (replicate 17 WorkerStep ++ [Abort; WorkerStep])
                           (start (configure [] sim)))
         = (Some <$> take k (task_order false (shape sim))) ++ [None]).
Proof.
  destruct (results_follow_task_order (toy_settings false) toy_instrument
              toy_sample three_points (toy_vectors 3 2) identity _ []
              (replicate 17 WorkerStep ++ [Abort; WorkerStep]) eq_refl)
    as ((k & Hk & Hputs) & _).
  eexists _, k. split; [reflexivity|]. split; [exact Hk | exact Hputs].
Defined.

Lemma X4_witness :
  ∃ sim before,
    Simulation_init (toy_settings true) toy_instrument toy_sample faulty_points
      (toy_vectors 3 1) identity = Ok sim
    ∧ worker_terminated (run (replicate 30 WorkerStep)
                             (start (configure [] sim))) = true
    ∧ puts (run (replicate 30 WorkerStep) (start (configure [] sim)))
      = before ++ [(None, QString "Error")]
    ∧ Forall (fun y => is_result y.2 = true) before.
Proof.
  destruct (fault_puts_marker_last (toy_settings true) toy_instrument
              toy_sample faulty_points (toy_vectors 3 1) identity _ []
              (replicate 30 WorkerStep) eq_refl) as [_ Hfault].
  destruct Hfault as (before & Hputs & Hall).
  - vm_compute. reflexivity.
  - vm_compute. reflexivity.
  - eexists _, before. split; [reflexivity|].
    split; [vm_compute; reflexivity|]. split; [exact Hputs | exact Hall].
Defined.

Lemma X5_witness :
  ∃ sim,
    Simulation_init (toy_settings true) toy_instrument toy_sample three_points
      (toy_vectors 3 1) identity = Ok sim
    ∧ 7 * count sim + 2 ≤ worker_steps (Poll :: replicate 23 WorkerStep)
    ∧ worker_terminated (run (Poll :: replicate 23 WorkerStep)
                             (start (configure [SetCheckCollision true] sim)))
      = true.
Proof.
  eexists. split; [reflexivity|].
  assert (Hsteps : 7 * 3 + 2 ≤ worker_steps (Poll :: replicate 23 WorkerStep))
    by (vm_compute; lia).
  split; [exact Hsteps|].
  exact (proj1 (worker_terminates (toy_settings true) toy_instrument
                  toy_sample three_points (toy_vectors 3 1) identity _
                  [SetCheckCollision true] (Poll :: replicate 23 WorkerStep)
                  eq_refl Hsteps)).
Defined.

Lemma X6_witness :
  ∃ sim,
    Simulation_init (toy_settings true) toy_instrument toy_sample three_points
      (toy_vectors 3 1) identity = Ok sim
    ∧ worker_terminated (run (replicate 22 WorkerStep ++ [Poll; WorkerStep])
                             (start (configure [] sim))) = true
    ∧ queue (shared (run (replicate 22 WorkerStep ++ [Poll; WorkerStep])
                         (start (configure [] sim)))) = []
    ∧ length (results (run (replicate 22 WorkerStep ++ [Poll; WorkerStep])
                           (start (configure [] sim)))) = 3
    ∧ timer_active (run (replicate 22 WorkerStep ++ [Poll; WorkerStep])
                        (start (configure [] sim))) = true
    ∧ timer_active (run ((replicate 22 WorkerStep ++ [Poll; WorkerStep])
                           ++ [Poll; Poll; WorkerStep; Poll])
                        (start (configure [] sim))) = true.
Proof.
  eexists. split; [reflexivity|].
  evaluated Hterm. evaluated Hqueue. evaluated Hresults. evaluated Htimer.
  exact (eq_trans
           (proj2 (finished_and_drained_is_final (toy_settings true)
                     toy_instrument toy_sample three_points
                     (toy_vectors 3 1) identity _ []
                     (replicate 22 WorkerStep ++ [Poll; WorkerStep])
                     [Poll; Poll; WorkerStep; Poll] eq_refl Hterm Hqueue
                     eq_refl)) Htimer).
Defined.

Lemma X7_witness :
  ∃ sim,
    Simulation_init (toy_settings true) toy_instrument toy_sample three_points
      (toy_vectors 3 1) identity = Ok sim
    ∧ isRunning (configure [] sim) = false
    ∧ isRunning (start (configure [] sim)) = true
    ∧ isRunning (run ([WorkerStep; WorkerStep] ++ Abort :: [WorkerStep; Poll])
                     (start (configure [] sim))) = false.
Proof.
  eexists. split; [reflexivity|].
  destruct (isRunning_life_cycle (toy_settings true) toy_instrument
              toy_sample three_points (toy_vectors 3 1) identity _ []
              eq_refl) as (Hbefore & Hstart & Habort & _).
  split; [exact Hbefore|]. split; [exact Hstart|]. apply Habort.
Defined.

Lemma X8_witness :
  ∃ sim,
    Simulation_init (toy_settings true) toy_instrument toy_sample three_points
      (toy_vectors 3 1) identity = Ok sim
    ∧ result_puts (puts (run (replicate 5 WorkerStep ++ [Poll])
                             (start (abort (configure [] sim))))) = 0
    ∧ started_tasks (run (replicate 5 WorkerStep ++ [Poll])
                         (start (abort (configure [] sim)))) = [(0, 0)]
    ∧ worker_terminated (run (replicate 5 WorkerStep ++ [Poll])
                             (start (abort (configure [] sim)))) = true.
Proof.
  eexists. split; [reflexivity|].
  destruct (abort_before_start (toy_settings true) toy_instrument toy_sample
              three_points (toy_vectors 3 1) identity _ []
              (replicate 5 WorkerStep ++ [Poll]) eq_refl)
    as (_ & _ & Hnone & _ & _ & Hterm).
  split; [exact Hnone|]. split; [vm_compute; reflexivity|].
  apply Hterm. vm_compute. lia.
Defined.

Lemma X10_witness :
  length three_points = shape0 ragged_vectors
  ∧ (∃ sim, Simulation_init (toy_settings true) toy_instrument toy_sample
              three_points (toy_vectors 3 1) identity = Ok sim)
  ∧ Simulation_init (toy_settings true) toy_instrument toy_sample three_points
      ragged_vectors identity = Raise ValueError.
Proof.
  split; [reflexivity|]. split.
  - apply (construction_outcome (toy_settings true) toy_instrument toy_sample
             three_points (toy_vectors 3 1) identity eq_refl).
    left. reflexivity.
  - apply (construction_outcome (toy_settings true) toy_instrument toy_sample
             three_points ragged_vectors identity eq_refl).
    + vm_compute. discriminate.
    + vm_compute. lia.
Defined.

Lemma X12_witness :
  ∃ sim row,
    Simulation_init (toy_settings true) toy_instrument toy_sample three_points
      (toy_vectors 3 1) identity = Ok sim
    ∧ buffer (run (replicate 9 WorkerStep)
                  (start (configure [SetComputePathLength true] sim)))
        !! (0, 0) = Some row
    ∧ length row = 2.
Proof.
  eexists _, _. split; [reflexivity|]. evaluated Hrow.
  exact (proj1 (buffer_cells_in_bounds (toy_settings true) toy_instrument
                  toy_sample three_points (toy_vectors 3 1) identity _
                  [SetComputePathLength true] (replicate 9 WorkerStep)
                  (0, 0) _ eq_refl Hrow)).
Defined.

Lemma X13_witness :
  ∃ sim view,
    Simulation_init (toy_settings true) toy_instrument toy_sample three_points
      (toy_vectors 3 1) identity = Ok sim
    ∧ path_lengths_property
        (run (replicate 9 WorkerStep)
             (start (configure [SetComputePathLength true] sim)))
      = Ok (Some view)
    ∧ path_lengths_property
        (run (replicate 9 WorkerStep) (start (configure [] sim)))
      = Ok None.
Proof.
  destruct (path_lengths_match_results (toy_settings true) toy_instrument
              toy_sample three_points (toy_vectors 3 1) identity _
              [SetComputePathLength true] (replicate 9 WorkerStep) eq_refl)
    as [_ Hset].
  destruct (Hset eq_refl) as (view & Hview & _).
  eexists _, view. split; [reflexivity|]. split; [exact Hview|].
  apply (path_lengths_match_results (toy_settings true) toy_instrument
           toy_sample three_points (toy_vectors 3 1) identity _ []
           (replicate 9 WorkerStep) eq_refl).
  reflexivity.
Defined.

Lemma X14_witness :
  ∃ sim,
    Simulation_init (toy_settings true) toy_instrument [] three_points
      (toy_vectors 3 1) identity = Ok sim
    ∧ worker_pc (run [WorkerStep; Poll; WorkerStep]
                     (start (configure [SetCheckCollision true] sim)))
      = PcCrashed
    ∧ puts (run [WorkerStep; Poll; WorkerStep]
                (start (configure [SetCheckCollision true] sim))) = []
    ∧ isRunning (run [WorkerStep; Poll; WorkerStep]
                     (start (configure [SetCheckCollision true] sim))) = false.
Proof.
  eexists. split; [reflexivity|]. evaluated Hcrashed.
  destruct (crash_at_initialisation_is_silent (toy_settings true)
              toy_instrument [] three_points (toy_vectors 3 1) identity _
              [SetCheckCollision true] [WorkerStep; Poll; WorkerStep]
              eq_refl Hcrashed)
    as (_ & _ & _ & Hputs & _ & _ & Hrun).
  split; [exact Hputs | exact Hrun].
Defined.

Lemma X15_witness :
  ∃ sim p,
    Simulation_init (toy_settings true) toy_instrument toy_sample mixed_points
      (toy_vectors 3 1) identity = Ok sim
    ∧ true_indices (snd <$> mixed_points) 0 !! 1 = Some 2
    ∧ mixed_points !! 2 = Some (p, true)
    ∧ group_at (a_vectors (args sim)) 1 3 0
      = row_mul (group_at (toy_vectors 3 1) 2 3 0) (transpose identity).
Proof.
  destruct (enabled_rows_are_rotated (toy_settings true) toy_instrument
              toy_sample mixed_points (toy_vectors 3 1) identity _ 1 2
              eq_refl eq_refl) as (p & Hp & _ & Hgroups).
  eexists _, p. split; [reflexivity|]. split; [reflexivity|].
  split; [exact Hp|].
  apply (Hgroups 1 0); vm_compute; lia.
Defined.

Lemma X16_witness :
  ∃ m',
    update_colliders two_colliders identity [0] [7; 8] [1; 0] = Ok m'
    ∧ aabb_built m' = true
    ∧ length (colliders m') = 2.
Proof.
  eexists. split; [vm_compute; reflexivity|].
  destruct (update_colliders_only_moves two_colliders _ identity [0] [1; 0]
              [7; 8] eq_refl) as (Hbuilt & _ & Hlen & _).
  split; [exact Hbuilt | exact Hlen].
Defined.

Lemma X19_witness :
  ∃ sim,
    Simulation_init (toy_settings true) toy_instrument toy_sample faulty_points
      (toy_vectors 3 1) identity = Ok sim
    ∧ timer_active (run (replicate 30 WorkerStep) (start (configure [] sim)))
      = true
    ∧ last (puts (run (replicate 30 WorkerStep) (start (configure [] sim))))
      = Some (None, QString "Error")
    ∧ ∃ before,
        results (run (replicate 30 WorkerStep ++ [Poll])
                     (start (configure [] sim)))
        = before ++ [QString "Error"].
Proof.
  eexists. split; [reflexivity|]. evaluated Htimer. evaluated Hlast.
  destruct (marker_is_collected_as_a_result (toy_settings true)
              toy_instrument toy_sample faulty_points (toy_vectors 3 1)
              identity _ [] (replicate 30 WorkerStep) eq_refl Htimer)
    as (before & Hres & _).
  - apply last_Some in Hlast as [l' ->].
    apply elem_of_app. right. apply list_elem_of_here.
  - by exists before.
Defined.

End Cases.
